(** * Polymorphic-executable study: byte transform, ELF and PE mutators,
      and the keyword classifier, as executable Rocq models.

    Sources modelled:
    - [polymorphic_demo_linux.c]   (module [Elf])
    - [polymorphic_demo_windows.c] (module [Pe])
    - [llm_backup_classifier.c]    (module [Classifier])

    Conventions.  An [unsigned char] is a [Z] in [[0,256)]; a buffer is a
    [list Z] addressed by a [Z] offset; an access outside the buffer is
    undefined behaviour in C and is [None] here.  Integer conversions
    ([unsigned char], [int]) are written out by [to_uchar] and [to_int].
    Calls into the operating system take their result from an environment
    record.  Of the text the mutators print, only the message of [die] is
    kept; the classifier's output is kept as a list of events. *)

From stdpp Require Import base option list strings gmap.
From Stdlib Require Import ZArith Lia.

Local Open Scope Z_scope.

(** ** Bytes and buffers *)

Module Mem.

Definition byte_ok (b : Z) : Prop := 0 ≤ b < 256.

(** Conversion to [unsigned char]. *)
Definition to_uchar (z : Z) : Z := z mod 256.

(** Conversion of a wider unsigned value to a 32-bit [int] (wrap-around,
    as gcc and MSVC define it). *)
Definition to_int (z : Z) : Z := (z + 2 ^ 31) mod 2 ^ 32 - 2 ^ 31.

(** [p[a]] as an rvalue. *)
Definition rd8 (m : list Z) (a : Z) : option Z :=
  if decide (0 ≤ a) then m !! Z.to_nat a else None.

(** [p[a] = v]. *)
Definition wr8 (m : list Z) (a : Z) (v : Z) : option (list Z) :=
  if decide (0 ≤ a < Z.of_nat (length m)) then Some (<[Z.to_nat a := v]> m)
  else None.

(** Little-endian read of an [n]-byte unsigned field at offset [a]. *)
Fixpoint rdle (n : nat) (m : list Z) (a : Z) : option Z :=
  match n with
  | O => Some 0
  | S n' => b ← rd8 m a; r ← rdle n' m (a + 1); Some (b + 256 * r)
  end.

(** [memcpy(dst, p + a, n)] out of a buffer. *)
Fixpoint rdbytes (n : nat) (m : list Z) (a : Z) : option (list Z) :=
  match n with
  | O => Some []
  | S n' => b ← rd8 m a; r ← rdbytes n' m (a + 1); Some (b :: r)
  end.

(** [memcpy(p + a, src, |src|)] into a buffer. *)
Fixpoint wrbytes (src : list Z) (m : list Z) (a : Z) : option (list Z) :=
  match src with
  | [] => Some m
  | b :: src' => m' ← wr8 m a b; wrbytes src' m' (a + 1)
  end.

(** ASCII codes of a string literal, without the terminator. *)
Fixpoint codes (s : string) : list Z :=
  match s with
  | EmptyString => []
  | String c s' => Z.of_nat (Ascii.nat_of_ascii c) :: codes s'
  end.

(** Two buffers hold the same bytes at every offset below [H]. *)
Definition agree_below (H : Z) (m m' : list Z) : Prop :=
  ∀ a, a < H → rd8 m' a = rd8 m a.

(** The newline character of C string literals. *)
Definition nl : string := String (Ascii.ascii_of_nat 10) EmptyString.

End Mem.
Import Mem.

(** ** The byte transform shared by every [xor_crypt*] function

    [for (int i = 0; i < len; i++) data[i] ^= (key[i % KEY_SIZE] - 1);]

    [key[..] - 1] is computed in [int] (so it is [-1] for a zero key byte),
    the exclusive-or is taken in [int] and the result is converted back to
    [unsigned char]. *)

Module Xor.

Definition KEY_SIZE : Z := 8.

(** The eight key bytes of ["\x01\x01\x01\x01\x01\x01\x01\x01"]; the
    ninth byte of the arrays it initialises is never indexed. *)
Definition ORIG_KEY : list Z := [1; 1; 1; 1; 1; 1; 1; 1].

Definition xor_byte (d k : Z) : Z := to_uchar (Z.lxor d (k - 1)).

Fixpoint xor_loop (key m : list Z) (base i : Z) (n : nat) : option (list Z) :=
  match n with
  | O => Some m
  | S n' =>
      d ← rd8 m (base + i);
      k ← key !! Z.to_nat (i mod KEY_SIZE);
      m' ← wr8 m (base + i) (xor_byte d k);
      xor_loop key m' base (i + 1) n'
  end.

(** [data] is the pointer [m + base]; [len] is the [int] argument. *)
Definition xor_bytes (key m : list Z) (base len : Z) : option (list Z) :=
  xor_loop key m base 0 (Z.to_nat len).

(** Closed form of the loop, used to reason about it: the bytes at offsets
    [base .. base+len-1] are transformed, the others are kept. *)
Definition key_at (key : list Z) (j : Z) : Z :=
  default 0 (key !! Z.to_nat (j mod KEY_SIZE)).

Definition xor_span (key m : list Z) (base len : Z) : list Z :=
  imap (λ p d, if decide (base ≤ Z.of_nat p < base + len)
               then xor_byte d (key_at key (Z.of_nat p - base)) else d) m.

End Xor.
Import Xor.

(** ** The ELF mutator, [polymorphic_demo_linux.c] *)

Module Elf.

Definition CUSTOM_SECTION : string := ".poly".
Definition EXIT_FAILURE : Z := 1.

(** How a run of a function ends: it returns, or [die] printed [msg] on the
    error stream and called [exit(code)]. *)
Inductive outcome :=
| Returned
| Exited (code : Z) (msg : string).

(** *** Section headers

    [<elf.h>] is a system header; the field offsets are those of the
    ELF-64 object format ([Elf64_Ehdr], [Elf64_Shdr], little-endian).
    A section-header pointer is the offset of the header in the buffer. *)

Definition SHDR_SIZE : Z := 64.
Definition e_shoff (m : list Z) : option Z := rdle 8 m 40.
Definition e_shnum (m : list Z) : option Z := rdle 2 m 60.
Definition e_shstrndx (m : list Z) : option Z := rdle 2 m 62.
Definition sh_name (m : list Z) (p : Z) : option Z := rdle 4 m p.
Definition sh_addr (m : list Z) (p : Z) : option Z := rdle 8 m (p + 16).
Definition sh_offset (m : list Z) (p : Z) : option Z := rdle 8 m (p + 24).
Definition sh_size (m : list Z) (p : Z) : option Z := rdle 8 m (p + 32).

(** [!strcmp(m + a, s)]: byte-wise comparison up to the first difference
    or the common terminator. *)
Fixpoint streq_at (m : list Z) (a : Z) (s : list Z) : option bool :=
  match s with
  | [] => c ← rd8 m a; Some (bool_decide (c = 0))
  | x :: s' =>
      c ← rd8 m a;
      if decide (c = x) then streq_at m (a + 1) s' else Some false
  end.

(** The [for] loop of [get_section], at index [i] with [n] headers left. *)
Fixpoint get_section_loop (m : list Z) (shoff strtab : Z) (name : list Z)
    (i : Z) (n : nat) : option (option Z) :=
  match n with
  | O => Some None
  | S n' =>
      let p := shoff + SHDR_SIZE * i in
      nm ← sh_name m p;
      eq ← streq_at m (strtab + nm) name;
      if eq : bool then Some (Some p)
      else get_section_loop m shoff strtab name (i + 1) n'
  end.

(** [Some (Some p)]: header found at offset [p]; [Some None]: [NULL]. *)
Definition get_section (m : list Z) (section_name : string)
    : option (option Z) :=
  shoff ← e_shoff m;
  strndx ← e_shstrndx m;
  strtab ← sh_offset m (shoff + SHDR_SIZE * strndx);
  shnum ← e_shnum m;
  get_section_loop m shoff strtab (codes section_name) 0 (Z.to_nat shnum).

(** *** Process state and environment *)

Record state := {
  key : list Z;            (* static unsigned char key[]      (bytes 0..7) *)
  file_key : list Z;       (* static unsigned char file_key[] (bytes 0..7) *)
  runtime : list Z;        (* the loaded program image; byte 0 is
                              [__executable_start] *)
  rand_calls : nat;        (* number of [rand()] calls made so far *)
  disk : option (list Z)   (* the file named [argv[0]], [None] once unlinked *)
}.

Record env := {
  executable_start : Z;    (* address of [__executable_start] *)
  pagesize : Z;            (* getpagesize() *)
  rand : nat → Z;          (* the n-th value [rand()] returns *)
  mprotect_ok : Z → Z → Z → bool;   (* mprotect(addr, len, prot) >= 0 *)
  unlink_ok : bool;
  open_ok : bool;
  write_ok : bool
}.

Definition PROT_READ : Z := 1.
Definition PROT_WRITE : Z := 2.
Definition PROT_EXEC : Z := 4.

Definition set_key (st : state) (k : list Z) : state :=
  {| key := k; file_key := file_key st; runtime := runtime st;
     rand_calls := rand_calls st; disk := disk st |}.
Definition set_file_key (st : state) (k : list Z) : state :=
  {| key := key st; file_key := k; runtime := runtime st;
     rand_calls := rand_calls st; disk := disk st |}.
Definition set_runtime (st : state) (r : list Z) : state :=
  {| key := key st; file_key := file_key st; runtime := r;
     rand_calls := rand_calls st; disk := disk st |}.
Definition set_rand_calls (st : state) (n : nat) : state :=
  {| key := key st; file_key := file_key st; runtime := runtime st;
     rand_calls := n; disk := disk st |}.
Definition set_disk (st : state) (d : option (list Z)) : state :=
  {| key := key st; file_key := file_key st; runtime := runtime st;
     rand_calls := rand_calls st; disk := d |}.

(** [void xor_crypt(unsigned char* data, int len)], on the global [key]. *)
Definition xor_crypt (st : state) (m : list Z) (data len : Z)
    : option (list Z) :=
  xor_bytes (key st) m data len.

(** [void xor_crypt_file(unsigned char* data, int len)], on [file_key]. *)
Definition xor_crypt_file (st : state) (m : list Z) (data len : Z)
    : option (list Z) :=
  xor_bytes (file_key st) m data len.

(** [for (i = 0; i < KEY_SIZE; i++) k[i] = (unsigned char)(rand() % 255);] *)
Definition draw_key (e : env) (first : nat) : list Z :=
  map (λ i, to_uchar (Z.rem (rand e (first + i)%nat) 255)) (seq 0 8).

(** *** [decrypt_runtime_sections], the constructor run before [main]

    [exe] is the content read back from [/proc/self/exe], or [None] when
    [readlink], [open] or [malloc] fails (the function then returns).
    The results of the two [mprotect] calls are ignored by the code. *)
Fixpoint decrypt_loop (e : env) (st : state) (file_data : list Z)
    (names : list string) : option state :=
  match names with
  | [] => Some st
  | name :: rest =>
      sec ← get_section file_data name;
      match sec with
      | None => decrypt_loop e st file_data rest
      | Some section =>
          size ← sh_size file_data section;
          if decide (0 < size) then
            addr ← sh_addr file_data section;
            if decide (addr ≠ 0) then
              rt ← xor_crypt_file st (runtime st)
                     (addr - executable_start e) (to_int size);
              decrypt_loop e (set_runtime st rt) file_data rest
            else decrypt_loop e st file_data rest
          else decrypt_loop e st file_data rest
      end
  end.

Definition decrypt_runtime_sections (e : env) (st : state)
    (exe : option (list Z)) : option state :=
  match exe with
  | None => Some st
  | Some file_data =>
      decrypt_loop e st file_data [".data"; ".rodata"; ".bss"]
  end.

(** *** [encrypt_file_sections]

    [section->sh_size] is read through the header pointer at each of the
    two calls, so the second call sees the buffer as the first left it. *)
Fixpoint encrypt_loop (st : state) (data : list Z) (names : list string)
    : option (list Z) :=
  match names with
  | [] => Some data
  | name :: rest =>
      sec ← get_section data name;
      match sec with
      | None => encrypt_loop st data rest
      | Some section =>
          size ← sh_size data section;
          if decide (0 < size) then
            section_data ← sh_offset data section;
            data1 ← xor_crypt_file st data section_data (to_int size);
            size1 ← sh_size data1 section;
            data2 ← xor_crypt_file st data1 section_data (to_int size1);
            encrypt_loop st data2 rest
          else encrypt_loop st data rest
      end
  end.

Definition encrypt_file_sections (st : state) (data : list Z)
    : option (list Z) :=
  encrypt_loop st data [".data"; ".rodata"; ".bss"].

(** *** [mutate]

    The result is the final process state, the heap copy [data] of the
    image as the function left it, and how the function ended. *)
Definition die (st : state) (data : list Z) (msg : string)
    : option (state * list Z * outcome) :=
  Some (st, data, Exited EXIT_FAILURE ("ERROR: " +:+ msg)).

Definition mutate (e : env) (st : state) (data : list Z) (filesize : Z)
    : option (state * list Z * outcome) :=
  sec ← get_section data CUSTOM_SECTION;
  match sec with
  | None => die st data ("Could not find polymorphic section" +:+ nl)
  | Some section =>
      off ← sh_offset data section;
      size ← sh_size data section;
      let runtime_addr := executable_start e + off in
      let page_start := Z.land runtime_addr (- pagesize e) in
      let page_size := to_int (runtime_addr + size - page_start) in
      if negb (mprotect_ok e page_start page_size
                 (Z.lor PROT_READ (Z.lor PROT_WRITE PROT_EXEC)))
      then die st data ("Could not make memory writable" +:+ nl)
      else
        (* decrypt both runtime and file copies *)
        rt ← xor_crypt st (runtime st) off (to_int size);
        let st := set_runtime st rt in
        data ← xor_crypt st data off (to_int size);
        if negb (mprotect_ok e page_start page_size
                   (Z.lor PROT_READ PROT_EXEC))
        then die st data ("Could not restore memory protection" +:+ nl)
        else
          (* new .poly key, re-encrypt the file copy *)
          let st := set_rand_calls
                      (set_key st (draw_key e (rand_calls st)))
                      (rand_calls st + 8) in
          size ← sh_size data section;
          data ← xor_crypt st data off (to_int size);
          (* new file key *)
          let st := set_rand_calls
                      (set_file_key st (draw_key e (rand_calls st)))
                      (rand_calls st + 8) in
          data ← encrypt_file_sections st data;
          (* write the image back *)
          if negb (unlink_ok e)
          then die st data ("Could not remove old file" +:+ nl)
          else
            let st := set_disk st None in
            if negb (open_ok e)
            then die st data ("Could not create new file" +:+ nl)
            else
              let st := set_disk st (Some []) in
              if negb (write_ok e)
              then die st data ("Could not write file" +:+ nl)
              else
                Some (set_disk st (Some (take (Z.to_nat filesize) data)),
                      data, Returned)
  end.

(** *** Layout conditions used in the statements

    [aux_section_safe data name]: the lookup of [name] stays inside the
    buffer and, when the section is found with a non-zero size, the bytes
    [sh_offset .. sh_offset + (int)sh_size - 1] lie inside the buffer and do
    not overlap the [sh_size] field of the section's own header. *)
Definition aux_section_safe (data : list Z) (name : string) : Prop :=
  match get_section data name with
  | None => False
  | Some None => True
  | Some (Some p) =>
      match sh_size data p, sh_offset data p with
      | Some size, Some off =>
          0 < size → 0 < to_int size →
          0 ≤ off ∧ off + to_int size ≤ Z.of_nat (length data) ∧
          (off + to_int size ≤ p + 32 ∨ p + 40 ≤ off)
      | _, _ => False
      end
  end.

(** [runtime_section_mapped e rt file_data name]: the lookup of [name]
    stays inside [file_data] and, when the constructor decides to decrypt
    the section, its address range lies inside the loaded image [rt]. *)
Definition runtime_section_mapped (e : env) (rt : list Z)
    (file_data : list Z) (name : string) : Prop :=
  match get_section file_data name with
  | None => False
  | Some None => True
  | Some (Some p) =>
      match sh_size file_data p, sh_addr file_data p with
      | Some size, Some addr =>
          0 < size → addr ≠ 0 → 0 < to_int size →
          0 ≤ addr - executable_start e ∧
          addr - executable_start e + to_int size ≤ Z.of_nat (length rt)
      | _, _ => False
      end
  end.

Definition runtime_mapped (e : env) (rt : list Z) (exe : option (list Z))
    : Prop :=
  match exe with
  | None => True
  | Some file_data =>
      runtime_section_mapped e rt file_data ".data" ∧
      runtime_section_mapped e rt file_data ".rodata" ∧
      runtime_section_mapped e rt file_data ".bss"
  end.

End Elf.

(** ** The PE mutator, [polymorphic_demo_windows.c] *)

Module Pe.

Definition CUSTOM_SECTION : string := ".poly".
Definition EXIT_FAILURE : Z := 1.

Inductive outcome :=
| Returned
| Exited (code : Z) (msg : string).

(** *** Headers

    [<windows.h>] is a system header; signatures and field offsets are
    those of the PE/COFF format ([IMAGE_DOS_HEADER], [IMAGE_NT_HEADERS],
    [IMAGE_SECTION_HEADER], little-endian).  [IMAGE_FIRST_SECTION] is the
    address of [OptionalHeader] (offset 24 in the NT headers) plus
    [FileHeader.SizeOfOptionalHeader]. *)

Definition IMAGE_DOS_SIGNATURE : Z := 0x5A4D.
Definition IMAGE_NT_SIGNATURE : Z := 0x00004550.
Definition IMAGE_SIZEOF_SHORT_NAME : nat := 8.
Definition SECTION_HEADER_SIZE : Z := 40.

Definition e_magic (m : list Z) : option Z := rdle 2 m 0.
Definition e_lfanew (m : list Z) : option Z := to_int <$> rdle 4 m 60.
Definition Signature (m : list Z) (nt : Z) : option Z := rdle 4 m nt.
Definition NumberOfSections (m : list Z) (nt : Z) : option Z :=
  rdle 2 m (nt + 6).
Definition SizeOfOptionalHeader (m : list Z) (nt : Z) : option Z :=
  rdle 2 m (nt + 20).
Definition IMAGE_FIRST_SECTION (m : list Z) (nt : Z) : option Z :=
  so ← SizeOfOptionalHeader m nt; Some (nt + 24 + so).
Definition SizeOfRawData (m : list Z) (p : Z) : option Z := rdle 4 m (p + 16).
Definition PointerToRawData (m : list Z) (p : Z) : option Z :=
  rdle 4 m (p + 20).

(** [strncmp(m + a, s, n) == 0]; [s] is given without its terminator, so
    the character of an exhausted [s] is the terminating zero. *)
Fixpoint strneq_at (m : list Z) (a : Z) (s : list Z) (n : nat)
    : option bool :=
  match n with
  | O => Some true
  | S n' =>
      c ← rd8 m a;
      let x := hd 0 s in
      if decide (c = x) then
        if decide (x = 0) then Some true else strneq_at m (a + 1) (tl s) n'
      else Some false
  end.

Fixpoint find_section_loop (m : list Z) (sections : Z) (name : list Z)
    (i : Z) (n : nat) : option (option Z) :=
  match n with
  | O => Some None
  | S n' =>
      let p := sections + SECTION_HEADER_SIZE * i in
      eq ← strneq_at m p name IMAGE_SIZEOF_SHORT_NAME;
      if eq : bool then Some (Some p)
      else find_section_loop m sections name (i + 1) n'
  end.

(** [Some (Some p)]: header found at offset [p]; [Some None]: [NULL]. *)
Definition find_section (m : list Z) (name : string) : option (option Z) :=
  magic ← e_magic m;
  if decide (magic ≠ IMAGE_DOS_SIGNATURE) then Some None
  else
    nt ← e_lfanew m;
    sig ← Signature m nt;
    if decide (sig ≠ IMAGE_NT_SIGNATURE) then Some None
    else
      sections ← IMAGE_FIRST_SECTION m nt;
      num_sections ← NumberOfSections m nt;
      find_section_loop m sections (codes name) 0 (Z.to_nat num_sections).

(** *** Process state and environment *)

Record state := {
  key : list Z;        (* static unsigned char key[] (bytes 0..7) *)
  rand_calls : nat;    (* number of [rand()] calls made so far *)
  file : list Z        (* the executable file; the mapped view is a
                          read-write window on these bytes *)
}.

Record env := {
  rand : nat → Z;
  CreateFileA_ok : bool;
  GetFileSize_ok : bool;
  CreateFileMappingA_ok : bool;
  MapViewOfFile_ok : bool;
  FlushViewOfFile_ok : bool
}.

Definition set_key (st : state) (k : list Z) : state :=
  {| key := k; rand_calls := rand_calls st; file := file st |}.
Definition set_rand_calls (st : state) (n : nat) : state :=
  {| key := key st; rand_calls := n; file := file st |}.
Definition set_file (st : state) (f : list Z) : state :=
  {| key := key st; rand_calls := rand_calls st; file := f |}.

(** [void xor_crypt(unsigned char* data, int len)], on the global [key]. *)
Definition xor_crypt (st : state) (m : list Z) (data len : Z)
    : option (list Z) :=
  xor_bytes (key st) m data len.

(** [void xor_crypt_additional(data, len, additional_key)]. *)
Definition xor_crypt_additional (m : list Z) (data len : Z)
    (additional_key : list Z) : option (list Z) :=
  xor_bytes additional_key m data len.

Definition draw_key (e : env) (first : nat) : list Z :=
  map (λ i, to_uchar (Z.rem (rand e (first + i)%nat) 255)) (seq 0 8).

(** *** [encrypt_file_sections] *)
Fixpoint encrypt_loop (mapped_data : list Z) (file_key : list Z)
    (names : list string) : option (list Z) :=
  match names with
  | [] => Some mapped_data
  | name :: rest =>
      sec ← find_section mapped_data name;
      match sec with
      | None => encrypt_loop mapped_data file_key rest
      | Some section =>
          size ← SizeOfRawData mapped_data section;
          if decide (0 < size) then
            section_data ← PointerToRawData mapped_data section;
            size ← SizeOfRawData mapped_data section;
            mapped_data ← xor_crypt_additional mapped_data section_data
                            (to_int size) file_key;
            encrypt_loop mapped_data file_key rest
          else encrypt_loop mapped_data file_key rest
      end
  end.

Definition encrypt_file_sections (mapped_data : list Z) (file_key : list Z)
    : option (list Z) :=
  encrypt_loop mapped_data file_key [".rdata"].

(** *** [mutate_executable] *)
Definition die (st : state) (msg : string) : option (state * outcome) :=
  Some (st, Exited EXIT_FAILURE ("ERROR: " +:+ msg +:+ nl)).

Definition mutate_executable (e : env) (st : state)
    : option (state * outcome) :=
  if negb (CreateFileA_ok e) then die st "Could not open executable file"
  else if negb (GetFileSize_ok e) then die st "Could not get file size"
  else if negb (CreateFileMappingA_ok e)
  then die st "Could not create file mapping"
  else if negb (MapViewOfFile_ok e) then die st "Could not map view of file"
  else
    let mapped_data := file st in
    dsec ← find_section mapped_data ".data";
    match dsec with
    | None => die st "Could not find .data section"
    | Some data_section =>
        psec ← find_section mapped_data CUSTOM_SECTION;
        match psec with
        | None => die st "Could not find polymorphic section"
        | Some poly_section =>
            key_in_file ← PointerToRawData mapped_data data_section;
            (* copy current key from file to memory *)
            k ← rdbytes 8 mapped_data key_in_file;
            let st := set_key st k in
            section_data ← PointerToRawData mapped_data poly_section;
            (* decrypt with old key *)
            size ← SizeOfRawData mapped_data poly_section;
            mapped_data ← xor_crypt st mapped_data section_data (to_int size);
            (* new key, stored in the file's .data section *)
            let st := set_rand_calls
                        (set_key st (draw_key e (rand_calls st)))
                        (rand_calls st + 8) in
            mapped_data ← wrbytes (key st) mapped_data key_in_file;
            (* re-encrypt with new key *)
            size ← SizeOfRawData mapped_data poly_section;
            mapped_data ← xor_crypt st mapped_data section_data (to_int size);
            (* file key for the additional sections *)
            let file_key := draw_key e (rand_calls st) in
            let st := set_rand_calls st (rand_calls st + 8) in
            mapped_data ← encrypt_file_sections mapped_data file_key;
            Some (set_file st mapped_data, Returned)
        end
    end.

(** The plaintext of the [.poly] raw bytes of an image: the transform under
    the eight bytes at the start of the [.data] raw data, applied to the
    [.poly] raw bytes. *)
Definition raw_bytes (m : list Z) (off len : Z) : list Z :=
  take (Z.to_nat len) (drop (Z.to_nat off) m).

Definition poly_plaintext (m : list Z) : option (list Z) :=
  dsec ← find_section m ".data";
  data_section ← dsec;
  psec ← find_section m CUSTOM_SECTION;
  poly_section ← psec;
  key_off ← PointerToRawData m data_section;
  k ← rdbytes 8 m key_off;
  off ← PointerToRawData m poly_section;
  size ← SizeOfRawData m poly_section;
  m' ← xor_bytes k m off (to_int size);
  Some (raw_bytes m' off (to_int size)).

(** *** Layout conditions used in the statements

    The end of the section table: every byte that [find_section] and the
    header-field accessors read lies below it. *)
Definition section_table_end (m : list Z) : option Z :=
  nt ← e_lfanew m;
  sections ← IMAGE_FIRST_SECTION m nt;
  n ← NumberOfSections m nt;
  Some (sections + SECTION_HEADER_SIZE * n).

(** Number of bytes a [xor_crypt*] call with length argument
    [(int)size] covers. *)
Definition span (size : Z) : Z := Z.max 0 (to_int size).

(** [well_laid_out m]: the headers are valid, [.data] and [.poly] are
    found, and the regions the mutation writes -- the eight key bytes at
    the start of the [.data] raw data, the [.poly] raw data and, when
    [.rdata] is found with a non-zero raw size, the [.rdata] raw data --
    lie inside the file, after the section table, and do not overlap. *)
Definition well_laid_out (m : list Z) : Prop :=
  match section_table_end m, find_section m ".data",
        find_section m CUSTOM_SECTION, find_section m ".rdata" with
  | Some H, Some (Some dp), Some (Some pp), Some r =>
      match PointerToRawData m dp, PointerToRawData m pp,
            SizeOfRawData m pp with
      | Some koff, Some poff, Some psize =>
          64 ≤ H ∧
          H ≤ koff ∧ koff + 8 ≤ Z.of_nat (length m) ∧
          H ≤ poff ∧ poff + span psize ≤ Z.of_nat (length m) ∧
          (koff + 8 ≤ poff ∨ poff + span psize ≤ koff) ∧
          match r with
          | None => True
          | Some rp =>
              match PointerToRawData m rp, SizeOfRawData m rp with
              | Some roff, Some rsize =>
                  0 < rsize →
                  H ≤ roff ∧ roff + span rsize ≤ Z.of_nat (length m) ∧
                  (koff + 8 ≤ roff ∨ roff + span rsize ≤ koff) ∧
                  (poff + span psize ≤ roff ∨ roff + span rsize ≤ poff)
              | _, _ => False
              end
          end
      | _, _, _ => False
      end
  | _, _, _, _ => False
  end.

End Pe.

(** ** The backup classifier, [llm_backup_classifier.c] *)

Module Classifier.

Definition MAX_FILES : nat := 1000.
Definition MAX_FILENAME_LEN : nat := 256.
Definition BACKUP_DIR : string := "./sensitive_backups".

(** *** C strings

    A [char] array field is represented by the characters it holds before
    the terminator.  [strncpy(dst, src, n)] copies at most [n] characters
    and writes no terminator when [src] has [n] or more; the array it fills
    here is never initialised, so a copy of exactly [n] characters leaves a
    field that cannot be read as a string.  [snprintf(dst, n, ..)] always
    terminates, after at most [n - 1] characters. *)

Fixpoint strtake (n : nat) (s : string) : string :=
  match n, s with
  | S n', String c s' => String c (strtake n' s')
  | _, _ => EmptyString
  end.

Definition strncpy (src : string) (n : nat) : string := strtake n src.

Definition snprintf (n : nat) (text : string) : string :=
  strtake (Nat.pred n) text.

(** Reading, as a string, a field filled by [strncpy(.., .., n)]. *)
Definition c_str (n : nat) (field : string) : option string :=
  if decide (String.length field < n)%nat then Some field else None.

(** [tolower] in the "C" locale. *)
Definition tolower (c : Ascii.ascii) : Ascii.ascii :=
  let n := Ascii.nat_of_ascii c in
  if decide (65 ≤ n ≤ 90)%nat then Ascii.ascii_of_nat (n + 32) else c.

Fixpoint strmap (f : Ascii.ascii → Ascii.ascii) (s : string) : string :=
  match s with
  | EmptyString => EmptyString
  | String c s' => String (f c) (strmap f s')
  end.

(** [strstr(haystack, needle) != NULL]. *)
Fixpoint strstr (haystack needle : string) : bool :=
  if String.prefix needle haystack then true
  else match haystack with
       | EmptyString => false
       | String _ rest => strstr rest needle
       end.

(** *** Records *)

Record FileInfo := {
  filename : string;      (* char filename[MAX_FILENAME_LEN]     *)
  filepath : string;      (* char filepath[MAX_FILENAME_LEN * 2] *)
  is_sensitive : Z;       (* int *)
  reason : string         (* char reason[512] *)
}.

(** *** The file system and the clock, as the program observes them *)

Inductive node :=
| Regular (content : list Z)
| Directory (mode : Z)
| Symlink (target : string)
| Special.

Record tm := {
  tm_year : Z; tm_mon : Z; tm_mday : Z;
  tm_hour : Z; tm_min : Z; tm_sec : Z
}.

Record world := {
  fs : gmap string node;              (* what lies at each path *)
  listing : gmap string (list string);(* names [readdir] returns, in order,
                                         for each path [opendir] can open *)
  readable : string → bool;           (* fopen(path, "rb") is permitted *)
  creatable : string → bool;          (* fopen(path, "wb") is permitted *)
  mkdir_ok : string → bool;
  localtime : nat → tm;               (* local time at the n-th time() call *)
  time_calls : nat
}.

Definition set_fs (w : world) (f : gmap string node) : world :=
  {| fs := f; listing := listing w; readable := readable w;
     creatable := creatable w; mkdir_ok := mkdir_ok w;
     localtime := localtime w; time_calls := time_calls w |}.

Definition tick (w : world) : world :=
  {| fs := fs w; listing := listing w; readable := readable w;
     creatable := creatable w; mkdir_ok := mkdir_ok w;
     localtime := localtime w; time_calls := S (time_calls w) |}.

(** Path resolution follows symbolic links, up to the kernel's limit. *)
Fixpoint resolve (fuel : nat) (f : gmap string node) (path : string)
    : option string :=
  match f !! path with
  | Some (Symlink target) =>
      match fuel with
      | O => None
      | S fuel' => resolve fuel' f target
      end
  | _ => Some path
  end.

Definition MAXSYMLINKS : nat := 40.

(** [stat(path, &st)]: [None] is the result [-1]. *)
Definition stat (w : world) (path : string) : option node :=
  p ← resolve MAXSYMLINKS (fs w) path; fs w !! p.

Definition S_ISREG (n : node) : bool :=
  match n with Regular _ => true | _ => false end.

(** What the program prints: one event per [printf] or [perror], with the
    values it prints. *)
Inductive event :=
| Perror (msg : string)
| Banner
| Scanning (dir : string)
| Found (n : Z)
| NoFiles
| Analyzing
| NoSensitive
| Identified (n : Z)
| CreatedBackupDir
| SensitiveFile (name why : string)
| SourceOpenFailed
| BackupCreateFailed
| BackedUp (path : string)
| Completed (n : Z).

(** *** [scan_directory] *)

Definition new_record (d_name full_path : string) : FileInfo :=
  {| filename := strncpy d_name (MAX_FILENAME_LEN - 1);
     filepath := strncpy full_path (MAX_FILENAME_LEN * 2 - 1);
     is_sensitive := 0;
     reason := EmptyString |}.

Definition full_path_of (dir_path d_name : string) : string :=
  snprintf (MAX_FILENAME_LEN * 2) (dir_path +:+ "/" +:+ d_name).

(** The [while] loop; [files] holds the [*file_count] records filled so
    far. *)
Fixpoint scan_loop (w : world) (dir_path : string) (entries : list string)
    (files : list FileInfo) : list FileInfo :=
  match entries with
  | [] => files
  | d_name :: rest =>
      if decide (length files < MAX_FILES)%nat then
        if decide (d_name = "." ∨ d_name = "..")
        then scan_loop w dir_path rest files
        else
          let full_path := full_path_of dir_path d_name in
          match stat w full_path with
          | None => scan_loop w dir_path rest files
          | Some st =>
              if S_ISREG st
              then scan_loop w dir_path rest
                     (files ++ [new_record d_name full_path])
              else scan_loop w dir_path rest files
          end
      else files
  end.

Definition scan_directory (w : world) (dir_path : string)
    (files : list FileInfo) : list FileInfo * list event :=
  match listing w !! dir_path with
  | None => (files, [Perror "Could not open directory"])
  | Some entries => (scan_loop w dir_path entries files, [])
  end.

(** *** [classify_files_with_llm] *)

Definition sensitive_keywords : list string :=
  ["tax"; "bank"; "passport"; "ssn"; "confidential";
   "private"; "secret"; "password"; "key"; "invoice";
   "contract"; "nda"; "medical"; "legal"; "financial"].

(** The inner [for] loop: the first keyword found in the name. *)
Fixpoint match_keyword (lowercase_name : string) (keywords : list string)
    : option string :=
  match keywords with
  | [] => None
  | k :: rest =>
      if strstr lowercase_name k then Some k
      else match_keyword lowercase_name rest
  end.

(** The body of the outer loop for one record; [None] when the lower-case
    copy has no terminator. *)
Definition classify_file (f : FileInfo) : option (FileInfo * bool) :=
  let lowercase_name := strncpy (filename f) (MAX_FILENAME_LEN - 1) in
  lowercase_name ← c_str (MAX_FILENAME_LEN - 1) lowercase_name;
  let lowercase_name := strmap tolower lowercase_name in
  match match_keyword lowercase_name sensitive_keywords with
  | Some k =>
      Some ({| filename := filename f; filepath := filepath f;
               is_sensitive := 1;
               reason := snprintf 512 ("Contains keyword: " +:+ k) |}, true)
  | None => Some (f, false)
  end.

Fixpoint classify_loop (files : list FileInfo) (sensitive_count : Z)
    : option (list FileInfo * Z) :=
  match files with
  | [] => Some ([], sensitive_count)
  | f :: rest =>
      '(f', hit) ← classify_file f;
      '(rest', n) ← classify_loop rest
                      (if hit : bool then sensitive_count + 1
                       else sensitive_count);
      Some (f' :: rest', n)
  end.

Definition classify_files_with_llm (files : list FileInfo)
    : option (list FileInfo * Z) :=
  classify_loop files 0.

(** *** [create_backup_directory] *)

Definition create_backup_directory (w : world) : world * list event :=
  match stat w BACKUP_DIR with
  | None =>
      (if mkdir_ok w BACKUP_DIR
       then set_fs w (<[BACKUP_DIR := Directory 448]> (fs w)) else w,
       [CreatedBackupDir])
  | Some _ => (w, [])
  end.

(** *** [create_backup] *)

Definition digit (d : Z) : Ascii.ascii :=
  Ascii.ascii_of_nat (48 + Z.to_nat d).

(** The digits of [v >= 0], most significant first, at least [width] of
    them. *)
Fixpoint dec_digits (fuel width : nat) (v : Z) (acc : string) : string :=
  match fuel with
  | O => acc
  | S fuel' =>
      let acc' := String (digit (v mod 10)) acc in
      if decide (v / 10 = 0 ∧ (width ≤ 1)%nat) then acc'
      else dec_digits fuel' (Nat.pred width) (v / 10) acc'
  end.

(** The conversion [%0<width>d] of an [int]. *)
Definition fmt_0d (width : nat) (v : Z) : string :=
  if decide (v < 0) then "-" +:+ dec_digits 10 (Nat.pred width) (- v) EmptyString
  else dec_digits 10 width v EmptyString.

Definition backup_path_of (t : tm) (name : string) : string :=
  snprintf (MAX_FILENAME_LEN * 3)
    (BACKUP_DIR +:+ "/"
     +:+ fmt_0d 4 (tm_year t + 1900) +:+ fmt_0d 2 (tm_mon t + 1)
     +:+ fmt_0d 2 (tm_mday t) +:+ "_"
     +:+ fmt_0d 2 (tm_hour t) +:+ fmt_0d 2 (tm_min t)
     +:+ fmt_0d 2 (tm_sec t) +:+ "_" +:+ name).

(** [fopen(path, "rb")]: the file the path resolves to. *)
Definition fopen_rb (w : world) (path : string) : option string :=
  p ← resolve MAXSYMLINKS (fs w) path;
  if readable w p then Some p else None.

(** [fopen(path, "wb")]: the file is created, or truncated. *)
Definition fopen_wb (w : world) (path : string) : option (string * world) :=
  p ← resolve MAXSYMLINKS (fs w) path;
  if creatable w p then Some (p, set_fs w (<[p := Regular []]> (fs w)))
  else None.

(** Bytes of the open file [p] from position [pos] on. *)
Definition file_bytes (w : world) (p : string) (pos : nat) : list Z :=
  match fs w !! p with
  | Some (Regular content) => drop pos content
  | _ => []
  end.

Definition fwrite (w : world) (p : string) (bytes : list Z) : world :=
  match fs w !! p with
  | Some (Regular content) =>
      set_fs w (<[p := Regular (content ++ bytes)]> (fs w))
  | _ => w
  end.

Definition BUFFER_SIZE : nat := 8 * 1024.

(** [while ((bytes = fread(buffer, 1, sizeof(buffer), src)) > 0)
      fwrite(buffer, 1, bytes, dst);] *)
Fixpoint copy_loop (fuel : nat) (w : world) (src dst : string) (pos : nat)
    : world :=
  match fuel with
  | O => w
  | S fuel' =>
      let buffer := take BUFFER_SIZE (file_bytes w src pos) in
      if decide (0 < length buffer)%nat
      then copy_loop fuel' (fwrite w dst buffer) src dst (pos + length buffer)
      else w
  end.

Definition create_backup (w : world) (file : FileInfo)
    : option (world * list event) :=
  let t := localtime w (time_calls w) in
  let w := tick w in
  name ← c_str (MAX_FILENAME_LEN - 1) (filename file);
  let backup_path := backup_path_of t name in
  path ← c_str (MAX_FILENAME_LEN * 2 - 1) (filepath file);
  match fopen_rb w path with
  | None => Some (w, [SourceOpenFailed])
  | Some src =>
      match fopen_wb w backup_path with
      | None => Some (w, [BackupCreateFailed])
      | Some (dst, w) =>
          let w := copy_loop (S (length (file_bytes w src 0))) w src dst 0 in
          Some (w, [BackedUp backup_path])
      end
  end.

(** *** [main] *)

Fixpoint backup_loop (w : world) (files : list FileInfo) (backed_up : Z)
    : option (world * Z * list event) :=
  match files with
  | [] => Some (w, backed_up, [])
  | f :: rest =>
      if decide (is_sensitive f ≠ 0) then
        name ← c_str (MAX_FILENAME_LEN - 1) (filename f);
        '(w1, evs) ← create_backup w f;
        '(w2, n, evs') ← backup_loop w1 rest (backed_up + 1);
        Some (w2, n, SensitiveFile name (reason f) :: evs ++ evs')
      else backup_loop w rest backed_up
  end.

(** [(argc > 1) ? argv[1] : "."] *)
Definition scan_dir_of (argv : list string) : string :=
  match argv with _ :: d :: _ => d | _ => "." end.

(** The result is the exit status, the final world and the output. *)
Definition main (argv : list string) (w : world)
    : option (Z * world * list event) :=
  let scan_dir := scan_dir_of argv in
  let '(files, errs) := scan_directory w scan_dir [] in
  let file_count := Z.of_nat (length files) in
  let out := [Banner; Scanning scan_dir] ++ errs ++ [Found file_count] in
  if decide (file_count = 0) then Some (0, w, out ++ [NoFiles])
  else
    '(files, sensitive_count) ← classify_files_with_llm files;
    let out := out ++ [Analyzing] in
    if decide (sensitive_count = 0) then Some (0, w, out ++ [NoSensitive])
    else
      let '(w, evs) := create_backup_directory w in
      let out := out ++ [Identified sensitive_count] ++ evs in
      '(w, backed_up, evs) ← backup_loop w files 0;
      Some (0, w, out ++ evs ++ [Completed backed_up]).

(** *** Notions used in the statements *)

(** [k] occurs in [s] as a contiguous substring. *)
Definition occurs_in (k s : string) : Prop :=
  ∃ pre post, s = pre +:+ k +:+ post.

(** The keyword the rule settles on for a file name, if any. *)
Definition first_keyword (name : string) : option string :=
  match_keyword (strmap tolower name) sensitive_keywords.

(** The name leaves room for the terminator in a [MAX_FILENAME_LEN]
    array filled by [strncpy(.., .., MAX_FILENAME_LEN - 1)]. *)
Definition short_name (f : FileInfo) : Prop :=
  (String.length (filename f) < MAX_FILENAME_LEN - 1)%nat.

(** Both string fields of the record can be read back as strings. *)
Definition readable_record (f : FileInfo) : Prop :=
  short_name f ∧
  (String.length (filepath f) < MAX_FILENAME_LEN * 2 - 1)%nat.

(** What classification makes of one record. *)
Definition classified (f : FileInfo) : FileInfo :=
  match first_keyword (filename f) with
  | Some k =>
      {| filename := filename f; filepath := filepath f; is_sensitive := 1;
         reason := "Contains keyword: " +:+ k |}
  | None => f
  end.





(** The entry [d_name] of [dir_path] is one [scan_directory] keeps: not a
    pseudo-entry, and [stat] on its path reports a regular file. *)
Definition kept (w : world) (dir_path d_name : string) : bool :=
  bool_decide (d_name ≠ "." ∧ d_name ≠ "..") &&
  match stat w (dir_path +:+ "/" +:+ d_name) with
  | Some st => S_ISREG st
  | None => false
  end.

(** The entry itself is a regular file (what [lstat] would report). *)
Definition regular_entry (w : world) (dir_path d_name : string) : bool :=
  match fs w !! (dir_path +:+ "/" +:+ d_name) with
  | Some (Regular _) => true
  | _ => false
  end.

(** The entry's name fits [struct dirent] and its path fits [full_path]
    and [filepath]. *)
Definition fits (dir_path d_name : string) : Prop :=
  (String.length d_name ≤ MAX_FILENAME_LEN - 1 ∧
   String.length dir_path + 1 + String.length d_name
   ≤ MAX_FILENAME_LEN * 2 - 1)%nat.

Definition scanned (dir_path d_name : string) : FileInfo :=
  {| filename := d_name; filepath := dir_path +:+ "/" +:+ d_name;
     is_sensitive := 0; reason := EmptyString |}.

End Classifier.

(** ** Concrete images and states used to exercise the models *)

Module Examples.

(** [n] little-endian bytes of [v]. *)
Fixpoint le (n : nat) (v : Z) : list Z :=
  match n with
  | O => []
  | S n' => v mod 256 :: le n' (v / 256)
  end.

Definition zeros (n : nat) : list Z := replicate n 0.

(** An [Elf64_Shdr] with the given name index, address, offset and size. *)
Definition shdr (name addr off size : Z) : list Z :=
  le 4 name ++ zeros 12 ++ le 8 addr ++ le 8 off ++ le 8 size ++ zeros 24.

(** An [Elf64_Ehdr] whose section-header table of [shnum] entries starts
    right after it and whose string table is section [strndx]. *)
Definition ehdr (shnum strndx : Z) : list Z :=
  zeros 40 ++ le 8 64 ++ zeros 12 ++ le 2 shnum ++ le 2 strndx.

(** A well laid out image: three section headers at 64, the string table
    at 256, [.data] (4 bytes at 288) and [.bss] (4 bytes at 292); the
    program is loaded at 4096, so the sections are mapped at 4384 and 4388. *)
Definition elf_strtab : list Z :=
  0 :: codes ".data" ++ 0 :: codes ".shstrtab" ++ 0 :: codes ".bss" ++ [0].

Definition elf_plain : list Z :=
  ehdr 3 1
  ++ shdr 1 4384 288 4 ++ shdr 7 0 256 22 ++ shdr 17 4388 292 4
  ++ elf_strtab ++ zeros 10
  ++ [10; 20; 30; 40; 50; 60; 70; 80].

(** An image with a [.poly] section: four headers at 64, the string
    table at 320, [.poly] (16 bytes at 352), [.data] (8 bytes at 368) and
    [.bss] (4 bytes at 376). *)
Definition elf_poly : list Z :=
  ehdr 4 1
  ++ shdr 1 4464 368 8 ++ shdr 7 0 320 28 ++ shdr 17 4472 376 4
  ++ shdr 22 4448 352 16
  ++ elf_strtab ++ codes ".poly" ++ [0] ++ zeros 4
  ++ [85; 72; 137; 229; 72; 131; 236; 16; 191; 0; 0; 0; 0; 201; 195; 144]
  ++ [10; 20; 30; 40; 50; 60; 70; 80]
  ++ [71; 67; 67; 58; 32; 49; 51; 46].

(** An image laid out the way linkers do, with the section-header table
    at the end of the file: [.data] (8 bytes at 64), the string table at
    72, the three headers at 96, 160 and 224.  [.bss] occupies no file
    space; its header gives the offset that follows [.data] (72) and a
    size of 200 bytes, so the range [72, 272) runs over the header table,
    the [sh_size] field of the [.bss] header (bytes 256..263) included. *)
Definition elf_bss : list Z :=
  zeros 40 ++ le 8 96 ++ zeros 12 ++ le 2 3 ++ le 2 1
  ++ [10; 20; 30; 40; 50; 60; 70; 80]
  ++ elf_strtab ++ zeros 2
  ++ shdr 1 4160 64 8 ++ shdr 7 0 72 22 ++ shdr 17 4168 72 200.

Definition key9 : list Z := [9; 1; 1; 1; 1; 1; 1; 1].

Definition elf_state (k fk : list Z) (rt : list Z) (d : option (list Z))
    : Elf.state :=
  {| Elf.key := k; Elf.file_key := fk; Elf.runtime := rt;
     Elf.rand_calls := 0; Elf.disk := d |}.

Definition elf_env : Elf.env :=
  {| Elf.executable_start := 4096; Elf.pagesize := 4096;
     Elf.rand := λ n, Z.of_nat (37 * n + 11);
     Elf.mprotect_ok := λ _ _ _, true;
     Elf.unlink_ok := true; Elf.open_ok := true; Elf.write_ok := true |}.

(** A PE image: DOS header, NT headers without optional header, section
    table at 88, raw data after it. *)
Definition pe_dos : list Z := [77; 90] ++ zeros 58 ++ le 4 64.

Definition pe_nt (nsections : Z) : list Z :=
  le 4 17744 ++ le 2 34404 ++ le 2 nsections ++ zeros 12 ++ le 2 0 ++ le 2 0.

Definition pe_shdr (name : string) (rawsize rawptr : Z) : list Z :=
  take 8 (codes name ++ zeros 8) ++ zeros 8 ++ le 4 rawsize ++ le 4 rawptr
  ++ zeros 16.

(** [.data] (16 raw bytes at 208, the first eight being the persisted key),
    [.poly] (12 raw bytes at 224) and [.rdata] (8 raw bytes at 236). *)
Definition pe_image : list Z :=
  pe_dos ++ pe_nt 3
  ++ pe_shdr ".data" 16 208 ++ pe_shdr ".poly" 12 224
  ++ pe_shdr ".rdata" 8 236
  ++ [5; 0; 254; 1; 77; 200; 9; 31; 1; 2; 3; 4; 5; 6; 7; 8]
  ++ [144; 144; 85; 72; 137; 229; 0; 255; 195; 204; 1; 128]
  ++ [104; 101; 108; 108; 111; 0; 0; 0].

(** Images with the raw data of [pe_image] and [.data] at 208, whose
    headers place [.poly] (12 raw bytes) and [.rdata] elsewhere. *)
Definition pe_raw : list Z :=
  [5; 0; 254; 1; 77; 200; 9; 31; 1; 2; 3; 4; 5; 6; 7; 8]
  ++ [144; 144; 85; 72; 137; 229; 0; 255; 195; 204; 1; 128]
  ++ [104; 101; 108; 108; 111; 0; 0; 0].

Definition pe_layout (poly_ptr rdata_size rdata_ptr : Z) : list Z :=
  pe_dos ++ pe_nt 3
  ++ pe_shdr ".data" 16 208 ++ pe_shdr ".poly" 12 poly_ptr
  ++ pe_shdr ".rdata" rdata_size rdata_ptr
  ++ pe_raw.

(** The 8 raw bytes of [.rdata] are the persisted key bytes, 208..215. *)
Definition pe_rdata_on_key : list Z := pe_layout 224 8 208.

(** The raw data of [.poly], 208..219, starts with the persisted key
    bytes. *)
Definition pe_poly_on_key : list Z := pe_layout 208 8 236.

(** The 8 raw bytes of [.rdata] are the first bytes of [.poly],
    224..231. *)
Definition pe_rdata_on_poly : list Z := pe_layout 224 8 224.

(** [.rdata] has one raw byte, at 148 in the section table: the low byte
    of the [PointerToRawData] field of the [.poly] header (the header is
    at 128).  Eight more bytes follow the raw data of [pe_image]. *)
Definition pe_rdata_on_table : list Z := pe_layout 224 1 148 ++ zeros 8.

(** The same headers with the [.poly] section renamed. *)
Definition pe_nopoly : list Z :=
  pe_dos ++ pe_nt 2
  ++ pe_shdr ".data" 16 168 ++ pe_shdr ".text" 4 184
  ++ [1; 1; 1; 1; 1; 1; 1; 1; 0; 0; 0; 0; 0; 0; 0; 0]
  ++ [144; 144; 144; 195].

Definition pe_state (k : list Z) (f : list Z) : Pe.state :=
  {| Pe.key := k; Pe.rand_calls := 0; Pe.file := f |}.

Definition pe_env : Pe.env :=
  {| Pe.rand := λ n, Z.of_nat (97 * n + 5);
     Pe.CreateFileA_ok := true; Pe.GetFileSize_ok := true;
     Pe.CreateFileMappingA_ok := true; Pe.MapViewOfFile_ok := true;
     Pe.FlushViewOfFile_ok := true |}.

Definition key3 : list Z := [3; 3; 3; 3; 3; 3; 3; 3].
Definition key_mixed : list Z := [0; 17; 254; 1; 200; 3; 99; 128].

(** A directory [docs] holding two regular files, a sub-directory and a
    symbolic link to a regular file kept elsewhere. *)
Definition docs_fs : gmap string Classifier.node :=
  list_to_map
    [("docs/Tax_2023.pdf", Classifier.Regular [37; 80; 68; 70]);
     ("docs/vacation_photo.jpg", Classifier.Regular [255; 216; 255]);
     ("docs/old", Classifier.Directory 493);
     ("docs/ledger", Classifier.Symlink "/srv/bank/ledger.csv");
     ("/srv/bank/ledger.csv", Classifier.Regular [49; 44; 50])].

Definition noon : Classifier.tm :=
  {| Classifier.tm_year := 126; Classifier.tm_mon := 9;
     Classifier.tm_mday := 30; Classifier.tm_hour := 12;
     Classifier.tm_min := 5; Classifier.tm_sec := 9 |}.

Definition docs_world : Classifier.world :=
  {| Classifier.fs := docs_fs;
     Classifier.listing :=
       {[ "docs" := ["."; ".."; "Tax_2023.pdf"; "old"; "vacation_photo.jpg";
                     "ledger"] ]};
     Classifier.readable := λ _, true;
     Classifier.creatable := λ _, true;
     Classifier.mkdir_ok := λ _, true;
     Classifier.localtime := λ _, noon;
     Classifier.time_calls := 0 |}.

(** A directory whose only entry is a symbolic link to a regular file. *)
Definition link_world : Classifier.world :=
  {| Classifier.fs :=
       list_to_map
         [("inbox/passport.pdf", Classifier.Symlink "/home/u/scan0001.pdf");
          ("/home/u/scan0001.pdf", Classifier.Regular [37; 80; 68; 70])];
     Classifier.listing := {[ "inbox" := ["."; ".."; "passport.pdf"] ]};
     Classifier.readable := λ _, true;
     Classifier.creatable := λ _, true;
     Classifier.mkdir_ok := λ _, true;
     Classifier.localtime := λ _, noon;
     Classifier.time_calls := 0 |}.


(** The same directory on a system that refuses to create any file. *)
Definition locked_world : Classifier.world :=
  {| Classifier.fs := docs_fs;
     Classifier.listing := Classifier.listing docs_world;
     Classifier.readable := λ _, true;
     Classifier.creatable := λ _, false;
     Classifier.mkdir_ok := λ _, false;
     Classifier.localtime := λ _, noon;
     Classifier.time_calls := 0 |}.

Definition record (name path : string) : Classifier.FileInfo :=
  {| Classifier.filename := name; Classifier.filepath := path;
     Classifier.is_sensitive := 0; Classifier.reason := EmptyString |}.

End Examples.

(** ** The ELF program: [main], and notions about section tables *)

Module ElfMore.

Import Elf.

(** *** [main]

    [open_ro_ok] is the result of [open(argv[0], O_RDONLY, 0)] on a file
    that exists, [malloc_ok] that of [malloc(info.st_size)].  [read] is
    taken to fill the whole buffer with the content of the file (its
    result is not looked at by the code).  [demonstrate_polymorphism]
    prints and changes nothing the state keeps.  [filesize] is the [int]
    that [info.st_size] is converted to at the call of [mutate].

    The result is the final process state, the exit status and the text
    written to the error stream. *)
Record main_env := {
  base : Elf.env;
  open_ro_ok : bool;
  malloc_ok : bool
}.

(** How [main] ends, given how the last call it made ended: [die] has
    called [exit], or [main] runs on to its [return 0]. *)
Definition finish (r : state * list Z * outcome) : state * Z * string :=
  match r with
  | (st, _, Exited code msg) => (st, code, msg)
  | (st, _, Returned) => (st, 0, EmptyString)
  end.

Definition main (e : main_env) (st : state) : option (state * Z * string) :=
  finish <$>
    match (if open_ro_ok e then disk st else None) with
    | None => die st [] ("Could not read executable file" +:+ nl)
    | Some content =>
        if negb (malloc_ok e)
        then die st [] ("Could not allocate memory" +:+ nl)
        else
          let exe_data := content in
          mutate (base e) st exe_data (to_int (Z.of_nat (length content)))
    end.

(** *** Section tables *)

(** Header [i] of the table at [shoff] has the name [name], read in the
    string table at [strtab]: the test of the loop of [get_section]. *)
Definition header_named (m : list Z) (shoff strtab : Z) (name : string)
    (i : Z) : option bool :=
  nm ← sh_name m (shoff + SHDR_SIZE * i);
  streq_at m (strtab + nm) (codes name).




End ElfMore.

(** ** The PE program: [main], repeated runs, and notions about section
    tables *)

Module PeMore.

Import Pe.

(** *** [main]

    [GetModuleFileNameA_ok]: the call returned a non-zero length.
    [demonstrate_polymorphism] prints and changes nothing the state
    keeps.  The result is the final process state, the exit status and the
    first line written to the error stream. *)
Record main_env := {
  base : Pe.env;
  GetModuleFileNameA_ok : bool
}.

Definition finish (r : state * outcome) : state * Z * string :=
  match r with
  | (st, Exited code msg) => (st, code, msg)
  | (st, Returned) => (st, 0, EmptyString)
  end.

Definition main (e : main_env) (st : state) : option (state * Z * string) :=
  finish <$>
    (if negb (GetModuleFileNameA_ok e)
     then die st "Could not get executable path"
     else mutate_executable (base e) st).


(** *** Section tables *)

(** The bytes [strncmp(.., name, 8) == 0] asks for: the first eight
    characters of [name] followed by its terminator. *)
Definition name_field (name : list Z) : list Z := take 8 (name ++ [0]).

(** Header [i] of the table at [sections] has the name [name]: the test
    of the loop of [find_section]. *)
Definition header_named (m : list Z) (sections : Z) (name : string)
    (i : Z) : option bool :=
  strneq_at m (sections + SECTION_HEADER_SIZE * i) (codes name)
    IMAGE_SIZEOF_SHORT_NAME.

(** The three regions of the file that a run writes, as the headers give
    them: the offset of the eight key bytes, and offset and length of the
    [.poly] and [.rdata] raw data ([.rdata] counts for nothing when the
    section is missing or has a zero size). *)
Definition key_offset (m : list Z) : option Z :=
  dsec ← find_section m ".data";
  data_section ← dsec;
  PointerToRawData m data_section.

Definition poly_range (m : list Z) : option (Z * Z) :=
  psec ← find_section m CUSTOM_SECTION;
  poly_section ← psec;
  off ← PointerToRawData m poly_section;
  size ← SizeOfRawData m poly_section;
  Some (off, span size).

Definition rdata_range (m : list Z) : option (Z * Z) :=
  rsec ← find_section m ".rdata";
  match rsec with
  | None => Some (0, 0)
  | Some section =>
      size ← SizeOfRawData m section;
      if decide (0 < size) then
        off ← PointerToRawData m section;
        Some (off, span size)
      else Some (0, 0)
  end.

(** Every system call of a run succeeds. *)
Definition calls_succeed (e : main_env) : Prop :=
  GetModuleFileNameA_ok e = true ∧ CreateFileA_ok (base e) = true ∧
  GetFileSize_ok (base e) = true ∧ CreateFileMappingA_ok (base e) = true ∧
  MapViewOfFile_ok (base e) = true.

(** The [.rdata] raw data, when the section is found with a non-zero
    size, lies in the file after the section table. *)
Definition rdata_in_file (m : list Z) : Prop :=
  match section_table_end m, find_section m ".rdata" with
  | Some H, Some None => 64 ≤ H
  | Some H, Some (Some rp) =>
      match PointerToRawData m rp, SizeOfRawData m rp with
      | Some roff, Some rsize =>
          64 ≤ H ∧
          (0 < rsize →
           H ≤ roff ∧ roff + span rsize ≤ Z.of_nat (length m))
      | _, _ => False
      end
  | _, _ => False
  end.

End PeMore.

(** ** More concrete environments *)

Module MoreExamples.

(** A system on which the executable can be removed but not created
    again. *)
Definition elf_env_no_create : Elf.env :=
  {| Elf.executable_start := 4096; Elf.pagesize := 4096;
     Elf.rand := λ n, Z.of_nat (37 * n + 11);
     Elf.mprotect_ok := λ _ _ _, true;
     Elf.unlink_ok := true; Elf.open_ok := false; Elf.write_ok := true |}.


Definition pe_main_env (e : Pe.env) : PeMore.main_env :=
  {| PeMore.base := e; PeMore.GetModuleFileNameA_ok := true |}.


(** A system on which the file cannot be mapped. *)
Definition pe_env_no_map : Pe.env :=
  {| Pe.rand := λ n, Z.of_nat (97 * n + 5);
     Pe.CreateFileA_ok := true; Pe.GetFileSize_ok := true;
     Pe.CreateFileMappingA_ok := true; Pe.MapViewOfFile_ok := false;
     Pe.FlushViewOfFile_ok := true |}.

(** The image [pe_image] with the first byte of the DOS signature
    changed. *)
Definition pe_bad_magic : list Z := <[0%nat := 78]> Examples.pe_image.

End MoreExamples.

(** ** The classifier: notions about its output *)

Module ClassifierMore.

Import Classifier.

(** What the loop of [scan_directory] appends for an entry [d] it keeps:
    the name cut to 255 characters, the path cut to 511, no flag, no
    reason; and [stat] on that path reported a regular file. *)
Definition scan_added (w : world) (dir_path : string)
    (entries : list string) (f : FileInfo) : Prop :=
  ∃ d content,
    d ∈ entries ∧ d ≠ "." ∧ d ≠ ".." ∧
    filename f = strtake 255 d ∧
    filepath f = strtake 511 (dir_path +:+ "/" +:+ d) ∧
    is_sensitive f = 0 ∧ reason f = EmptyString ∧
    stat w (filepath f) = Some (Regular content).

(** The lines [create_backup] prints: one per call. *)
Definition is_attempt (ev : event) : bool :=
  match ev with
  | SourceOpenFailed | BackupCreateFailed | BackedUp _ => true
  | _ => false
  end.

Definition is_success (ev : event) : bool :=
  match ev with BackedUp _ => true | _ => false end.

(** Number of calls of [create_backup], and number of those that wrote a
    backup, in an output. *)
Definition attempts (out : list event) : nat :=
  length (filter (λ ev, is_attempt ev = true) out).

Definition successes (out : list event) : nat :=
  length (filter (λ ev, is_success ev = true) out).

(** The path lies in the backup directory. *)
Definition in_backup_dir (p : string) : bool :=
  String.prefix (BACKUP_DIR +:+ "/") p.

(** No symbolic link lies in the backup directory. *)
Definition no_link_in_backup_dir (f : gmap string node) : Prop :=
  ∀ p target, f !! p = Some (Symlink target) → in_backup_dir p = false.

End ClassifierMore.

Module MoreExamples2.

(** A world in which the backup directory exists and the source file of
    the backup cannot be read. *)
Definition unreadable_world : Classifier.world :=
  {| Classifier.fs :=
       <["./sensitive_backups" := Classifier.Directory 448]> Examples.docs_fs;
     Classifier.listing := Classifier.listing Examples.docs_world;
     Classifier.readable := λ _, false;
     Classifier.creatable := λ _, true;
     Classifier.mkdir_ok := λ _, true;
     Classifier.localtime := λ _, Examples.noon;
     Classifier.time_calls := 0 |}.

(** A directory with nothing to flag. *)
Definition plain_world : Classifier.world :=
  {| Classifier.fs :=
       list_to_map
         [("pics/holiday.jpg", Classifier.Regular [255; 216]);
          ("pics/notes.txt", Classifier.Regular [104; 105])];
     Classifier.listing :=
       {[ "pics" := ["."; ".."; "holiday.jpg"; "notes.txt"] ]};
     Classifier.readable := λ _, true;
     Classifier.creatable := λ _, true;
     Classifier.mkdir_ok := λ _, true;
     Classifier.localtime := λ _, Examples.noon;
     Classifier.time_calls := 0 |}.

End MoreExamples2.

(** * Facts *)

(** Field accessors and lookups are kept folded during simplification. *)
Arguments to_int : simpl never.
Arguments xor_span : simpl never.
Arguments rdle : simpl never.
Arguments Elf.draw_key : simpl never.
Arguments Elf.encrypt_file_sections : simpl never.
Arguments Pe.draw_key : simpl never.
Arguments Pe.encrypt_file_sections : simpl never.
Arguments rdbytes : simpl never.
Arguments wrbytes : simpl never.
Arguments xor_bytes : simpl never.
Arguments Elf.sh_name : simpl never.
Arguments Elf.sh_addr : simpl never.
Arguments Elf.sh_offset : simpl never.
Arguments Elf.sh_size : simpl never.
Arguments Elf.get_section : simpl never.
Arguments Elf.xor_crypt : simpl never.
Arguments Elf.xor_crypt_file : simpl never.
Arguments Pe.SizeOfRawData : simpl never.
Arguments Pe.PointerToRawData : simpl never.
Arguments Pe.find_section : simpl never.
Arguments Pe.xor_crypt : simpl never.
Arguments Pe.xor_crypt_additional : simpl never.

(** ** Buffers *)

Section MemFacts.

Lemma rd8_Some m a v :
  rd8 m a = Some v ↔ 0 ≤ a ∧ m !! Z.to_nat a = Some v.
Proof.
  unfold rd8. case_decide; [|split; [done | intros [? _]; lia]].
  split; [by intros -> | by intros [_ ->]].
Qed.

Lemma rd8_in_bounds m a :
  0 ≤ a < Z.of_nat (length m) → ∃ v, rd8 m a = Some v.
Proof.
  intros H. destruct (lookup_lt_is_Some_2 m (Z.to_nat a)) as [v Hv]; [lia|].
  exists v. apply rd8_Some. split; [lia | done].
Qed.

Lemma wr8_Some m a v m' :
  wr8 m a v = Some m' ↔
  0 ≤ a < Z.of_nat (length m) ∧ m' = <[Z.to_nat a := v]> m.
Proof.
  unfold wr8. case_decide; [|split; [done | intros [? _]; lia]].
  split; [by intros [= <-] | by intros [_ ->]].
Qed.

Lemma wr8_length m a v m' : wr8 m a v = Some m' → length m' = length m.
Proof. intros [_ ->]%wr8_Some. apply length_insert. Qed.

Lemma to_uchar_byte z : byte_ok (to_uchar z).
Proof. unfold byte_ok, to_uchar. apply Z.mod_pos_bound. lia. Qed.

Lemma to_uchar_id z : byte_ok z → to_uchar z = z.
Proof. unfold byte_ok, to_uchar. intros. apply Z.mod_small. lia. Qed.


End MemFacts.

(** ** The byte transform *)

Section XorFacts.

Lemma xor_byte_ok d k : byte_ok (xor_byte d k).
Proof. apply to_uchar_byte. Qed.

(** The [int] computation agrees with a subtraction in 8-bit unsigned
    arithmetic. *)
Lemma xor_byte_uchar_sub d k :
  byte_ok d → xor_byte d k = Z.lxor d ((k - 1) mod 256).
Proof.
  unfold byte_ok, xor_byte, to_uchar. intros Hd.
  rewrite <- (Z.mod_small d 256) at 2 by lia.
  change 256 with (2 ^ 8). apply Z.bits_inj'. intros n Hn.
  rewrite Z.lxor_spec, !Z.testbit_mod_pow2, Z.lxor_spec by lia.
  destruct (n <? 8); simpl; [done|]. done.
Qed.

Lemma xor_byte_involutive d k : byte_ok d → xor_byte (xor_byte d k) k = d.
Proof.
  intros Hd. rewrite (xor_byte_uchar_sub (xor_byte d k)) by apply xor_byte_ok.
  rewrite xor_byte_uchar_sub by done.
  rewrite Z.lxor_assoc, Z.lxor_nilpotent. apply Z.lxor_0_r.
Qed.

(** Under a key byte [1] the transform is the exclusive-or with zero. *)
Lemma xor_byte_one d : byte_ok d → xor_byte d 1 = d.
Proof.
  intros Hd. unfold xor_byte. change (1 - 1) with 0.
  rewrite Z.lxor_0_r. by apply to_uchar_id.
Qed.

Lemma key_at_lookup key j k :
  key !! Z.to_nat (j mod KEY_SIZE) = Some k → key_at key j = k.
Proof. unfold key_at. by intros ->. Qed.

Lemma key_lookup_8 (key : list Z) j :
  length key = 8%nat → ∃ k, key !! Z.to_nat (j mod KEY_SIZE) = Some k.
Proof.
  intros Hlen. apply lookup_lt_is_Some_2. rewrite Hlen. unfold KEY_SIZE.
  pose proof (Z.mod_pos_bound j 8). lia.
Qed.

Lemma xor_loop_closed n : ∀ key m base i,
  length key = 8%nat → 0 ≤ base + i →
  base + i + Z.of_nat n ≤ Z.of_nat (length m) →
  xor_loop key m base i n =
  Some (imap (λ p d, if decide (base + i ≤ Z.of_nat p < base + i + Z.of_nat n)
                     then xor_byte d (key_at key (Z.of_nat p - base)) else d) m).
Proof.
  induction n as [|n IH]; intros key m base i Hkey Hlo Hhi.
  - simpl. f_equal. apply list_eq. intros p. rewrite list_lookup_imap.
    destruct (m !! p); simpl; [|done]. case_decide; [lia | done].
  - cbn [xor_loop].
    destruct (rd8_in_bounds m (base + i)) as [d Hd]; [lia|].
    destruct (key_lookup_8 key i Hkey) as [k Hk].
    rewrite Hd, Hk. cbn.
    unfold wr8. rewrite decide_True by lia. cbn.
    rewrite IH by (rewrite ?length_insert; lia).
    f_equal. apply list_eq. intros p. rewrite !list_lookup_imap.
    apply rd8_Some in Hd as [_ Hd].
    destruct (decide (p = Z.to_nat (base + i))) as [->|Hne].
    + rewrite list_lookup_insert_eq by lia. rewrite Hd. cbn.
      rewrite decide_False by lia. rewrite decide_True by lia.
      do 2 f_equal. symmetry. apply key_at_lookup.
      replace (Z.of_nat (Z.to_nat (base + i)) - base) with i by lia. done.
    + rewrite list_lookup_insert_ne by done.
      destruct (m !! p); cbn; [|done]. f_equal.
      repeat case_decide; try done; lia.
Qed.

Lemma xor_span_length key m base len :
  length (xor_span key m base len) = length m.
Proof. unfold xor_span. apply length_imap. Qed.

Lemma xor_span_lookup key m base len p :
  xor_span key m base len !! p =
  (λ d, if decide (base ≤ Z.of_nat p < base + len)
        then xor_byte d (key_at key (Z.of_nat p - base)) else d) <$> m !! p.
Proof. unfold xor_span. by rewrite list_lookup_imap. Qed.

Lemma xor_span_outside key m base len p :
  ¬ (base ≤ Z.of_nat p < base + len) →
  xor_span key m base len !! p = m !! p.
Proof.
  intros H. rewrite xor_span_lookup. destruct (m !! p); cbn; [|done].
  by rewrite decide_False.
Qed.

Lemma xor_span_empty key m base len : len ≤ 0 → xor_span key m base len = m.
Proof.
  intros H. apply list_eq. intros p. apply xor_span_outside. lia.
Qed.

Lemma xor_span_bytes key m base len :
  Forall byte_ok m → Forall byte_ok (xor_span key m base len).
Proof.
  intros Hm. apply Forall_lookup. intros p x. rewrite xor_span_lookup.
  destruct (m !! p) as [d|] eqn:Hd; cbn; [|done]. intros [= <-].
  case_decide; [apply xor_byte_ok|]. eapply Forall_lookup_1; eauto.
Qed.

(** The loop computes its closed form whenever the range lies in the
    buffer; an empty range ([len <= 0]) touches nothing. *)
Lemma xor_bytes_closed key m base len :
  length key = 8%nat →
  (0 < len → 0 ≤ base ∧ base + len ≤ Z.of_nat (length m)) →
  xor_bytes key m base len = Some (xor_span key m base len).
Proof.
  intros Hkey Hb. unfold xor_bytes.
  destruct (decide (0 < len)) as [Hpos|Hneg].
  - destruct (Hb Hpos). rewrite xor_loop_closed by (try done; lia).
    f_equal. unfold xor_span. apply imap_ext. intros p d _.
    repeat case_decide; try done; lia.
  - replace (Z.to_nat len) with 0%nat by lia. cbn.
    by rewrite xor_span_empty by lia.
Qed.

Lemma xor_span_involutive key m base len :
  Forall byte_ok m → xor_span key (xor_span key m base len) base len = m.
Proof.
  intros Hm. apply list_eq. intros p. rewrite !xor_span_lookup.
  destruct (m !! p) as [d|] eqn:Hd; cbn; [|done]. f_equal.
  case_decide; [|done]. apply xor_byte_involutive.
  eapply Forall_lookup_1; eauto.
Qed.

Lemma xor_span_orig_key m base len :
  Forall byte_ok m → xor_span ORIG_KEY m base len = m.
Proof.
  intros Hm. apply list_eq. intros p. rewrite xor_span_lookup.
  destruct (m !! p) as [d|] eqn:Hd; cbn; [|done]. f_equal.
  case_decide; [|done].
  assert (key_at ORIG_KEY (Z.of_nat p - base) = 1) as ->.
  { unfold key_at, KEY_SIZE.
    pose proof (Z.mod_pos_bound (Z.of_nat p - base) 8 ltac:(lia)) as Hb.
    destruct (Z.to_nat ((Z.of_nat p - base) mod 8)) as [|[|[|[|[|[|[|[|?]]]]]]]] eqn:E;
      try done. lia. }
  apply xor_byte_one. eapply Forall_lookup_1; eauto.
Qed.

End XorFacts.

(** ** Reads that a write does not reach *)

Section Frames.

Lemma rdle_agree n : ∀ m m' a,
  (∀ a', a ≤ a' < a + Z.of_nat n → rd8 m' a' = rd8 m a') →
  rdle n m' a = rdle n m a.
Proof.
  induction n as [|n IH]; intros m m' a H; [done|].
  unfold rdle; fold rdle. rewrite (H a) by lia. rewrite (IH m m' (a + 1)); [done|].
  intros a' Ha'. apply H. lia.
Qed.

Lemma rdbytes_agree n : ∀ m m' a,
  (∀ a', a ≤ a' < a + Z.of_nat n → rd8 m' a' = rd8 m a') →
  rdbytes n m' a = rdbytes n m a.
Proof.
  induction n as [|n IH]; intros m m' a H; [done|].
  unfold rdbytes; fold rdbytes. rewrite (H a) by lia. rewrite (IH m m' (a + 1)); [done|].
  intros a' Ha'. apply H. lia.
Qed.

Lemma rd8_xor_span key m base len a :
  rd8 (xor_span key m base len) a =
  (λ d, if decide (base ≤ a < base + len)
        then xor_byte d (key_at key (a - base)) else d) <$> rd8 m a.
Proof.
  unfold rd8. case_decide; [|done]. rewrite xor_span_lookup.
  destruct (m !! Z.to_nat a); cbn; [|done]. f_equal.
  rewrite !Z2Nat.id by done. done.
Qed.

Lemma rd8_xor_span_outside key m base len a :
  ¬ (base ≤ a < base + len) → rd8 (xor_span key m base len) a = rd8 m a.
Proof.
  intros H. rewrite rd8_xor_span. destruct (rd8 m a); cbn; [|done].
  by rewrite decide_False.
Qed.

Lemma rd8_xor_span_inside key m base len a :
  base ≤ a < base + len →
  rd8 (xor_span key m base len) a =
  (λ d, xor_byte d (key_at key (a - base))) <$> rd8 m a.
Proof.
  intros H. rewrite rd8_xor_span. destruct (rd8 m a); cbn; [|done].
  by rewrite decide_True.
Qed.

End Frames.

(** ** C1: the transform is its own inverse *)

Section SelfInverse.

(** C1.  For every 8-byte key and every buffer, [xor_crypt] applied twice
    over the same in-bounds range with the same key gives back the buffer
    it started from, in the ELF and in the PE program; the first pass sets
    each byte of the range to its exclusive-or with [key[i mod 8] - 1]
    taken in unsigned 8-bit arithmetic. *)
Theorem xor_crypt_self_inverse (est : Elf.state) (pst : Pe.state)
    (m : list Z) (data len : Z) :
  length (Elf.key est) = 8%nat →
  Pe.key pst = Elf.key est →
  Forall byte_ok m →
  (0 < len → 0 ≤ data ∧ data + len ≤ Z.of_nat (length m)) →
  ∃ m1,
    Elf.xor_crypt est m data len = Some m1 ∧
    Elf.xor_crypt est m1 data len = Some m ∧
    Pe.xor_crypt pst m data len = Some m1 ∧
    Pe.xor_crypt pst m1 data len = Some m ∧
    length m1 = length m ∧
    ∀ i d, 0 ≤ i < len → rd8 m (data + i) = Some d →
      rd8 m1 (data + i) =
      Some (Z.lxor d ((key_at (Elf.key est) i - 1) mod 256)).
Proof.
  intros Hkey Hpk Hm Hin.
  exists (xor_span (Elf.key est) m data len).
  unfold Elf.xor_crypt, Pe.xor_crypt. rewrite Hpk.
  rewrite !xor_bytes_closed by (rewrite ?xor_span_length; done).
  rewrite xor_span_involutive by done.
  repeat split; [apply xor_span_length|].
  intros i d Hi [Hpos Hd]%rd8_Some. apply rd8_Some. split; [lia|].
  rewrite xor_span_lookup, Hd. cbn. rewrite decide_True by lia.
  rewrite xor_byte_uchar_sub by (eapply Forall_lookup_1; eauto).
  replace (Z.of_nat (Z.to_nat (data + i)) - data) with i by lia. done.
Qed.

Lemma xor_crypt_self_inverse_witness :
  ∃ m1,
    Elf.xor_crypt (Examples.elf_state Examples.key_mixed Examples.key3 [] None)
      [0; 1; 2; 3; 250; 251; 252; 253; 254; 255; 77] 1 10 = Some m1 ∧
    Elf.xor_crypt (Examples.elf_state Examples.key_mixed Examples.key3 [] None)
      m1 1 10 = Some [0; 1; 2; 3; 250; 251; 252; 253; 254; 255; 77] ∧
    m1 ≠ [0; 1; 2; 3; 250; 251; 252; 253; 254; 255; 77].
Proof.
  destruct (xor_crypt_self_inverse
              (Examples.elf_state Examples.key_mixed Examples.key3 [] None)
              {| Pe.key := Examples.key_mixed; Pe.rand_calls := 0;
                 Pe.file := [] |}
              [0; 1; 2; 3; 250; 251; 252; 253; 254; 255; 77] 1 10)
    as (m1 & H1 & H2 & _).
  - reflexivity.
  - reflexivity.
  - repeat constructor; unfold byte_ok; lia.
  - simpl. lia.
  - exists m1. split; [exact H1|]. split; [exact H2|].
    intros ->. vm_compute in H1. discriminate H1.
Defined.

End SelfInverse.

(** ** The ELF mutator *)

Section ElfFacts.

Lemma set_runtime_same st : Elf.set_runtime st (Elf.runtime st) = st.
Proof. by destruct st. Qed.

Lemma elf_decrypt_loop_orig_key e st file_data names :
  Elf.file_key st = ORIG_KEY →
  Forall byte_ok (Elf.runtime st) →
  Forall (Elf.runtime_section_mapped e (Elf.runtime st) file_data) names →
  Elf.decrypt_loop e st file_data names = Some st.
Proof.
  intros Hk Hb Hall. induction Hall as [|name rest Hname _ IH]; [done|].
  cbn [Elf.decrypt_loop]. unfold Elf.runtime_section_mapped in Hname.
  destruct (Elf.get_section file_data name) as [[p|]|]; cbn; [|done..].
  destruct (Elf.sh_size file_data p) as [size|]; cbn; [|done].
  destruct (Elf.sh_addr file_data p) as [addr|]; cbn; [|done].
  case_decide; [|done]. case_decide; [|done].
  unfold Elf.xor_crypt_file. rewrite Hk.
  rewrite xor_bytes_closed by (try done; intros; apply Hname; done).
  rewrite xor_span_orig_key by done. cbn.
  by rewrite set_runtime_same.
Qed.

Lemma elf_encrypt_loop_identity st data names :
  length (Elf.file_key st) = 8%nat →
  Forall byte_ok data →
  Forall (Elf.aux_section_safe data) names →
  Elf.encrypt_loop st data names = Some data.
Proof.
  intros Hk Hb Hall. induction Hall as [|name rest Hname _ IH]; [done|].
  cbn [Elf.encrypt_loop]. unfold Elf.aux_section_safe in Hname.
  destruct (Elf.get_section data name) as [[p|]|]; cbn; [|done..].
  destruct (Elf.sh_size data p) as [size|] eqn:Hsize; cbn; [|done].
  destruct (Elf.sh_offset data p) as [off|]; cbn; [|done].
  case_decide as Hpos; [|done]. specialize (Hname Hpos).
  unfold Elf.xor_crypt_file.
  rewrite xor_bytes_closed by (try done; intros H; destruct (Hname H); tauto).
  cbn.
  assert (Elf.sh_size (xor_span (Elf.file_key st) data off (to_int size)) p
          = Some size) as ->.
  { rewrite <- Hsize. unfold Elf.sh_size. apply rdle_agree.
    intros a Ha. apply rd8_xor_span_outside. intros Hr.
    destruct Hname as (_ & _ & Hdis); lia. }
  cbn. rewrite xor_bytes_closed
    by (rewrite ?xor_span_length; try done;
        intros H; destruct (Hname H); tauto).
  cbn. by rewrite xor_span_involutive.
Qed.

End ElfFacts.

(** ** C2: the auxiliary-section pass of the ELF mutator *)

Section AuxSections.

(** C2, as the code has it.  [encrypt_file_sections] returns the image it
    was given, byte for byte, whenever each of [.data], [.rodata], [.bss]
    that is found with a non-zero size has its file range inside the image
    and clear of the [sh_size] field of its own section header (the field
    is read again, through the header pointer, for the second pass). *)
Theorem encrypt_file_sections_identity (st : Elf.state) (data : list Z) :
  length (Elf.file_key st) = 8%nat →
  Forall byte_ok data →
  Elf.aux_section_safe data ".data" →
  Elf.aux_section_safe data ".rodata" →
  Elf.aux_section_safe data ".bss" →
  Elf.encrypt_file_sections st data = Some data.
Proof.
  intros Hk Hb H1 H2 H3. apply elf_encrypt_loop_identity; try done.
  repeat constructor; done.
Qed.

End AuxSections.

Section AuxSectionsExamples.

Lemma bytes_elf_plain : Forall byte_ok Examples.elf_plain.
Proof.
  apply Forall_forall. intros x Hx. unfold byte_ok.
  vm_compute in Hx. repeat (apply elem_of_cons in Hx as [->|Hx]; [lia|]).
  by apply not_elem_of_nil in Hx.
Qed.

Lemma encrypt_file_sections_identity_witness :
  Elf.encrypt_file_sections
    (Examples.elf_state ORIG_KEY Examples.key_mixed [] None)
    Examples.elf_plain = Some Examples.elf_plain.
Proof.
  apply encrypt_file_sections_identity.
  - reflexivity.
  - exact bytes_elf_plain.
  - vm_compute. intros _ _. repeat split; try discriminate.
    right. discriminate.
  - vm_compute. exact I.
  - vm_compute. intros _ _. repeat split; try discriminate.
    right. discriminate.
Defined.

(** C2, as stated, fails on an image whose [.bss] header describes a
    range that runs over the section-header table: the first pass turns
    the [sh_size] of [.bss] from 200 into 192, the second pass covers 192
    bytes only, and byte 264 of the image is left transformed once. *)
Lemma encrypt_file_sections_not_identity :
  ∃ data',
    Elf.encrypt_file_sections
      (Examples.elf_state ORIG_KEY Examples.key9 [] None)
      Examples.elf_bss = Some data' ∧
    Elf.get_section Examples.elf_bss ".bss" = Some (Some 224) ∧
    Elf.sh_size Examples.elf_bss 224 = Some 200 ∧
    data' ≠ Examples.elf_bss ∧
    rd8 Examples.elf_bss 264 = Some 0 ∧ rd8 data' 264 = Some 8.
Proof.
  eexists. split; [vm_compute; reflexivity|].
  repeat split; try (vm_compute; reflexivity).
  vm_compute. discriminate.
Qed.

End AuxSectionsExamples.

(** ** C9: the bootstrap key *)

Section BootstrapKey.

(** C9.  Under the compiled-in key [01 01 01 01 01 01 01 01] every byte is
    combined with zero, so each of the [xor_crypt*] functions returns the
    buffer unchanged, and the constructor [decrypt_runtime_sections], run
    with the compiled-in [file_key], leaves the loaded image (and the rest
    of the process state) as it found it. *)
Theorem bootstrap_key_is_identity (e : Elf.env) (est : Elf.state)
    (pst : Pe.state) (exe : option (list Z)) (m : list Z) (data len : Z) :
  Elf.key est = ORIG_KEY →
  Elf.file_key est = ORIG_KEY →
  Pe.key pst = ORIG_KEY →
  Forall byte_ok m →
  Forall byte_ok (Elf.runtime est) →
  (0 < len → 0 ≤ data ∧ data + len ≤ Z.of_nat (length m)) →
  Elf.runtime_mapped e (Elf.runtime est) exe →
  (∀ i, key_at ORIG_KEY i - 1 = 0) ∧
  Elf.xor_crypt est m data len = Some m ∧
  Elf.xor_crypt_file est m data len = Some m ∧
  Pe.xor_crypt pst m data len = Some m ∧
  Pe.xor_crypt_additional m data len ORIG_KEY = Some m ∧
  Elf.decrypt_runtime_sections e est exe = Some est.
Proof.
  intros Hk Hfk Hpk Hm Hrt Hin Hmap.
  assert (xor_bytes ORIG_KEY m data len = Some m) as Hid.
  { rewrite xor_bytes_closed by done. by rewrite xor_span_orig_key. }
  split.
  { intros i. unfold key_at, KEY_SIZE.
    pose proof (Z.mod_pos_bound i 8 ltac:(lia)) as Hb.
    destruct (Z.to_nat (i mod 8)) as [|[|[|[|[|[|[|[|?]]]]]]]] eqn:E;
      try done. lia. }
  unfold Elf.xor_crypt, Elf.xor_crypt_file, Pe.xor_crypt,
    Pe.xor_crypt_additional. rewrite Hk, Hfk, Hpk.
  repeat split; try exact Hid.
  destruct exe as [file_data|]; [|done]. unfold Elf.decrypt_runtime_sections.
  destruct Hmap as (H1 & H2 & H3).
  apply elf_decrypt_loop_orig_key; try done. repeat constructor; done.
Qed.

Lemma bootstrap_key_is_identity_witness :
  Elf.xor_crypt
    (Examples.elf_state ORIG_KEY ORIG_KEY Examples.elf_plain None)
    Examples.elf_plain 288 8 = Some Examples.elf_plain ∧
  Elf.decrypt_runtime_sections Examples.elf_env
    (Examples.elf_state ORIG_KEY ORIG_KEY Examples.elf_plain None)
    (Some Examples.elf_plain)
  = Some (Examples.elf_state ORIG_KEY ORIG_KEY Examples.elf_plain None).
Proof.
  destruct (bootstrap_key_is_identity Examples.elf_env
              (Examples.elf_state ORIG_KEY ORIG_KEY Examples.elf_plain None)
              (Examples.pe_state ORIG_KEY Examples.pe_image)
              (Some Examples.elf_plain) Examples.elf_plain 288 8)
    as (_ & H1 & _ & _ & _ & H2).
  - reflexivity.
  - reflexivity.
  - reflexivity.
  - exact bytes_elf_plain.
  - exact bytes_elf_plain.
  - intros _. vm_compute. split; discriminate.
  - vm_compute. repeat split; try discriminate; exact I.
  - split; [exact H1 | exact H2].
Defined.

End BootstrapKey.

(** ** C5: a missing [.poly] section *)

Section MissingSection.

(** C5.  When the section lookup finds no section named [.poly], [mutate]
    (ELF) and [mutate_executable] (PE) end in [die]: a message on the error
    stream and [exit(EXIT_FAILURE)], with [EXIT_FAILURE] non-zero.  The
    process state at that point, which holds the bytes of the executable
    file, is the state on entry: nothing was written.  For the PE program
    the lookup of [.data], which comes first, is assumed to stay inside the
    mapped view. *)
Theorem missing_poly_is_fatal (ee : Elf.env) (est : Elf.state)
    (data : list Z) (filesize : Z) (pe : Pe.env) (pst : Pe.state) :
  Elf.get_section data Elf.CUSTOM_SECTION = Some None →
  Pe.find_section (Pe.file pst) Pe.CUSTOM_SECTION = Some None →
  Pe.find_section (Pe.file pst) ".data" ≠ None →
  Elf.mutate ee est data filesize =
    Some (est, data,
          Elf.Exited Elf.EXIT_FAILURE
            ("ERROR: Could not find polymorphic section" +:+ nl)) ∧
  (∃ msg, Pe.mutate_executable pe pst =
          Some (pst, Pe.Exited Pe.EXIT_FAILURE msg)) ∧
  Elf.EXIT_FAILURE ≠ 0 ∧ Pe.EXIT_FAILURE ≠ 0.
Proof.
  intros He Hp Hd. split; [|split; [|done]].
  - unfold Elf.mutate. rewrite He. reflexivity.
  - unfold Pe.mutate_executable, Pe.die.
    destruct (Pe.CreateFileA_ok pe); cbn; [|eauto].
    destruct (Pe.GetFileSize_ok pe); cbn; [|eauto].
    destruct (Pe.CreateFileMappingA_ok pe); cbn; [|eauto].
    destruct (Pe.MapViewOfFile_ok pe); cbn; [|eauto].
    destruct (Pe.find_section (Pe.file pst) ".data") as [[dp|]|];
      cbn; [|eauto|done].
    rewrite Hp. cbn. eauto.
Qed.

Lemma missing_poly_is_fatal_witness :
  Elf.disk
    (fst (fst (default
       (Examples.elf_state [] [] [] None, [], Elf.Returned)
       (Elf.mutate Examples.elf_env
          (Examples.elf_state ORIG_KEY ORIG_KEY Examples.elf_plain
             (Some Examples.elf_plain))
          Examples.elf_plain 296))))
  = Some Examples.elf_plain ∧
  fst <$> Pe.mutate_executable Examples.pe_env
            (Examples.pe_state ORIG_KEY Examples.pe_nopoly)
  = Some (Examples.pe_state ORIG_KEY Examples.pe_nopoly).
Proof.
  destruct (missing_poly_is_fatal Examples.elf_env
              (Examples.elf_state ORIG_KEY ORIG_KEY Examples.elf_plain
                 (Some Examples.elf_plain))
              Examples.elf_plain 296 Examples.pe_env
              (Examples.pe_state ORIG_KEY Examples.pe_nopoly))
    as (H1 & (m2 & H2) & _).
  - vm_compute. reflexivity.
  - vm_compute. reflexivity.
  - vm_compute. discriminate.
  - rewrite H1, H2. split; reflexivity.
Defined.

End MissingSection.

(** ** A complete run of [mutate] *)

Section ElfRun.

(** On an image with a [.poly] section the function returns, the file is
    replaced by the mutated image, and only the sixteen [.poly] bytes
    differ from the image read at start-up. *)
Example elf_mutate_run :
  ∃ st' data',
    Elf.mutate Examples.elf_env
      (Examples.elf_state ORIG_KEY ORIG_KEY Examples.elf_poly
         (Some Examples.elf_poly))
      Examples.elf_poly 384 = Some (st', data', Elf.Returned) ∧
    Elf.get_section Examples.elf_poly Elf.CUSTOM_SECTION = Some (Some 256) ∧
    Elf.disk st' = Some data' ∧
    Elf.key st' = Elf.draw_key Examples.elf_env 0 ∧
    Elf.file_key st' = Elf.draw_key Examples.elf_env 8 ∧
    take 352 data' = take 352 Examples.elf_poly ∧
    drop 368 data' = drop 368 Examples.elf_poly ∧
    take 16 (drop 352 data') ≠ take 16 (drop 352 Examples.elf_poly).
Proof.
  eexists _, _. split; [vm_compute; reflexivity|].
  repeat split; try (vm_compute; reflexivity).
  vm_compute. discriminate.
Qed.

End ElfRun.

(** ** The PE mutator *)

Section PeFacts.

Lemma rdle_nonneg n : ∀ m a v,
  Forall byte_ok m → rdle n m a = Some v → 0 ≤ v.
Proof.
  induction n as [|n IH]; intros m a v Hm; unfold rdle; fold rdle.
  - intros [= <-]. lia.
  - destruct (rd8 m a) as [b|] eqn:Hb; cbn; [|done].
    destruct (rdle n m (a + 1)) as [r|] eqn:Hr; cbn; [|done].
    intros [= <-]. apply IH in Hr; [|done].
    apply rd8_Some in Hb as [_ Hb].
    pose proof (Forall_lookup_1 _ _ _ _ Hm Hb) as Hbyte.
    unfold byte_ok in Hbyte. lia.
Qed.

Lemma rdbytes_in_bounds n : ∀ m a,
  0 ≤ a → a + Z.of_nat n ≤ Z.of_nat (length m) →
  ∃ l, rdbytes n m a = Some l ∧ length l = n.
Proof.
  induction n as [|n IH]; intros m a Ha Hn; unfold rdbytes; fold rdbytes.
  - by exists [].
  - destruct (rd8_in_bounds m a) as [b ->]; [lia|].
    destruct (IH m (a + 1)) as (l & -> & Hl); [lia..|].
    exists (b :: l). cbn. by rewrite Hl.
Qed.

Lemma rd8_insert_ne m a x v :
  x ≠ a → 0 ≤ a → rd8 (<[Z.to_nat a := v]> m) x = rd8 m x.
Proof.
  intros Hne Ha. unfold rd8. case_decide; [|done].
  apply list_lookup_insert_ne. lia.
Qed.

Lemma rd8_insert_eq m a v :
  0 ≤ a < Z.of_nat (length m) → rd8 (<[Z.to_nat a := v]> m) a = Some v.
Proof.
  intros Ha. unfold rd8. rewrite decide_True by lia.
  apply list_lookup_insert_eq. lia.
Qed.

Lemma wrbytes_spec src : ∀ m a,
  0 ≤ a → a + Z.of_nat (length src) ≤ Z.of_nat (length m) →
  ∃ m', wrbytes src m a = Some m' ∧ length m' = length m ∧
        (∀ x, ¬ (a ≤ x < a + Z.of_nat (length src)) → rd8 m' x = rd8 m x) ∧
        rdbytes (length src) m' a = Some src.
Proof.
  induction src as [|b src IH]; intros m a Ha Hn; unfold wrbytes; fold wrbytes.
  - exists m. done.
  - cbn [length] in Hn. unfold wr8. rewrite decide_True by lia. cbn.
    destruct (IH (<[Z.to_nat a := b]> m) (a + 1))
      as (m' & -> & Hlen & Hout & Hrd); [lia | rewrite length_insert; lia |].
    exists m'. rewrite length_insert in Hlen. repeat split; [done| |].
    + intros x Hx. rewrite Hout by lia. apply rd8_insert_ne; lia.
    + cbn [length]. unfold rdbytes; fold rdbytes.
      rewrite Hout by lia. rewrite rd8_insert_eq by lia. cbn.
      by rewrite Hrd.
Qed.

Lemma agree_below_refl H m : agree_below H m m.
Proof. by intros a _. Qed.

Lemma agree_below_trans H m1 m2 m3 :
  agree_below H m1 m2 → agree_below H m2 m3 → agree_below H m1 m3.
Proof. intros H12 H23 a Ha. by rewrite H23, H12. Qed.

Lemma agree_below_xor_span H key m base len :
  H ≤ base → agree_below H m (xor_span key m base len).
Proof. intros Hb a Ha. apply rd8_xor_span_outside. lia. Qed.

Lemma rdle_agree_below n H m m' a :
  agree_below H m m' → a + Z.of_nat n ≤ H → rdle n m' a = rdle n m a.
Proof. intros Hag Ha. apply rdle_agree. intros a' Ha'. apply Hag. lia. Qed.

Lemma strneq_at_agree n : ∀ H m m' a s,
  agree_below H m m' → a + Z.of_nat n ≤ H →
  Pe.strneq_at m' a s n = Pe.strneq_at m a s n.
Proof.
  induction n as [|n IH]; intros H m m' a s Hag Ha; [done|].
  cbn [Pe.strneq_at]. rewrite (Hag a) by lia.
  destruct (rd8 m a) as [c|]; cbn; [|done].
  case_decide; [|done]. case_decide; [done|].
  apply (IH H); [done | lia].
Qed.

Lemma find_section_loop_agree n : ∀ H m m' sections name i,
  agree_below H m m' →
  sections + Pe.SECTION_HEADER_SIZE * (i + Z.of_nat n) ≤ H →
  Pe.find_section_loop m' sections name i n =
  Pe.find_section_loop m sections name i n.
Proof.
  unfold Pe.SECTION_HEADER_SIZE.
  induction n as [|n IH]; intros H m m' sections name i Hag Hn; [done|].
  cbn [Pe.find_section_loop]. unfold Pe.SECTION_HEADER_SIZE.
  rewrite (strneq_at_agree _ H m m')
    by (try done; unfold Pe.IMAGE_SIZEOF_SHORT_NAME; lia).
  destruct (Pe.strneq_at m _ name _) as [[|]|]; cbn; [done| |done].
  apply (IH H); [done | lia].
Qed.

Lemma find_section_loop_range n : ∀ m sections name i p,
  Pe.find_section_loop m sections name i n = Some (Some p) →
  p + 40 ≤ sections + Pe.SECTION_HEADER_SIZE * (i + Z.of_nat n).
Proof.
  unfold Pe.SECTION_HEADER_SIZE.
  induction n as [|n IH]; intros m sections name i p; [done|].
  cbn [Pe.find_section_loop]. unfold Pe.SECTION_HEADER_SIZE.
  destruct (Pe.strneq_at m _ name _) as [[|]|]; cbn; [| |done].
  - intros [= <-]. lia.
  - intros Hp%IH. lia.
Qed.

(** What [section_table_end] reads. *)
Lemma section_table_end_inv m H :
  Forall byte_ok m → Pe.section_table_end m = Some H →
  ∃ nt so n,
    Pe.e_lfanew m = Some nt ∧ Pe.SizeOfOptionalHeader m nt = Some so ∧
    Pe.NumberOfSections m nt = Some n ∧ 0 ≤ so ∧ 0 ≤ n ∧
    H = nt + 24 + so + Pe.SECTION_HEADER_SIZE * n.
Proof.
  intros Hm. unfold Pe.section_table_end, Pe.IMAGE_FIRST_SECTION.
  destruct (Pe.e_lfanew m) as [nt|]; cbn; [|done].
  destruct (Pe.SizeOfOptionalHeader m nt) as [so|] eqn:Hso; cbn; [|done].
  destruct (Pe.NumberOfSections m nt) as [n|] eqn:Hn; cbn; [|done].
  intros [= <-]. exists nt, so, n. repeat split; try done.
  - eapply rdle_nonneg; [done | exact Hso].
  - eapply rdle_nonneg; [done | exact Hn].
Qed.

Lemma find_section_agree m m' H name :
  Forall byte_ok m → Pe.section_table_end m = Some H → 64 ≤ H →
  agree_below H m m' →
  Pe.find_section m' name = Pe.find_section m name.
Proof.
  intros Hm Hend H64 Hag.
  destruct (section_table_end_inv m H Hm Hend)
    as (nt & so & n & Hnt & Hso & Hn & Hso0 & Hn0 & ->).
  unfold Pe.SECTION_HEADER_SIZE in *.
  assert (Pe.e_lfanew m' = Some nt) as Hnt'.
  { rewrite <- Hnt. unfold Pe.e_lfanew. f_equal.
    apply (rdle_agree_below _ _ _ _ _ Hag). cbn. lia. }
  unfold Pe.find_section.
  assert (Pe.e_magic m' = Pe.e_magic m) as ->.
  { unfold Pe.e_magic. apply (rdle_agree_below _ _ _ _ _ Hag). cbn. lia. }
  destruct (Pe.e_magic m) as [magic|]; cbn; [|done].
  case_decide; [done|]. rewrite Hnt, Hnt'. cbn.
  assert (Pe.Signature m' nt = Pe.Signature m nt) as ->.
  { unfold Pe.Signature. apply (rdle_agree_below _ _ _ _ _ Hag). cbn. lia. }
  destruct (Pe.Signature m nt) as [sig|]; cbn; [|done].
  case_decide; [done|].
  assert (Pe.SizeOfOptionalHeader m' nt = Some so) as Hso'.
  { rewrite <- Hso. unfold Pe.SizeOfOptionalHeader.
    apply (rdle_agree_below _ _ _ _ _ Hag). cbn. lia. }
  assert (Pe.NumberOfSections m' nt = Some n) as Hn'.
  { rewrite <- Hn. unfold Pe.NumberOfSections.
    apply (rdle_agree_below _ _ _ _ _ Hag). cbn. lia. }
  unfold Pe.IMAGE_FIRST_SECTION. rewrite Hso, Hso', Hn, Hn'. cbn.
  apply (find_section_loop_agree _ _ _ _ _ _ _ Hag).
  unfold Pe.SECTION_HEADER_SIZE. lia.
Qed.

Lemma find_section_range m H name p :
  Forall byte_ok m → Pe.section_table_end m = Some H →
  Pe.find_section m name = Some (Some p) → p + 40 ≤ H.
Proof.
  intros Hm Hend.
  destruct (section_table_end_inv m H Hm Hend)
    as (nt & so & n & Hnt & Hso & Hn & Hso0 & Hn0 & ->).
  unfold Pe.find_section.
  destruct (Pe.e_magic m) as [magic|]; cbn; [|done].
  case_decide; [done|]. rewrite Hnt. cbn.
  destruct (Pe.Signature m nt) as [sig|]; cbn; [|done].
  case_decide; [done|].
  unfold Pe.IMAGE_FIRST_SECTION. rewrite Hso, Hn. cbn.
  intros Hp%find_section_loop_range.
  unfold Pe.SECTION_HEADER_SIZE in *. lia.
Qed.

Lemma SizeOfRawData_agree m m' H p :
  agree_below H m m' → p + 40 ≤ H →
  Pe.SizeOfRawData m' p = Pe.SizeOfRawData m p.
Proof.
  intros Hag Hp. unfold Pe.SizeOfRawData.
  apply (rdle_agree_below _ _ _ _ _ Hag). cbn. lia.
Qed.

Lemma PointerToRawData_agree m m' H p :
  agree_below H m m' → p + 40 ≤ H →
  Pe.PointerToRawData m' p = Pe.PointerToRawData m p.
Proof.
  intros Hag Hp. unfold Pe.PointerToRawData.
  apply (rdle_agree_below _ _ _ _ _ Hag). cbn. lia.
Qed.

Lemma raw_bytes_ext m m' off len :
  0 ≤ off →
  (∀ x, off ≤ x < off + len → rd8 m' x = rd8 m x) →
  Pe.raw_bytes m' off len = Pe.raw_bytes m off len.
Proof.
  intros Hoff Hx. unfold Pe.raw_bytes. apply list_eq. intros i.
  destruct (decide (i < Z.to_nat len)%nat) as [Hi|Hi].
  - rewrite !lookup_take_lt, !lookup_drop by done.
    specialize (Hx (off + Z.of_nat i) ltac:(lia)).
    unfold rd8 in Hx. rewrite !decide_True in Hx by lia.
    replace (Z.to_nat (off + Z.of_nat i)) with (Z.to_nat off + i)%nat in Hx
      by lia. done.
  - rewrite !lookup_take_ge by lia. done.
Qed.

Lemma draw_key_length e n : length (Pe.draw_key e n) = 8%nat.
Proof. done. Qed.

Lemma span_bounds size off len :
  off + Pe.span size ≤ len → 0 ≤ off →
  0 < to_int size → 0 ≤ off ∧ off + to_int size ≤ len.
Proof. unfold Pe.span. lia. Qed.

End PeFacts.

(** ** C3: one PE mutation pass *)

Section PeMutation.

(** The [.rdata] pass on an image that agrees with a well laid out image
    [m] below the section table. *)
Lemma pe_rdata_pass m m3 H r fk dp pp koff poff psize :
  Forall byte_ok m → Pe.section_table_end m = Some H → 64 ≤ H →
  length fk = 8%nat →
  Pe.find_section m ".rdata" = Some r →
  agree_below H m m3 → length m3 = length m →
  Pe.find_section m ".data" = Some (Some dp) →
  Pe.find_section m Pe.CUSTOM_SECTION = Some (Some pp) →
  match r with
  | None => True
  | Some rp =>
      match Pe.PointerToRawData m rp, Pe.SizeOfRawData m rp with
      | Some roff, Some rsize =>
          0 < rsize →
          H ≤ roff ∧ roff + Pe.span rsize ≤ Z.of_nat (length m) ∧
          (koff + 8 ≤ roff ∨ roff + Pe.span rsize ≤ koff) ∧
          (poff + Pe.span psize ≤ roff ∨ roff + Pe.span rsize ≤ poff)
      | _, _ => False
      end
  end →
  ∃ m4, Pe.encrypt_file_sections m3 fk = Some m4 ∧
        length m4 = length m ∧ agree_below H m m4 ∧
        ∀ x, koff ≤ x < koff + 8 ∨ poff ≤ x < poff + Pe.span psize →
             rd8 m4 x = rd8 m3 x.
Proof.
  intros Hm Hend H64 Hfk Hr Hag3 Hlen3 Hd Hp Hrd.
  unfold Pe.encrypt_file_sections. cbn [Pe.encrypt_loop].
  rewrite (find_section_agree m m3 H) by done. rewrite Hr. cbn.
  destruct r as [rp|]; [|by exists m3].
  pose proof (find_section_range m H ".rdata" rp Hm Hend Hr) as Hrp.
  rewrite !(SizeOfRawData_agree m m3 H rp),
    (PointerToRawData_agree m m3 H rp) by done.
  destruct (Pe.PointerToRawData m rp) as [roff|]; [|done].
  destruct (Pe.SizeOfRawData m rp) as [rsize|]; [|done]. cbn.
  case_decide as Hpos; [|by exists m3].
  destruct (Hrd Hpos) as (HrH & Hrlen & Hrk & Hrp').
  unfold Pe.xor_crypt_additional.
  rewrite xor_bytes_closed
    by first [done | rewrite Hlen3; apply span_bounds; [done | lia]].
  cbn. eexists. split; [done|]. rewrite xor_span_length.
  split; [done|]. split.
  - eapply agree_below_trans; [exact Hag3|].
    apply agree_below_xor_span. lia.
  - intros x Hx. apply rd8_xor_span_outside. unfold Pe.span in *. lia.
Qed.

(** C3.  On an image with valid headers whose [.data] key bytes, [.poly]
    raw data and [.rdata] raw data lie in the file without overlapping
    each other or the headers, one pass of [mutate_executable] completes,
    and the eight bytes at the start of the rewritten [.data] raw data,
    used as key for the transform on the rewritten [.poly] raw bytes, give
    the plaintext that the original key bytes give on the original [.poly]
    raw bytes.  The rewritten key bytes are the freshly drawn key. *)
Theorem pe_mutation_keeps_plaintext (e : Pe.env) (st : Pe.state) :
  Pe.CreateFileA_ok e = true →
  Pe.GetFileSize_ok e = true →
  Pe.CreateFileMappingA_ok e = true →
  Pe.MapViewOfFile_ok e = true →
  Forall byte_ok (Pe.file st) →
  Pe.well_laid_out (Pe.file st) →
  ∃ st' plain,
    Pe.mutate_executable e st = Some (st', Pe.Returned) ∧
    Pe.poly_plaintext (Pe.file st) = Some plain ∧
    Pe.poly_plaintext (Pe.file st') = Some plain ∧
    Pe.key st' = Pe.draw_key e (Pe.rand_calls st) ∧
    length (Pe.file st') = length (Pe.file st).
Proof.
  intros Ho1 Ho2 Ho3 Ho4 Hm Hwf.
  unfold Pe.mutate_executable. rewrite Ho1, Ho2, Ho3, Ho4. cbn [negb].
  destruct st as [k0 rc m]. cbn [Pe.file] in *.
  unfold Pe.well_laid_out in Hwf.
  destruct (Pe.section_table_end m) as [H|] eqn:Hend; [|done].
  destruct (Pe.find_section m ".data") as [[dp|]|] eqn:Hd; try done.
  destruct (Pe.find_section m Pe.CUSTOM_SECTION) as [[pp|]|] eqn:Hp;
    try done.
  destruct (Pe.find_section m ".rdata") as [r|] eqn:Hr; try done.
  destruct (Pe.PointerToRawData m dp) as [koff|] eqn:Hkoff; try done.
  destruct (Pe.PointerToRawData m pp) as [poff|] eqn:Hpoff; try done.
  destruct (Pe.SizeOfRawData m pp) as [psize|] eqn:Hpsize; try done.
  destruct Hwf as (H64 & HkH & Hklen & HpH & Hplen & Hkp & Hrd).
  pose proof (find_section_range m H ".data" dp Hm Hend Hd) as Hdp.
  pose proof (find_section_range m H _ pp Hm Hend Hp) as Hpp.
  destruct (rdbytes_in_bounds 8 m koff) as (kold & Hkold & Hkoldlen);
    [lia..|].
  remember (to_int psize) as L eqn:HL.
  assert (0 < L → 0 ≤ poff ∧ poff + L ≤ Z.of_nat (length m)) as HLb.
  { subst L. apply span_bounds; [done | lia]. }
  assert (Pe.span psize = Z.max 0 L) as Hspan by (by subst L).
  remember (xor_span kold m poff L) as m1 eqn:Hm1.
  assert (xor_bytes kold m poff L = Some m1) as Hx1.
  { subst m1. by apply xor_bytes_closed. }
  assert (length m1 = length m) as Hlen1
    by (subst m1; apply xor_span_length).
  remember (Pe.draw_key e rc) as knew eqn:Hknew.
  assert (length knew = 8%nat) as Hknewlen by (by subst knew).
  destruct (wrbytes_spec knew m1 koff) as (m2 & Hw & Hlen2 & Hout2 & Hrd2);
    [lia | rewrite Hlen1, Hknewlen; lia |].
  rewrite Hknewlen in Hout2, Hrd2.
  assert (agree_below H m m1) as Hag1
    by (subst m1; apply agree_below_xor_span; lia).
  assert (agree_below H m m2) as Hag2.
  { intros a Ha. rewrite Hout2 by lia. by apply Hag1. }
  remember (xor_span knew m2 poff L) as m3 eqn:Hm3.
  assert (xor_bytes knew m2 poff L = Some m3) as Hx3.
  { subst m3. apply xor_bytes_closed; [done|]. by rewrite Hlen2, Hlen1. }
  assert (length m3 = length m) as Hlen3
    by (subst m3; rewrite xor_span_length; congruence).
  assert (agree_below H m m3) as Hag3.
  { eapply agree_below_trans; [exact Hag2|].
    subst m3. apply agree_below_xor_span. lia. }
  destruct (pe_rdata_pass m m3 H r (Pe.draw_key e (rc + 8)) dp pp koff poff
              psize) as (m4 & Henc & Hlen4 & Hag4 & Hsame4); try done.
  (* the run *)
  cbn. rewrite Hkoff. cbn. rewrite Hkold. cbn. rewrite Hpoff. cbn.
  rewrite Hpsize. cbn. unfold Pe.xor_crypt. cbn. rewrite <- HL, Hx1. cbn.
  rewrite <- Hknew, Hw. cbn.
  rewrite (SizeOfRawData_agree m m2 H pp), Hpsize by done. cbn.
  rewrite <- HL, Hx3. cbn. rewrite Henc. cbn.
  eexists _, (Pe.raw_bytes m1 poff L). split; [reflexivity|].
  cbn [Pe.file Pe.key Pe.set_file Pe.set_key Pe.set_rand_calls].
  (* the plaintext before *)
  split.
  { unfold Pe.poly_plaintext. rewrite Hd, Hp. cbn.
    rewrite Hkoff. cbn. rewrite Hkold. cbn. rewrite Hpoff. cbn.
    rewrite Hpsize. cbn. by rewrite <- HL, Hx1. }
  (* the plaintext after *)
  split; [|split; [reflexivity | exact Hlen4]].
  unfold Pe.poly_plaintext.
  rewrite !(find_section_agree m m4 H) by done. rewrite Hd, Hp. cbn.
  rewrite (PointerToRawData_agree m m4 H dp), Hkoff by done. cbn.
  assert (rdbytes 8 m4 koff = Some knew) as ->.
  { rewrite <- Hrd2. apply rdbytes_agree. intros a Ha.
    rewrite Hsame4 by lia. subst m3.
    apply rd8_xor_span_outside. lia. }
  cbn. rewrite (PointerToRawData_agree m m4 H pp), Hpoff by done. cbn.
  rewrite (SizeOfRawData_agree m m4 H pp), Hpsize by done. cbn.
  rewrite <- HL.
  rewrite xor_bytes_closed by first [done | by rewrite Hlen4].
  cbn. f_equal. apply raw_bytes_ext; [lia|]. intros x Hx.
  rewrite rd8_xor_span_inside by done.
  rewrite Hsame4 by lia.
  rewrite Hm3, rd8_xor_span_inside by done.
  rewrite Hout2 by lia.
  destruct (rd8 m1 x) as [d|] eqn:Hd1; cbn; [|done]. f_equal.
  apply xor_byte_involutive.
  apply rd8_Some in Hd1 as [_ Hd1].
  eapply Forall_lookup_1; [|exact Hd1]. subst m1. by apply xor_span_bytes.
Qed.

End PeMutation.

Section PeMutationExamples.

Lemma bytes_pe_image : Forall byte_ok Examples.pe_image.
Proof.
  apply Forall_forall. intros x Hx. unfold byte_ok.
  vm_compute in Hx. repeat (apply elem_of_cons in Hx as [->|Hx]; [lia|]).
  by apply not_elem_of_nil in Hx.
Qed.

Lemma pe_mutation_keeps_plaintext_witness :
  ∃ st',
    Pe.mutate_executable Examples.pe_env
      (Examples.pe_state ORIG_KEY Examples.pe_image)
    = Some (st', Pe.Returned) ∧
    Pe.poly_plaintext (Pe.file st') = Pe.poly_plaintext Examples.pe_image ∧
    Pe.poly_plaintext Examples.pe_image
    = Some [148; 111; 168; 72; 197; 34; 8; 225; 199; 51; 252; 128].
Proof.
  destruct (pe_mutation_keeps_plaintext Examples.pe_env
              (Examples.pe_state ORIG_KEY Examples.pe_image))
    as (st' & plain & Hrun & Hbefore & Hafter & _).
  - reflexivity.
  - reflexivity.
  - reflexivity.
  - reflexivity.
  - exact bytes_pe_image.
  - vm_compute.
    repeat first [discriminate | split | left; discriminate
                 | right; discriminate | intros _].
  - exists st'. split; [exact Hrun|]. split.
    + cbn [Examples.pe_state Pe.file] in Hbefore. congruence.
    + vm_compute. reflexivity.
Defined.

(** C3, as stated, fails on images with valid headers and [.data] and
    [.poly] sections in which the regions a pass writes share bytes.  In
    each of the four runs below the pass completes, the rewritten image
    still has its headers and both sections, and the eight bytes at the
    start of its [.data] raw data, used as key on its [.poly] raw bytes,
    give other bytes than the plaintext before the pass:
    - the [.rdata] raw data lies over the key bytes, so the key that the
      file keeps is the new key transformed under the file key;
    - the [.poly] raw data contains the key bytes, so the stored key is
      itself re-encrypted;
    - the [.rdata] raw data lies over [.poly], which is transformed once
      more under the file key;
    - the [.rdata] raw data is a byte of the section table, the low byte
      of the [PointerToRawData] of [.poly], so the rewritten header gives
      [.poly] another place (239 instead of 224). *)
Lemma pe_mutation_overlap_loses_plaintext :
  (∃ st',
     Pe.mutate_executable Examples.pe_env
       (Examples.pe_state ORIG_KEY Examples.pe_rdata_on_key)
     = Some (st', Pe.Returned) ∧
     Pe.poly_plaintext Examples.pe_rdata_on_key
     = Some [148; 111; 168; 72; 197; 34; 8; 225; 199; 51; 252; 128] ∧
     Pe.poly_plaintext (Pe.file st')
     = Some [153; 31; 123; 121; 81; 213; 93; 89; 202; 67; 47; 177] ∧
     Pe.key st' = [5; 102; 199; 41; 138; 235; 77; 174] ∧
     rdbytes 8 (Pe.file st') 208 = Some [10; 22; 22; 26; 30; 30; 26; 22]) ∧
  (∃ st',
     Pe.mutate_executable Examples.pe_env
       (Examples.pe_state ORIG_KEY Examples.pe_poly_on_key)
     = Some (st', Pe.Returned) ∧
     Pe.poly_plaintext Examples.pe_poly_on_key
     = Some [1; 255; 3; 1; 1; 15; 1; 1; 5; 253; 254; 4] ∧
     Pe.poly_plaintext (Pe.file st')
     = Some [1; 1; 1; 1; 1; 1; 1; 1; 1; 154; 56; 44] ∧
     Pe.key st' = [5; 102; 199; 41; 138; 235; 77; 174] ∧
     rdbytes 8 (Pe.file st') 208 = Some [1; 3; 1; 1; 3; 1; 1; 3]) ∧
  (∃ st',
     Pe.mutate_executable Examples.pe_env
       (Examples.pe_state ORIG_KEY Examples.pe_rdata_on_poly)
     = Some (st', Pe.Returned) ∧
     Pe.poly_plaintext Examples.pe_rdata_on_poly
     = Some [148; 111; 168; 72; 197; 34; 8; 225; 199; 51; 252; 128] ∧
     Pe.poly_plaintext (Pe.file st')
     = Some [155; 31; 121; 123; 81; 215; 95; 89; 199; 51; 252; 128] ∧
     rdbytes 8 (Pe.file st') 208
     = Some [5; 102; 199; 41; 138; 235; 77; 174]) ∧
  (∃ st',
     Pe.mutate_executable Examples.pe_env
       (Examples.pe_state ORIG_KEY Examples.pe_rdata_on_table)
     = Some (st', Pe.Returned) ∧
     Pe.poly_plaintext Examples.pe_rdata_on_table
     = Some [148; 111; 168; 72; 197; 34; 8; 225; 199; 51; 252; 128] ∧
     Pe.poly_plaintext (Pe.file st')
     = Some [104; 10; 198; 40; 137; 234; 76; 173; 4; 101; 198; 40] ∧
     rdbytes 8 (Pe.file st') 208
     = Some [5; 102; 199; 41; 138; 235; 77; 174] ∧
     Pe.PointerToRawData Examples.pe_rdata_on_table 128 = Some 224 ∧
     Pe.PointerToRawData (Pe.file st') 128 = Some 239).
Proof.
  split; [|split; [|split]]; eexists.
  - do 4 (split; [vm_compute; reflexivity|]). vm_compute. reflexivity.
  - do 4 (split; [vm_compute; reflexivity|]). vm_compute. reflexivity.
  - do 3 (split; [vm_compute; reflexivity|]). vm_compute. reflexivity.
  - do 5 (split; [vm_compute; reflexivity|]). vm_compute. reflexivity.
Qed.

End PeMutationExamples.

(** ** The classifier: strings *)


Section StringFacts.

Import Classifier.

Lemma strtake_all n : ∀ s, (String.length s ≤ n)%nat → strtake n s = s.
Proof.
  induction n as [|n IH]; intros [|c s] H; cbn in *; try done; [lia|].
  f_equal. apply IH. lia.
Qed.

Lemma strtake_length n : ∀ s,
  String.length (strtake n s) = Nat.min n (String.length s).
Proof.
  induction n as [|n IH]; intros [|c s]; try done.
  cbn. f_equal. apply IH.
Qed.

Lemma strmap_length f s : String.length (strmap f s) = String.length s.
Proof. induction s as [|c s IH]; [done|]. cbn. f_equal. exact IH. Qed.

Lemma app_cons_str c (s t : string) : String c s +:+ t = String c (s +:+ t).
Proof. reflexivity. Qed.

Lemma app_nil_str (t : string) : EmptyString +:+ t = t.
Proof. reflexivity. Qed.


Lemma app_length_str (s t : string) :
  String.length (s +:+ t) = (String.length s + String.length t)%nat.
Proof.
  induction s as [|c s IH]; [done|].
  rewrite app_cons_str. cbn. f_equal. exact IH.
Qed.

Lemma app_assoc_str (s t u : string) : (s +:+ t) +:+ u = s +:+ (t +:+ u).
Proof.
  induction s as [|c s IH]; [done|].
  rewrite !app_cons_str. f_equal. exact IH.
Qed.

Lemma prefix_occurs k : ∀ s,
  String.prefix k s = true ↔ ∃ post, s = k +:+ post.
Proof.
  induction k as [|a k IH]; intros s.
  - destruct s; cbn; split; eauto.
  - destruct s as [|b s]; cbn.
    + split; [done | intros [post H]; rewrite app_cons_str in H; done].
    + destruct (Ascii.ascii_dec a b) as [->|Hne].
      * rewrite IH. split; intros [post H]; exists post;
          rewrite app_cons_str in *; congruence.
      * split; [done|]. intros [post H]. rewrite app_cons_str in H.
        congruence.
Qed.

Lemma strstr_occurs k : ∀ s, strstr s k = true ↔ occurs_in k s.
Proof.
  unfold occurs_in. induction s as [|c s IH]; cbn [strstr].
  - destruct (String.prefix k EmptyString) eqn:Hp.
    + split; [|done]. intros _. apply prefix_occurs in Hp as [post ->].
      by exists EmptyString, post.
    + split; [done|]. intros (pre & post & H).
      destruct pre; [|rewrite app_cons_str in H; done].
      rewrite app_nil_str in H.
      assert (String.prefix k EmptyString = true) as Ht
        by (apply prefix_occurs; eauto). congruence.
  - destruct (String.prefix k (String c s)) eqn:Hp.
    + split; [|done]. intros _. apply prefix_occurs in Hp as [post ->].
      by exists EmptyString, post.
    + rewrite IH. split.
      * intros (pre & post & ->). by exists (String c pre), post.
      * intros (pre & post & H). destruct pre as [|c' pre].
        -- rewrite app_nil_str in H.
           assert (String.prefix k (String c s) = true) as Ht
             by (apply prefix_occurs; eauto). congruence.
        -- rewrite app_cons_str in H. injection H as _ ->. eauto.
Qed.

(** The inner loop returns the first keyword, in list order, that occurs
    in the name. *)
Lemma match_keyword_first name : ∀ kws k,
  match_keyword name kws = Some k ↔
  ∃ j, kws !! j = Some k ∧ occurs_in k name ∧
       ∀ j' k', (j' < j)%nat → kws !! j' = Some k' → ¬ occurs_in k' name.
Proof.
  induction kws as [|k0 kws IH]; intros k; cbn [match_keyword].
  - split; [done | intros (j & H & _); done].
  - destruct (strstr name k0) eqn:Hs.
    + apply strstr_occurs in Hs. split.
      * intros [= <-]. exists 0%nat. repeat split; [done|]. intros; lia.
      * intros ([|j] & Hj & Hk & Hfirst); [by injection Hj as -> |].
        exfalso. by apply (Hfirst 0%nat k0); [lia | |].
    + assert (¬ occurs_in k0 name) as Hn
        by (rewrite <- strstr_occurs; congruence).
      rewrite IH. split.
      * intros (j & Hj & Hk & Hfirst). exists (S j). repeat split; [done..|].
        intros [|j'] k' Hlt Hk'; [by injection Hk' as <- |].
        apply (Hfirst j'); [lia | done].
      * intros ([|j] & Hj & Hk & Hfirst); [by injection Hj as <- |].
        exists j. repeat split; [done..|]. intros j' k' Hlt Hk'.
        apply (Hfirst (S j')); [lia | done].
Qed.

Lemma match_keyword_none name : ∀ kws,
  match_keyword name kws = None ↔ ∀ k, k ∈ kws → ¬ occurs_in k name.
Proof.
  induction kws as [|k0 kws IH]; cbn [match_keyword].
  - split; [|done]. intros _ k Hk. by apply not_elem_of_nil in Hk.
  - destruct (strstr name k0) eqn:Hs.
    + apply strstr_occurs in Hs. split; [done|]. intros H.
      exfalso. apply (H k0); [left | done].
    + assert (¬ occurs_in k0 name) as Hn
        by (rewrite <- strstr_occurs; congruence).
      rewrite IH. split.
      * intros H k [->|Hk]%elem_of_cons; [done | by apply H].
      * intros H k Hk. apply H. by right.
Qed.

Lemma match_keyword_elem name : ∀ kws k,
  match_keyword name kws = Some k → k ∈ kws.
Proof.
  induction kws as [|k0 kws IH]; intros k; cbn [match_keyword]; [done|].
  destruct (strstr name k0); [intros [= <-]; left | intros H; right; eauto].
Qed.

Lemma reason_fits k :
  k ∈ sensitive_keywords →
  snprintf 512 ("Contains keyword: " +:+ k) = "Contains keyword: " +:+ k.
Proof.
  intros Hk. unfold snprintf. apply strtake_all.
  unfold sensitive_keywords in Hk.
  repeat (apply elem_of_cons in Hk as [->|Hk];
          [apply Nat.leb_le; vm_compute; reflexivity|]).
  by apply not_elem_of_nil in Hk.
Qed.

End StringFacts.

(** ** The classifier: classification *)

Arguments Classifier.match_keyword : simpl never.
Arguments Classifier.first_keyword : simpl never.
Arguments Classifier.snprintf : simpl never.
Arguments Classifier.classified : simpl never.
Arguments Classifier.backup_path_of : simpl never.
Arguments Classifier.fmt_0d : simpl never.

Section ClassifyFacts.

Import Classifier.

Lemma classify_file_closed f :
  short_name f →
  classify_file f =
  Some (classified f,
        match first_keyword (filename f) with Some _ => true | None => false end).
Proof.
  unfold short_name. intros Hlen. unfold classify_file, classified, strncpy.
  rewrite strtake_all by lia. unfold c_str. rewrite decide_True by done.
  cbn. change (match_keyword _ sensitive_keywords)
    with (first_keyword (filename f)).
  destruct (first_keyword (filename f)) as [k|] eqn:Hk; [|done].
  rewrite reason_fits; [done|]. by eapply match_keyword_elem.
Qed.

Lemma classified_filename f : filename (classified f) = filename f.
Proof. unfold classified. by destruct (first_keyword (filename f)). Qed.

Lemma classified_filepath f : filepath (classified f) = filepath f.
Proof. unfold classified. by destruct (first_keyword (filename f)). Qed.

Lemma classified_idem f : classified (classified f) = classified f.
Proof.
  unfold classified at 1. rewrite classified_filename, classified_filepath.
  unfold classified. by destruct (first_keyword (filename f)).
Qed.

Lemma classify_loop_closed files : ∀ c,
  Forall short_name files →
  classify_loop files c =
  Some (classified <$> files,
        c + Z.of_nat (length (filter (λ f, is_Some (first_keyword (filename f)))
                                files))).
Proof.
  induction files as [|f files IH]; intros c Hall.
  - cbn. do 2 f_equal. lia.
  - apply Forall_cons in Hall as [Hf Hall]. cbn [classify_loop].
    rewrite classify_file_closed by done. rewrite filter_cons.
    specialize (IH (match first_keyword (filename f) with
                    | Some _ => c + 1 | None => c end) Hall).
    remember (length (filter (λ f, is_Some (first_keyword (filename f)))
                        files)) as cnt eqn:Hcnt.
    destruct (first_keyword (filename f)) as [k|] eqn:Hk.
    + rewrite decide_True by eauto. cbn [length]. rewrite <- Hcnt.
      cbn [mbind option_bind]. cbn beta iota. rewrite IH.
      change (Some (classified f :: (classified <$> files),
                    c + 1 + Z.of_nat cnt) =
              Some (classified <$> f :: files, c + Z.of_nat (S cnt))).
      rewrite fmap_cons. do 2 f_equal. lia.
    + rewrite decide_False by (by intros [? ?]). rewrite <- Hcnt.
      cbn [mbind option_bind]. cbn beta iota. rewrite IH. reflexivity.
Qed.

Lemma flagged_count files :
  Forall (λ f, is_sensitive f = 0) files →
  length (filter (λ f, is_sensitive f ≠ 0) (classified <$> files)) =
  length (filter (λ f, is_Some (first_keyword (filename f))) files).
Proof.
  induction 1 as [|f files Hf _ IH]; [done|].
  rewrite fmap_cons. unfold classified at 1.
  destruct (first_keyword (filename f)) as [k|] eqn:Hk.
  - rewrite !filter_cons_True by (rewrite ?Hk; cbn; eauto; done).
    cbn. by rewrite IH.
  - rewrite !filter_cons_False; [done | rewrite Hk; by intros [? ?] |].
    intros Hn. by apply Hn.
Qed.

End ClassifyFacts.

(** ** C4: what classification does *)

Section Classification.

Import Classifier.

(** C4.  On records whose names leave room for the terminator,
    [classify_files_with_llm] returns; record by record, the name is
    lower-cased and the keywords [tax, bank, passport, ssn, confidential,
    private, secret, password, key, invoice, contract, nda, medical, legal,
    financial] are tried in that order as substrings; the first one that
    occurs flags the record with reason "Contains keyword: <keyword>", a
    record in which none occurs is returned as it was, and the returned
    count is the number of records in which a keyword occurs, which is the
    number of flagged records when the records enter unflagged, as the
    scan leaves them. *)
Theorem classify_first_keyword (files : list FileInfo) :
  Forall (λ f, (String.length (filename f) < 255)%nat) files →
  ∃ files' n,
    classify_files_with_llm files = Some (files', n) ∧
    length files' = length files ∧
    (∀ i f, files !! i = Some f →
       match first_keyword (filename f) with
       | Some k =>
           files' !! i =
           Some {| filename := filename f; filepath := filepath f;
                   is_sensitive := 1;
                   reason := "Contains keyword: " +:+ k |}
       | None => files' !! i = Some f
       end) ∧
    n = Z.of_nat (length (filter (λ f, is_Some (first_keyword (filename f)))
                            files)) ∧
    (Forall (λ f, is_sensitive f = 0) files →
     n = Z.of_nat (length (filter (λ f, is_sensitive f ≠ 0) files'))) ∧
    sensitive_keywords =
      ["tax"; "bank"; "passport"; "ssn"; "confidential"; "private";
       "secret"; "password"; "key"; "invoice"; "contract"; "nda";
       "medical"; "legal"; "financial"] ∧
    (∀ name k,
       first_keyword name = Some k ↔
       ∃ j, sensitive_keywords !! j = Some k ∧
            occurs_in k (strmap tolower name) ∧
            ∀ j' k', (j' < j)%nat → sensitive_keywords !! j' = Some k' →
                     ¬ occurs_in k' (strmap tolower name)) ∧
    (∀ name,
       first_keyword name = None ↔
       ∀ k, k ∈ sensitive_keywords → ¬ occurs_in k (strmap tolower name)).
Proof.
  intros Hshort.
  exists (classified <$> files),
    (Z.of_nat (length (filter (λ f, is_Some (first_keyword (filename f)))
                         files))).
  split.
  { unfold classify_files_with_llm. by rewrite classify_loop_closed. }
  split; [by rewrite length_fmap|].
  split.
  { intros i f Hi. pose proof (list_lookup_fmap classified files i) as Hl.
    rewrite Hi in Hl. cbn in Hl. unfold classified in Hl.
    by destruct (first_keyword (filename f)). }
  split; [done|].
  split; [intros Hfresh; by rewrite flagged_count|].
  split; [done|].
  split; [intros; apply match_keyword_first | intros; apply match_keyword_none].
Qed.

Lemma classify_first_keyword_witness :
  classify_files_with_llm
    [Examples.record "tax_bank_statement.pdf" "docs/tax_bank_statement.pdf";
     Examples.record "vacation_photo.jpg" "docs/vacation_photo.jpg";
     Examples.record "Tax_2023.pdf" "docs/Tax_2023.pdf"]
  = Some
      ([{| filename := "tax_bank_statement.pdf";
           filepath := "docs/tax_bank_statement.pdf";
           is_sensitive := 1; reason := "Contains keyword: tax" |};
        Examples.record "vacation_photo.jpg" "docs/vacation_photo.jpg";
        {| filename := "Tax_2023.pdf"; filepath := "docs/Tax_2023.pdf";
           is_sensitive := 1; reason := "Contains keyword: tax" |}], 2).
Proof.
  destruct (classify_first_keyword
    [Examples.record "tax_bank_statement.pdf" "docs/tax_bank_statement.pdf";
     Examples.record "vacation_photo.jpg" "docs/vacation_photo.jpg";
     Examples.record "Tax_2023.pdf" "docs/Tax_2023.pdf"])
    as (files' & n & Hrun & _).
  - repeat (apply Forall_cons; split; [cbn; lia|]). constructor.
  - rewrite Hrun. vm_compute in Hrun. injection Hrun as <- <-. reflexivity.
Defined.

End Classification.

(** ** C10: classification looks at the name only *)

Section NameOnly.

Import Classifier.

(** C10.  The verdict is a function of the name alone.  For two records
    with the same [filename], whatever their [filepath]: either a keyword
    occurs in the name and both are flagged with the same reason, or none
    does and both are returned as they were; so two records that enter in
    the same state of the flag and reason (the scan leaves every record
    unflagged with an empty reason) leave with the same flag and reason.
    Classifying a list again, after a first pass has written its verdicts
    into it, changes no record and returns the same count. *)
Theorem classify_by_name_only (f1 f2 : FileInfo) (files : list FileInfo) :
  filename f1 = filename f2 →
  (String.length (filename f1) < 255)%nat →
  Forall (λ f, (String.length (filename f) < 255)%nat) files →
  (∃ g1 g2 hit,
     classify_file f1 = Some (g1, hit) ∧
     classify_file f2 = Some (g2, hit) ∧
     hit = bool_decide (is_Some (first_keyword (filename f1))) ∧
     (hit = true →
      is_sensitive g1 = 1 ∧ is_sensitive g2 = 1 ∧ reason g1 = reason g2) ∧
     (hit = false → g1 = f1 ∧ g2 = f2) ∧
     (is_sensitive f1 = is_sensitive f2 → reason f1 = reason f2 →
      is_sensitive g1 = is_sensitive g2 ∧ reason g1 = reason g2)) ∧
  (∃ files' n,
     classify_files_with_llm files = Some (files', n) ∧
     classify_files_with_llm files' = Some (files', n)).
Proof.
  intros Hname Hlen Hall. split.
  - exists (classified f1), (classified f2),
      (match first_keyword (filename f1) with
       | Some _ => true | None => false end).
    rewrite !classify_file_closed by (unfold short_name; rewrite <- ?Hname; done).
    rewrite <- Hname. unfold classified. rewrite <- Hname.
    destruct (first_keyword (filename f1)) as [k|] eqn:Hk.
    + rewrite bool_decide_eq_true_2 by eauto. by repeat split.
    + rewrite bool_decide_eq_false_2 by (by intros [? ?]). by repeat split.
  - unfold classify_files_with_llm.
    rewrite classify_loop_closed by done.
    eexists _, _. split; [reflexivity|].
    rewrite classify_loop_closed.
    + do 2 f_equal.
      * rewrite <- list_fmap_compose. apply list_fmap_ext.
        intros i f _. apply classified_idem.
      * do 2 f_equal. clear Hall.
        induction files as [|f files IH]; [done|].
        rewrite fmap_cons.
        destruct (first_keyword (filename f)) as [k|] eqn:Hk.
        -- rewrite !filter_cons_True
             by (rewrite ?classified_filename, Hk; eauto).
           cbn. by rewrite IH.
        -- rewrite !filter_cons_False
             by (rewrite ?classified_filename, Hk; by intros [? ?]).
           done.
    + apply Forall_fmap. eapply Forall_impl; [exact Hall|].
      intros f Hf. unfold short_name. cbn. by rewrite classified_filename.
Qed.

Lemma classify_by_name_only_witness :
  (fst <$> classify_file (Examples.record "Bank-2024.csv" "a/Bank-2024.csv"))
  = Some {| filename := "Bank-2024.csv"; filepath := "a/Bank-2024.csv";
            is_sensitive := 1; reason := "Contains keyword: bank" |} ∧
  (fst <$> classify_file (Examples.record "Bank-2024.csv" "b/c/Bank-2024.csv"))
  = Some {| filename := "Bank-2024.csv"; filepath := "b/c/Bank-2024.csv";
            is_sensitive := 1; reason := "Contains keyword: bank" |}.
Proof.
  destruct (classify_by_name_only
              (Examples.record "Bank-2024.csv" "a/Bank-2024.csv")
              (Examples.record "Bank-2024.csv" "b/c/Bank-2024.csv")
              [Examples.record "notes.txt" "a/notes.txt"])
    as ((g1 & g2 & hit & H1 & H2 & _) & _).
  - reflexivity.
  - cbn. lia.
  - apply Forall_cons. split; [cbn; lia | constructor].
  - rewrite H1, H2. vm_compute in H1, H2.
    injection H1 as <- _. injection H2 as <- _. split; reflexivity.
Defined.

End NameOnly.

(** ** The classifier: the directory scan *)

Section ScanFacts.

Import Classifier.

Lemma full_path_fits dir_path d_name :
  fits dir_path d_name →
  full_path_of dir_path d_name = dir_path +:+ "/" +:+ d_name.
Proof.
  intros [_ H]. unfold full_path_of, snprintf. apply strtake_all.
  rewrite !app_length_str. cbn in *. lia.
Qed.

Lemma new_record_fits dir_path d_name :
  fits dir_path d_name →
  new_record d_name (full_path_of dir_path d_name) = scanned dir_path d_name.
Proof.
  intros Hfit. rewrite full_path_fits by done. destruct Hfit as [Hn Hp].
  unfold new_record, scanned, strncpy. f_equal.
  - by apply strtake_all.
  - apply strtake_all. rewrite !app_length_str. cbn in *. lia.
Qed.

Lemma scan_loop_closed w dir_path entries : ∀ files,
  Forall (fits dir_path) entries →
  (length files ≤ MAX_FILES)%nat →
  scan_loop w dir_path entries files =
  files ++ take (MAX_FILES - length files)
             (scanned dir_path <$> filter (λ d, kept w dir_path d) entries).
Proof.
  induction entries as [|d rest IH]; intros files Hfit Hlen.
  - cbn. by rewrite take_nil, app_nil_r.
  - apply Forall_cons in Hfit as [Hd Hrest]. cbn [scan_loop].
    rewrite filter_cons.
    case_decide as Hroom.
    + case_decide as Hdot.
      * assert (kept w dir_path d = false) as Hk.
        { unfold kept. rewrite bool_decide_eq_false_2; [done | tauto]. }
        rewrite decide_False by (rewrite Hk; exact id). by apply IH.
      * assert (kept w dir_path d =
                match stat w (dir_path +:+ "/" +:+ d) with
                | Some st => S_ISREG st
                | None => false
                end) as Hk.
        { unfold kept. rewrite bool_decide_eq_true_2; [done | tauto]. }
        rewrite full_path_fits by done.
        destruct (stat w (dir_path +:+ "/" +:+ d)) as [st|] eqn:Hst.
        -- destruct (S_ISREG st) eqn:Hreg.
           ++ rewrite decide_True by (rewrite Hk; exact I). rewrite fmap_cons.
              rewrite <- (full_path_fits dir_path d) by done.
              rewrite new_record_fits by done.
              rewrite IH by (rewrite ?length_app; cbn; try done; lia).
              rewrite length_app. cbn [length].
              replace (MAX_FILES - length files)%nat
                with (S (MAX_FILES - (length files + 1)))%nat by lia.
              rewrite firstn_cons. by rewrite <- app_assoc.
           ++ rewrite decide_False by (rewrite Hk; exact id). by apply IH.
        -- rewrite decide_False by (rewrite Hk; exact id). by apply IH.
    + replace (MAX_FILES - length files)%nat with 0%nat by lia.
      by rewrite take_0, app_nil_r.
Qed.

Lemma scan_directory_closed w dir_path entries :
  listing w !! dir_path = Some entries →
  Forall (fits dir_path) entries →
  scan_directory w dir_path [] =
  (take MAX_FILES
     (scanned dir_path <$> filter (λ d, kept w dir_path d) entries), []).
Proof.
  intros Hopen Hfit. unfold scan_directory. rewrite Hopen.
  rewrite scan_loop_closed by (try done; cbn; lia).
  cbn [length app]. by rewrite Nat.sub_0_r.
Qed.

End ScanFacts.

(** ** C6: the directory scan *)

Section Scan.

Import Classifier.

(** C6, as the code has it.  For a directory that can be opened and whose
    entry paths fit the path buffers, [scan_directory] yields, in directory
    order, one unflagged record per entry that is neither [.] nor [..] and
    that [stat] reports as a regular file -- [stat] follows symbolic links,
    so a link to a regular file is kept, while directories, special files
    and links that do not lead to a regular file are left out -- up to
    [MAX_FILES] records; when there are at most [MAX_FILES] such entries
    every one of them has its record.  A directory that cannot be opened
    yields no record and one [perror] line. *)
Theorem scan_directory_regular_entries (w : world) (dir_path : string)
    (entries : list string) :
  listing w !! dir_path = Some entries →
  Forall (fits dir_path) entries →
  scan_directory w dir_path [] =
    (take MAX_FILES
       (scanned dir_path <$> filter (λ d, kept w dir_path d) entries), []) ∧
  ((length (filter (λ d, kept w dir_path d) entries) ≤ MAX_FILES)%nat →
   fst (scan_directory w dir_path []) =
   scanned dir_path <$> filter (λ d, kept w dir_path d) entries) ∧
  (length (fst (scan_directory w dir_path [])) ≤ MAX_FILES)%nat ∧
  (∀ d, kept w dir_path d ↔
        d ≠ "." ∧ d ≠ ".." ∧
        ∃ content, stat w (dir_path +:+ "/" +:+ d) = Some (Regular content)) ∧
  (∀ w0 d0, listing w0 !! d0 = None →
            scan_directory w0 d0 [] = ([], [Perror "Could not open directory"])).
Proof.
  intros Hopen Hfit.
  pose proof (scan_directory_closed w dir_path entries Hopen Hfit) as Hscan.
  split; [exact Hscan|]. rewrite Hscan. cbn [fst].
  split; [intros Hle; apply take_ge; by rewrite length_fmap|].
  split; [rewrite length_take; lia|].
  split.
  - intros d. unfold kept. rewrite andb_True, bool_decide_spec.
    destruct (stat w (dir_path +:+ "/" +:+ d)) as [[c| | |]|]; cbn.
    + split; [intros [[? ?] _]; eauto | intros (? & ? & _); done].
    + split; [intros [_ []] | intros (_ & _ & c & [=])].
    + split; [intros [_ []] | intros (_ & _ & c & [=])].
    + split; [intros [_ []] | intros (_ & _ & c & [=])].
    + split; [intros [_ []] | intros (_ & _ & c & [=])].
  - intros w0 d0 Hnone. unfold scan_directory. by rewrite Hnone.
Qed.

Lemma scan_directory_regular_entries_witness :
  scan_directory Examples.docs_world "docs" [] =
  ([Classifier.scanned "docs" "Tax_2023.pdf";
    Classifier.scanned "docs" "vacation_photo.jpg";
    Classifier.scanned "docs" "ledger"], []).
Proof.
  destruct (scan_directory_regular_entries Examples.docs_world "docs"
              ["."; ".."; "Tax_2023.pdf"; "old"; "vacation_photo.jpg";
               "ledger"]) as (Hscan & _).
  - reflexivity.
  - repeat (apply Forall_cons; split; [split; cbn; lia|]). constructor.
  - rewrite Hscan. vm_compute. reflexivity.
Defined.

(** C6, as stated, fails on a directory whose only entry besides [.] and
    [..] is a symbolic link to a regular file: the directory holds no
    regular file, and the scan yields a record for the link. *)
Lemma scan_directory_keeps_symlink :
  listing Examples.link_world !! "inbox" = Some ["."; ".."; "passport.pdf"] ∧
  fs Examples.link_world !! "inbox/passport.pdf"
  = Some (Symlink "/home/u/scan0001.pdf") ∧
  filter (λ d, regular_entry Examples.link_world "inbox" d)
    ["."; ".."; "passport.pdf"] = [] ∧
  fst (scan_directory Examples.link_world "inbox" [])
  = [Classifier.scanned "inbox" "passport.pdf"].
Proof. repeat split; vm_compute; reflexivity. Qed.

End Scan.

(** ** The classifier: backups *)

Section BackupFacts.

Import Classifier.







Lemma resolve_unfold fuel f path :
  resolve fuel f path =
  match f !! path with
  | Some (Symlink target) =>
      match fuel with
      | O => None
      | S fuel' => resolve fuel' f target
      end
  | _ => Some path
  end.
Proof. by destruct fuel. Qed.




End BackupFacts.

(** ** C7: the backup of one file *)

Section Backup.

Import Classifier.








End Backup.

(** ** C8: the exit status *)

Section ExitStatus.

Import Classifier.

Lemma create_backup_total w f :
  readable_record f → ∃ r, create_backup w f = Some r.
Proof.
  intros [Hname Hpath]. unfold create_backup, c_str.
  rewrite !decide_True by first [exact Hname | exact Hpath].
  cbn [mbind option_bind].
  destruct (fopen_rb _ _) as [src|]; [|eauto].
  destruct (fopen_wb _ _) as [[dst w']|]; eauto.
Qed.

Lemma backup_loop_total files : ∀ w n,
  Forall readable_record files → ∃ r, backup_loop w files n = Some r.
Proof.
  induction files as [|f files IH]; intros w n Hall; [by eexists|].
  apply Forall_cons in Hall as [Hf Hall]. cbn [backup_loop].
  case_decide; [|by apply IH].
  destruct Hf as [Hname Hpath]. unfold c_str at 1.
  rewrite decide_True by exact Hname. cbn [mbind option_bind].
  destruct (create_backup_total w f) as [[w1 evs] ->]; [done|].
  cbn [mbind option_bind]. cbn beta iota.
  destruct (IH w1 (n + 1) Hall) as [[[w2 n'] evs'] ->].
  cbn [mbind option_bind]. cbn beta iota. eauto.
Qed.

Lemma scanned_readable dir_path d :
  (String.length d < 255 ∧
   String.length dir_path + 1 + String.length d < 511)%nat →
  readable_record (scanned dir_path d).
Proof.
  intros [Hd Hp]. split; [exact Hd|]. cbn [filepath scanned].
  rewrite !app_length_str. cbn. lia.
Qed.

Lemma classified_readable f : readable_record f → readable_record (classified f).
Proof.
  unfold readable_record, short_name.
  by rewrite classified_filename, classified_filepath.
Qed.

(** What [scan_directory] returns in [main]: records that can be read
    back, whenever the entry names and paths leave room for the
    terminators. *)
Lemma scan_directory_readable w dir_path :
  (∀ entries, listing w !! dir_path = Some entries →
     Forall (λ d, (String.length d < 255 ∧
                   String.length dir_path + 1 + String.length d < 511)%nat)
       entries) →
  Forall readable_record (fst (scan_directory w dir_path [])).
Proof.
  intros Hall. destruct (listing w !! dir_path) as [entries|] eqn:Hopen.
  - specialize (Hall entries eq_refl).
    rewrite (scan_directory_closed w dir_path entries Hopen).
    + cbn [fst]. apply Forall_take, Forall_fmap.
      apply Forall_forall. intros d [_ Hd]%list_elem_of_filter.
      apply scanned_readable. eapply Forall_forall in Hall; eauto.
    + eapply Forall_impl; [exact Hall|]. intros d [Hd Hp].
      unfold fits, MAX_FILENAME_LEN. lia.
  - unfold scan_directory. rewrite Hopen. constructor.
Qed.

(** C8.  Every run of [main] in which the entry names and paths of the
    scanned directory leave room for their terminators returns, and it
    returns 0: whether the directory can be opened or not, whether files
    are found, flagged, backed up or fail to be. *)
Theorem main_returns_zero (argv : list string) (w : world) :
  (∀ entries, listing w !! scan_dir_of argv = Some entries →
     Forall (λ d, (String.length d < 255 ∧
                   String.length (scan_dir_of argv) + 1 + String.length d
                   < 511)%nat) entries) →
  ∃ w' out, main argv w = Some (0, w', out).
Proof.
  intros Hall. apply scan_directory_readable in Hall. unfold main.
  destruct (scan_directory w (scan_dir_of argv) []) as [files errs].
  cbn [fst] in Hall. case_decide; [eauto|].
  unfold classify_files_with_llm.
  rewrite classify_loop_closed
    by (eapply Forall_impl; [exact Hall | by intros f [? _]]).
  cbn [mbind option_bind]. cbn beta iota.
  case_decide; [eauto|].
  destruct (create_backup_directory w) as [w1 evs].
  destruct (backup_loop_total (classified <$> files) w1 0)
    as [[[w2 n] evs'] ->].
  { apply Forall_fmap. eapply Forall_impl; [exact Hall|].
    intros f Hf. by apply classified_readable. }
  cbn [mbind option_bind]. cbn beta iota. eauto.
Qed.

Lemma main_returns_zero_witness :
  (λ r, r.1.1) <$> main ["llm_backup"; "docs"] Examples.docs_world = Some 0 ∧
  (λ r, r.1.1) <$> main ["llm_backup"; "missing"] Examples.docs_world = Some 0 ∧
  main ["llm_backup"; "docs"] Examples.locked_world =
    Some (0, tick Examples.locked_world,
          [Banner; Scanning "docs"; Found 3; Analyzing; Identified 1;
           CreatedBackupDir;
           SensitiveFile "Tax_2023.pdf" "Contains keyword: tax";
           BackupCreateFailed; Completed 1]).
Proof.
  destruct (main_returns_zero ["llm_backup"; "docs"] Examples.docs_world)
    as (w1 & out1 & H1).
  { intros entries Hopen. vm_compute in Hopen. injection Hopen as <-.
    repeat (apply Forall_cons; split;
            [split; apply Nat.ltb_lt; vm_compute; reflexivity|]).
    constructor. }
  destruct (main_returns_zero ["llm_backup"; "missing"] Examples.docs_world)
    as (w2 & out2 & H2).
  { intros entries Hopen. vm_compute in Hopen. discriminate Hopen. }
  rewrite H1, H2. split; [reflexivity|]. split; [reflexivity|].
  vm_compute. reflexivity.
Defined.

End ExitStatus.

(** * Further properties of the three programs *)

(** ** The byte transform: what a call reads and writes *)

Section XorBounds.

Lemma xor_loop_inv n : ∀ key m base i m',
  xor_loop key m base i n = Some m' →
  length m' = length m ∧
  ((0 < n)%nat →
   0 ≤ base + i ∧ base + i + Z.of_nat n ≤ Z.of_nat (length m)) ∧
  (∀ a, ¬ (base + i ≤ a < base + i + Z.of_nat n) → rd8 m' a = rd8 m a) ∧
  (Forall byte_ok m → Forall byte_ok m').
Proof.
  induction n as [|n IH]; intros key m base i m' Hrun.
  - cbn in Hrun. injection Hrun as <-. repeat split; try done; lia.
  - cbn [xor_loop] in Hrun.
    destruct (rd8 m (base + i)) as [d|] eqn:Hd; [|done]. cbn in Hrun.
    destruct (key !! Z.to_nat (i mod KEY_SIZE)) as [k|] eqn:Hk; [|done].
    cbn in Hrun.
    destruct (wr8 m (base + i) (xor_byte d k)) as [m1|] eqn:Hw; [|done].
    cbn in Hrun. apply wr8_Some in Hw as [Hb ->].
    apply IH in Hrun as (Hlen & Hbd & Hfr & Hby).
    rewrite length_insert in Hlen, Hbd.
    split; [done|]. split; [|split].
    + intros _. destruct n as [|n]; [lia|].
      specialize (Hbd ltac:(lia)). lia.
    + intros a Ha. rewrite Hfr by lia. apply rd8_insert_ne; lia.
    + intros Hm. apply Hby. apply Forall_insert; [done | apply xor_byte_ok].
Qed.

Lemma xor_bytes_inv key m base len m' :
  xor_bytes key m base len = Some m' →
  length m' = length m ∧
  (0 < len → 0 ≤ base ∧ base + len ≤ Z.of_nat (length m)) ∧
  (∀ a, ¬ (base ≤ a < base + len) → rd8 m' a = rd8 m a) ∧
  (Forall byte_ok m → Forall byte_ok m').
Proof.
  unfold xor_bytes. intros (Hlen & Hbd & Hfr & Hby)%xor_loop_inv.
  split; [done|]. split; [|split; [|done]].
  - intros Hpos. specialize (Hbd ltac:(lia)). lia.
  - intros a Ha. apply Hfr. lia.
Qed.

End XorBounds.

Section XorCalls.

(** X1.  A call of any of the four transform functions ([xor_crypt] and
    [xor_crypt_file] of the ELF program, [xor_crypt] and
    [xor_crypt_additional] of the PE program) that runs without an access
    outside the buffer had its range [data .. data+len-1] inside the
    buffer; it returns a buffer of the same length, in which every byte
    outside that range is the byte that was there, and every byte is
    still a byte. *)
Theorem xor_crypt_writes_only_its_range (est : Elf.state) (pst : Pe.state)
    (additional_key m m' : list Z) (data len : Z) :
  Elf.xor_crypt est m data len = Some m' ∨
  Elf.xor_crypt_file est m data len = Some m' ∨
  Pe.xor_crypt pst m data len = Some m' ∨
  Pe.xor_crypt_additional m data len additional_key = Some m' →
  length m' = length m ∧
  (0 < len → 0 ≤ data ∧ data + len ≤ Z.of_nat (length m)) ∧
  (∀ a, ¬ (data ≤ a < data + len) → rd8 m' a = rd8 m a) ∧
  (Forall byte_ok m → Forall byte_ok m').
Proof.
  unfold Elf.xor_crypt, Elf.xor_crypt_file, Pe.xor_crypt,
    Pe.xor_crypt_additional.
  intros [H|[H|[H|H]]]; exact (xor_bytes_inv _ _ _ _ _ H).
Qed.

Lemma xor_crypt_writes_only_its_range_witness :
  Elf.xor_crypt (Examples.elf_state Examples.key_mixed Examples.key3 [] None)
    [7; 8; 9; 10; 11; 12] 2 3 = Some [7; 8; 246; 26; 246; 12] ∧
  length [7; 8; 246; 26; 246; 12] = length [7; 8; 9; 10; 11; 12] ∧
  rd8 [7; 8; 246; 26; 246; 12] 5 = rd8 [7; 8; 9; 10; 11; 12] 5.
Proof.
  assert (Elf.xor_crypt
            (Examples.elf_state Examples.key_mixed Examples.key3 [] None)
            [7; 8; 9; 10; 11; 12] 2 3 = Some [7; 8; 246; 26; 246; 12]) as Hrun
    by (vm_compute; reflexivity).
  destruct (xor_crypt_writes_only_its_range
              (Examples.elf_state Examples.key_mixed Examples.key3 [] None)
              (Examples.pe_state ORIG_KEY []) [] _ _ 2 3 (or_introl Hrun))
    as (Hlen & _ & Hout & _).
  split; [exact Hrun|]. split; [exact Hlen|]. apply Hout. lia.
Defined.



End XorCalls.

(** ** The ELF program: section lookup *)

Section ElfLookup.

Import Elf ElfMore.

Lemma rdbytes_S n m a :
  rdbytes (S n) m a =
  b ← rd8 m a; r ← rdbytes n m (a + 1); Some (b :: r).
Proof. reflexivity. Qed.

Lemma streq_at_true s : ∀ m a,
  streq_at m a s = Some true ↔
  rdbytes (S (length s)) m a = Some (s ++ [0]).
Proof.
  induction s as [|x s IH]; intros m a.
  - cbn [streq_at length app]. rewrite rdbytes_S.
    destruct (rd8 m a) as [c|]; cbn; [|done].
    split.
    + intros [= Hc]. apply bool_decide_eq_true in Hc. by subst.
    + intros [= ->]. done.
  - cbn [streq_at length app]. rewrite (rdbytes_S (S (length s))).
    destruct (rd8 m a) as [c|]; cbn; [|done].
    case_decide as Hc.
    + subst c. rewrite IH.
      destruct (rdbytes (S (length s)) m (a + 1)) as [r|]; cbn; [|done].
      split; [by intros [= ->] | by intros [= ->]].
    + split; [done|].
      destruct (rdbytes (S (length s)) m (a + 1)) as [r|]; cbn; [|done].
      intros [= -> _]. done.
Qed.

Lemma get_section_loop_some n : ∀ m shoff strtab name i p,
  get_section_loop m shoff strtab (codes name) i n = Some (Some p) ↔
  ∃ k, (k < n)%nat ∧ p = shoff + SHDR_SIZE * (i + Z.of_nat k) ∧
       header_named m shoff strtab name (i + Z.of_nat k) = Some true ∧
       ∀ j, (j < k)%nat →
            header_named m shoff strtab name (i + Z.of_nat j) = Some false.
Proof.
  induction n as [|n IH]; intros m shoff strtab name i p.
  - cbn. split; [done | intros (k & Hk & _); lia].
  - cbn [get_section_loop].
    assert (header_named m shoff strtab name (i + Z.of_nat 0)
            = header_named m shoff strtab name i) as H0
      by (f_equal; lia).
    destruct (header_named m shoff strtab name i) as [[|]|] eqn:Hi;
      unfold header_named in Hi;
      destruct (sh_name m (shoff + SHDR_SIZE * i)) as [nm|]; cbn in Hi |- *;
      try done; rewrite ?Hi; cbn.
    + split.
      * intros [= <-]. exists 0%nat. rewrite H0.
        split; [lia|]. split; [f_equal; lia|]. split; [done|]. intros; lia.
      * intros ([|k] & _ & -> & Hk & Hfirst).
        -- do 3 f_equal. lia.
        -- specialize (Hfirst 0%nat ltac:(lia)). congruence.
    + rewrite IH. split.
      * intros (k & Hk & -> & Ht & Hfirst). exists (S k).
        split; [lia|]. split; [f_equal; lia|].
        split; [rewrite <- Ht; f_equal; lia|].
        intros [|j] Hj; [by rewrite H0|].
        rewrite <- (Hfirst j) by lia. f_equal. lia.
      * intros ([|k] & Hk & -> & Ht & Hfirst); [congruence|].
        exists k. split; [lia|]. split; [f_equal; lia|].
        split; [rewrite <- Ht; f_equal; lia|].
        intros j Hj. rewrite <- (Hfirst (S j)) by lia. f_equal. lia.
    + split; [done|]. intros ([|k] & _ & _ & Hk & Hfirst).
      * congruence.
      * specialize (Hfirst 0%nat ltac:(lia)). congruence.
    + split; [done|]. intros ([|k] & _ & _ & Hk & Hfirst).
      * congruence.
      * specialize (Hfirst 0%nat ltac:(lia)). congruence.
Qed.

Lemma get_section_loop_none n : ∀ m shoff strtab name i,
  get_section_loop m shoff strtab (codes name) i n = Some None ↔
  ∀ j, (j < n)%nat →
       header_named m shoff strtab name (i + Z.of_nat j) = Some false.
Proof.
  induction n as [|n IH]; intros m shoff strtab name i.
  - cbn. split; [intros _ j Hj; lia | done].
  - cbn [get_section_loop].
    assert (header_named m shoff strtab name (i + Z.of_nat 0)
            = header_named m shoff strtab name i) as H0
      by (f_equal; lia).
    destruct (header_named m shoff strtab name i) as [[|]|] eqn:Hi;
      unfold header_named in Hi;
      destruct (sh_name m (shoff + SHDR_SIZE * i)) as [nm|]; cbn in Hi |- *;
      try done; rewrite ?Hi; cbn.
    + split; [done|]. intros H. specialize (H 0%nat ltac:(lia)). congruence.
    + rewrite IH. split.
      * intros H [|j] Hj; [by rewrite H0|].
        rewrite <- (H j) by lia. f_equal. lia.
      * intros H j Hj. rewrite <- (H (S j)) by lia. f_equal. lia.
    + split; [done|]. intros H. specialize (H 0%nat ltac:(lia)). congruence.
    + split; [done|]. intros H. specialize (H 0%nat ltac:(lia)). congruence.
Qed.

(** What [get_section] reads before its loop. *)
Lemma get_section_unfold m name shoff strndx strtab shnum :
  e_shoff m = Some shoff → e_shstrndx m = Some strndx →
  sh_offset m (shoff + SHDR_SIZE * strndx) = Some strtab →
  e_shnum m = Some shnum →
  get_section m name =
  get_section_loop m shoff strtab (codes name) 0 (Z.to_nat shnum).
Proof.
  intros H1 H2 H3 H4. unfold get_section. rewrite H1. cbn.
  rewrite H2. cbn. rewrite H3. cbn. by rewrite H4.
Qed.


End ElfLookup.

Section ElfLookupSpec.

Import Elf ElfMore.

(** X3.  [get_section] returns the address of the first header of the
    section-header table, in table order, whose name -- the bytes found in
    the string table at the header's [sh_name] -- is the name asked for
    followed by a zero byte; headers after the first match are not looked
    at, and the result is [NULL] exactly when no header of the table has
    that name. *)
Theorem get_section_first_match (m : list Z) (name : string)
    (shoff strndx strtab shnum : Z) :
  e_shoff m = Some shoff → e_shstrndx m = Some strndx →
  sh_offset m (shoff + SHDR_SIZE * strndx) = Some strtab →
  e_shnum m = Some shnum →
  (∀ p, get_section m name = Some (Some p) ↔
     ∃ i, 0 ≤ i < shnum ∧ p = shoff + SHDR_SIZE * i ∧
          header_named m shoff strtab name i = Some true ∧
          ∀ j, 0 ≤ j < i →
               header_named m shoff strtab name j = Some false) ∧
  (get_section m name = Some None ↔
     ∀ j, 0 ≤ j < shnum →
          header_named m shoff strtab name j = Some false) ∧
  (∀ i nm, sh_name m (shoff + SHDR_SIZE * i) = Some nm →
     (header_named m shoff strtab name i = Some true ↔
      rdbytes (S (length (codes name))) m (strtab + nm)
      = Some (codes name ++ [0]))).
Proof.
  intros H1 H2 H3 H4.
  rewrite (get_section_unfold m name shoff strndx strtab shnum) by done.
  split; [|split].
  - intros p. rewrite get_section_loop_some. split.
    + intros (k & Hk & -> & Ht & Hfirst). exists (Z.of_nat k).
      split; [lia|]. split; [done|]. split; [exact Ht|].
      intros j Hj. rewrite <- (Hfirst (Z.to_nat j)) by lia. f_equal. lia.
    + intros (i & Hi & -> & Ht & Hfirst). exists (Z.to_nat i).
      split; [lia|]. split; [do 2 f_equal; lia|].
      split; [rewrite <- Ht; f_equal; lia|].
      intros j Hj. apply Hfirst. lia.
  - rewrite get_section_loop_none. split.
    + intros H j Hj. rewrite <- (H (Z.to_nat j)) by lia. f_equal. lia.
    + intros H j Hj. apply H. lia.
  - intros i nm Hnm. unfold header_named. rewrite Hnm. cbn.
    apply streq_at_true.
Qed.

Lemma get_section_first_match_witness :
  get_section Examples.elf_poly ".data" = Some (Some 64) ∧
  get_section Examples.elf_poly ".text" = Some None.
Proof.
  destruct (get_section_first_match Examples.elf_poly ".data" 64 1 320 4)
    as (Hsome & _); try (vm_compute; reflexivity).
  destruct (get_section_first_match Examples.elf_poly ".text" 64 1 320 4)
    as (_ & Hnone & _); try (vm_compute; reflexivity).
  split.
  - apply Hsome. exists 0. split; [lia|]. split; [reflexivity|].
    split; [vm_compute; reflexivity | intros j Hj; lia].
  - apply Hnone. intros j Hj.
    assert (j = 0 ∨ j = 1 ∨ j = 2 ∨ j = 3) as [->|[->|[->| ->]]] by lia;
      vm_compute; reflexivity.
Defined.

End ElfLookupSpec.

(** ** The ELF program: how [mutate] ends *)

(** One step through the body of [mutate] or [mutate_executable], in a
    hypothesis that says how the run ended. *)
Ltac run_step H :=
  match type of H with
  | context [if negb ?b then _ else _] =>
      destruct b eqn:?; cbn [negb] in H
  | context [mbind _ ?x] =>
      let E := fresh "E" in
      destruct x eqn:E; cbn [mbind option_bind] in H; [|discriminate H]
  | context [match ?x with Some _ => _ | None => _ end] =>
      let E := fresh "E" in destruct x eqn:E
  end.

Section ElfOutcomes.

Import Elf ElfMore.


Lemma mutate_exited_inv e st data filesize st' data' code msg :
  mutate e st data filesize = Some (st', data', Exited code msg) →
  code = EXIT_FAILURE ∧
  (disk st' = disk st ∧
   (msg = "ERROR: Could not find polymorphic section" +:+ nl ∨
    msg = "ERROR: Could not make memory writable" +:+ nl ∨
    msg = "ERROR: Could not restore memory protection" +:+ nl ∨
    msg = "ERROR: Could not remove old file" +:+ nl) ∨
   unlink_ok e = true ∧ open_ok e = false ∧ disk st' = None ∧
   msg = "ERROR: Could not create new file" +:+ nl ∨
   unlink_ok e = true ∧ open_ok e = true ∧ write_ok e = false ∧
   disk st' = Some [] ∧ msg = "ERROR: Could not write file" +:+ nl).
Proof.
  unfold mutate, die. intros H.
  repeat run_step H; simplify_eq;
    (split; [reflexivity|]); cbn; auto 10.
Qed.


End ElfOutcomes.

(** ** The ELF program: lookups in a buffer changed outside the tables *)

Section ElfFrames.

Import Elf ElfMore.











End ElfFrames.

(** ** The ELF program: a complete run of [mutate] *)

Section ElfFullRun.

Import Elf ElfMore.

Lemma poly_name_nonzero : Forall (λ c, c ≠ 0) (codes CUSTOM_SECTION).
Proof. repeat (apply Forall_cons; split; [done|]). constructor. Qed.


Lemma elf_draw_key_length e n : length (draw_key e n) = 8%nat.
Proof. done. Qed.




End ElfFullRun.

(** ** The ELF program: failure, success, keys, [main] *)

Section ElfEnds.

Import Elf ElfMore.

(** X5.  When [mutate] ends in [die], the exit status is [EXIT_FAILURE]
    and the file is in one of three states: as it was on entry (no
    [.poly] section, [mprotect] refused, or [unlink] failed); gone,
    when [unlink] succeeded and the file could not be created again; or
    empty, when it was created and [write] failed.  The replacement of the
    file is not atomic. *)
Theorem mutate_failure_leaves_or_loses_file (e : env) (st st' : state)
    (data data' : list Z) (filesize code : Z) (msg : string) :
  mutate e st data filesize = Some (st', data', Exited code msg) →
  code = EXIT_FAILURE ∧
  (disk st' = disk st ∧
   (msg = "ERROR: Could not find polymorphic section" +:+ nl ∨
    msg = "ERROR: Could not make memory writable" +:+ nl ∨
    msg = "ERROR: Could not restore memory protection" +:+ nl ∨
    msg = "ERROR: Could not remove old file" +:+ nl) ∨
   unlink_ok e = true ∧ open_ok e = false ∧ disk st' = None ∧
   msg = "ERROR: Could not create new file" +:+ nl ∨
   unlink_ok e = true ∧ open_ok e = true ∧ write_ok e = false ∧
   disk st' = Some [] ∧ msg = "ERROR: Could not write file" +:+ nl).
Proof. apply mutate_exited_inv. Qed.

Lemma mutate_failure_leaves_or_loses_file_witness :
  ∃ st' data',
    mutate MoreExamples.elf_env_no_create
      (Examples.elf_state ORIG_KEY ORIG_KEY Examples.elf_poly
         (Some Examples.elf_poly))
      Examples.elf_poly 384
    = Some (st', data',
            Exited 1 ("ERROR: Could not create new file" +:+ nl)) ∧
    disk st' = None.
Proof.
  eassert (mutate MoreExamples.elf_env_no_create
             (Examples.elf_state ORIG_KEY ORIG_KEY Examples.elf_poly
                (Some Examples.elf_poly))
             Examples.elf_poly 384 = Some (_, _, Exited _ _)) as Hrun
    by (vm_compute; reflexivity).
  destruct (mutate_failure_leaves_or_loses_file _ _ _ _ _ _ _ _ Hrun)
    as (_ & [(_ & Hmsg)|[(_ & _ & Hdisk & _)|(_ & Hopen & _)]]).
  - exfalso. destruct Hmsg as [H|[H|[H|H]]]; vm_compute in H; discriminate H.
  - eexists _, _. split; [exact Hrun | exact Hdisk].
  - discriminate Hopen.
Defined.



End ElfEnds.

Section Keys.

Lemma draw_byte_range r : 0 ≤ r → to_uchar (Z.rem r 255) = r mod 255
                                   ∧ 0 ≤ r mod 255 ≤ 254.
Proof.
  intros Hr. rewrite Z.rem_mod_nonneg by lia.
  pose proof (Z.mod_pos_bound r 255 ltac:(lia)).
  split; [|lia]. apply to_uchar_id. unfold byte_ok. lia.
Qed.

(** X7.  A key drawn by the loop [k[i] = (unsigned char)(rand() % 255)]
    has eight bytes; byte [i] is the [i]-th of the eight consecutive
    values of [rand] taken modulo 255, so it lies between 0 and 254: the
    byte 255 is never drawn.  ([rand] returns values from 0 to
    [RAND_MAX].) *)
Theorem drawn_key_bytes (e : Elf.env) (pe : Pe.env) (n : nat) :
  (∀ i, 0 ≤ Elf.rand e i) → (∀ i, 0 ≤ Pe.rand pe i) →
  length (Elf.draw_key e n) = 8%nat ∧ length (Pe.draw_key pe n) = 8%nat ∧
  (∀ i, (i < 8)%nat →
     Elf.draw_key e n !! i = Some (Elf.rand e (n + i) mod 255) ∧
     Pe.draw_key pe n !! i = Some (Pe.rand pe (n + i) mod 255)) ∧
  Forall (λ b, 0 ≤ b ≤ 254) (Elf.draw_key e n) ∧
  Forall (λ b, 0 ≤ b ≤ 254) (Pe.draw_key pe n).
Proof.
  intros He Hp. split; [done|]. split; [done|].
  unfold Elf.draw_key, Pe.draw_key. split; [|split].
  - intros i Hi. rewrite !list_lookup_fmap, !lookup_seq_lt by done. cbn.
    destruct (draw_byte_range _ (He (n + i)%nat)) as [-> _].
    destruct (draw_byte_range _ (Hp (n + i)%nat)) as [-> _]. done.
  - apply Forall_fmap, Forall_forall. intros i _. cbn.
    destruct (draw_byte_range _ (He (n + i)%nat)) as [-> ?]. done.
  - apply Forall_fmap, Forall_forall. intros i _. cbn.
    destruct (draw_byte_range _ (Hp (n + i)%nat)) as [-> ?]. done.
Qed.

Lemma drawn_key_bytes_witness :
  Elf.draw_key Examples.elf_env 0 !! 7%nat = Some 15 ∧
  Forall (λ b, 0 ≤ b ≤ 254) (Pe.draw_key Examples.pe_env 8).
Proof.
  destruct (drawn_key_bytes Examples.elf_env Examples.pe_env 0)
    as (_ & _ & Hl & _); [intros i; cbn; lia | intros i; cbn; lia |].
  destruct (drawn_key_bytes Examples.elf_env Examples.pe_env 8)
    as (_ & _ & _ & _ & Hp); [intros i; cbn; lia | intros i; cbn; lia |].
  split; [|exact Hp].
  destruct (Hl 7%nat ltac:(lia)) as [-> _]. vm_compute. reflexivity.
Defined.

End Keys.

Section ElfMain.

Import Elf ElfMore.



End ElfMain.

(** ** The PE program: section lookup *)

Arguments PeMore.header_named : simpl never.

(** Two tests of the same header, at indices that are equal. *)
Ltac same_header :=
  match goal with
  | |- PeMore.header_named ?m ?s ?n ?a = PeMore.header_named _ _ _ ?b =>
      apply (f_equal (PeMore.header_named m s n)); lia
  end.

Section PeLookup.

Import Pe PeMore.

Lemma strneq_at_true n : ∀ s m a,
  Forall (λ c, c ≠ 0) s →
  strneq_at m a s n = Some true ↔
  rdbytes (Nat.min n (S (length s))) m a = Some (take n (s ++ [0])).
Proof.
  induction n as [|n IH]; intros s m a Hs; [done|].
  cbn [strneq_at]. destruct s as [|x s].
  - cbn [hd tl app length take Nat.min]. rewrite Nat.min_0_r, rdbytes_S.
    destruct (rd8 m a) as [c|]; cbn; [|done].
    rewrite take_nil. case_decide as Hc.
    + subst c. rewrite decide_True by done. done.
    + split; [done | intros [= ->]; done].
  - apply Forall_cons in Hs as [Hx Hs].
    cbn [hd tl app length take Nat.min]. rewrite rdbytes_S.
    destruct (rd8 m a) as [c|]; cbn; [|done].
    case_decide as Hc.
    + subst c. rewrite decide_False by done. rewrite IH by done.
      destruct (rdbytes _ m (a + 1)) as [r|]; cbn; [|done].
      split; [by intros [= ->] | by intros [= ->]].
    + split; [done|].
      destruct (rdbytes _ m (a + 1)) as [r|]; cbn; [|done].
      intros [= -> _]. done.
Qed.

Lemma find_section_loop_some n : ∀ m sections name i p,
  find_section_loop m sections (codes name) i n = Some (Some p) ↔
  ∃ k, (k < n)%nat ∧ p = sections + SECTION_HEADER_SIZE * (i + Z.of_nat k) ∧
       header_named m sections name (i + Z.of_nat k) = Some true ∧
       ∀ j, (j < k)%nat →
            header_named m sections name (i + Z.of_nat j) = Some false.
Proof.
  induction n as [|n IH]; intros m sections name i p.
  - cbn. split; [done | intros (k & Hk & _); lia].
  - cbn [find_section_loop].
    assert (header_named m sections name (i + Z.of_nat 0)
            = header_named m sections name i) as H0
      by same_header.
    destruct (header_named m sections name i) as [[|]|] eqn:Hi;
      unfold header_named in Hi; rewrite Hi; cbn.
    + split.
      * intros [= <-]. exists 0%nat. rewrite H0.
        split; [lia|]. split; [do 2 f_equal; lia|]. split; [done|].
        intros; lia.
      * intros ([|k] & _ & -> & Hk & Hfirst).
        -- do 3 f_equal. lia.
        -- specialize (Hfirst 0%nat ltac:(lia)). congruence.
    + rewrite IH. split.
      * intros (k & Hk & -> & Ht & Hfirst). exists (S k).
        split; [lia|]. split; [do 2 f_equal; lia|].
        split; [rewrite <- Ht; same_header|].
        intros [|j] Hj; [by rewrite H0|].
        rewrite <- (Hfirst j) by lia. same_header.
      * intros ([|k] & Hk & -> & Ht & Hfirst); [congruence|].
        exists k. split; [lia|]. split; [do 2 f_equal; lia|].
        split; [rewrite <- Ht; same_header|].
        intros j Hj. rewrite <- (Hfirst (S j)) by lia. same_header.
    + split; [done|]. intros ([|k] & _ & _ & Hk & Hfirst).
      * congruence.
      * specialize (Hfirst 0%nat ltac:(lia)). congruence.
Qed.

Lemma find_section_loop_none n : ∀ m sections name i,
  find_section_loop m sections (codes name) i n = Some None ↔
  ∀ j, (j < n)%nat →
       header_named m sections name (i + Z.of_nat j) = Some false.
Proof.
  induction n as [|n IH]; intros m sections name i.
  - cbn. split; [intros _ j Hj; lia | done].
  - cbn [find_section_loop].
    assert (header_named m sections name (i + Z.of_nat 0)
            = header_named m sections name i) as H0
      by same_header.
    destruct (header_named m sections name i) as [[|]|] eqn:Hi;
      unfold header_named in Hi; rewrite Hi; cbn.
    + split; [done|]. intros H. specialize (H 0%nat ltac:(lia)). congruence.
    + rewrite IH. split.
      * intros H [|j] Hj; [by rewrite H0|].
        rewrite <- (H j) by lia. same_header.
      * intros H j Hj. rewrite <- (H (S j)) by lia. same_header.
    + split; [done|]. intros H. specialize (H 0%nat ltac:(lia)). congruence.
Qed.

Lemma find_section_unfold m name nt so n :
  e_magic m = Some IMAGE_DOS_SIGNATURE → e_lfanew m = Some nt →
  Signature m nt = Some IMAGE_NT_SIGNATURE →
  SizeOfOptionalHeader m nt = Some so → NumberOfSections m nt = Some n →
  find_section m name =
  find_section_loop m (nt + 24 + so) (codes name) 0 (Z.to_nat n).
Proof.
  intros H1 H2 H3 H4 H5. unfold find_section, IMAGE_FIRST_SECTION.
  rewrite H1. cbn. rewrite decide_False by (intros H; by apply H).
  rewrite H2. cbn. rewrite H3. cbn.
  rewrite decide_False by (intros H; by apply H).
  rewrite H4. cbn. by rewrite H5.
Qed.

(** An image without the DOS or the NT signature has no section, whatever
    its section table holds. *)
Lemma find_section_invalid m name :
  (∃ magic, e_magic m = Some magic ∧ magic ≠ IMAGE_DOS_SIGNATURE) ∨
  (∃ nt sig, e_magic m = Some IMAGE_DOS_SIGNATURE ∧ e_lfanew m = Some nt ∧
             Signature m nt = Some sig ∧ sig ≠ IMAGE_NT_SIGNATURE) →
  find_section m name = Some None.
Proof.
  unfold find_section.
  intros [(magic & -> & Hm)|(nt & sig & -> & -> & Hs & Hsig)]; cbn.
  - by rewrite decide_True.
  - rewrite decide_False by (intros H; by apply H). rewrite Hs. cbn.
    by rewrite decide_True.
Qed.

End PeLookup.

Section PeLookupSpec.

Import Pe PeMore.

(** X9.  On an image with the DOS and NT signatures, [find_section]
    returns the address of the first header of the section table, in
    table order, whose [Name] field agrees with the name asked for over
    the eight bytes [strncmp] compares (the name and its terminator, cut
    to eight bytes); the result is [NULL] exactly when no header of the
    table does. *)
Theorem find_section_first_match (m : list Z) (name : string)
    (nt so n : Z) :
  e_magic m = Some IMAGE_DOS_SIGNATURE → e_lfanew m = Some nt →
  Signature m nt = Some IMAGE_NT_SIGNATURE →
  SizeOfOptionalHeader m nt = Some so → NumberOfSections m nt = Some n →
  let sections := nt + 24 + so in
  (∀ p, find_section m name = Some (Some p) ↔
     ∃ i, 0 ≤ i < n ∧ p = sections + SECTION_HEADER_SIZE * i ∧
          header_named m sections name i = Some true ∧
          ∀ j, 0 ≤ j < i → header_named m sections name j = Some false) ∧
  (find_section m name = Some None ↔
     ∀ j, 0 ≤ j < n → header_named m sections name j = Some false) ∧
  (Forall (λ c, c ≠ 0) (codes name) →
   ∀ i, header_named m sections name i = Some true ↔
        rdbytes (Nat.min 8 (S (length (codes name)))) m
          (sections + SECTION_HEADER_SIZE * i)
        = Some (name_field (codes name))).
Proof.
  intros H1 H2 H3 H4 H5 sections.
  rewrite (find_section_unfold m name nt so n) by done. fold sections.
  split; [|split].
  - intros p. rewrite find_section_loop_some. split.
    + intros (k & Hk & -> & Ht & Hfirst). exists (Z.of_nat k).
      split; [lia|]. split; [done|]. split; [exact Ht|].
      intros j Hj. rewrite <- (Hfirst (Z.to_nat j)) by lia. same_header.
    + intros (i & Hi & -> & Ht & Hfirst). exists (Z.to_nat i).
      split; [lia|]. split; [do 2 f_equal; lia|].
      split; [rewrite <- Ht; same_header|].
      intros j Hj. apply Hfirst. lia.
  - rewrite find_section_loop_none. split.
    + intros H j Hj. rewrite <- (H (Z.to_nat j)) by lia. same_header.
    + intros H j Hj. apply H. lia.
  - intros Hname i. unfold header_named, name_field, IMAGE_SIZEOF_SHORT_NAME.
    by apply strneq_at_true.
Qed.

Lemma find_section_first_match_witness :
  find_section Examples.pe_image ".rdata" = Some (Some 168) ∧
  find_section Examples.pe_image ".text" = Some None.
Proof.
  destruct (find_section_first_match Examples.pe_image ".rdata" 64 0 3)
    as (Hsome & _); try (vm_compute; reflexivity).
  destruct (find_section_first_match Examples.pe_image ".text" 64 0 3)
    as (_ & Hnone & _); try (vm_compute; reflexivity).
  split.
  - apply Hsome. exists 2. split; [lia|]. split; [reflexivity|].
    split; [vm_compute; reflexivity|]. intros j Hj.
    assert (j = 0 ∨ j = 1) as [->| ->] by lia; vm_compute; reflexivity.
  - apply Hnone. intros j Hj.
    assert (j = 0 ∨ j = 1 ∨ j = 2) as [->|[->| ->]] by lia;
      vm_compute; reflexivity.
Defined.

End PeLookupSpec.

(** ** The PE program: how [mutate_executable] ends *)

Section PeOutcomes.

Import Pe PeMore.

Lemma wrbytes_length src : ∀ m a m',
  wrbytes src m a = Some m' → length m' = length m.
Proof.
  induction src as [|b src IH]; intros m a m'; unfold wrbytes; fold wrbytes.
  - by intros [= <-].
  - destruct (wr8 m a b) as [m1|] eqn:Hw; cbn; [|done].
    intros ->%IH. by apply wr8_length in Hw.
Qed.

Lemma pe_encrypt_loop_length fk names : ∀ m m',
  encrypt_loop m fk names = Some m' → length m' = length m.
Proof.
  induction names as [|name rest IH]; intros m m'.
  - by intros [= <-].
  - cbn [encrypt_loop].
    destruct (find_section m name) as [[p|]|]; cbn; [|by apply IH|done].
    destruct (SizeOfRawData m p) as [size|]; cbn; [|done].
    case_decide; [|by apply IH].
    destruct (PointerToRawData m p) as [off|]; cbn; [|done].
    unfold xor_crypt_additional.
    destruct (xor_bytes fk m off _) as [m1|] eqn:H1; cbn; [|done].
    intros Hl%IH. apply xor_bytes_inv in H1 as (Hl1 & _). congruence.
Qed.

Lemma mutate_executable_exited_inv e st st' code msg :
  mutate_executable e st = Some (st', Exited code msg) →
  st' = st ∧ code = EXIT_FAILURE ∧
  msg ∈ ["ERROR: Could not open executable file" +:+ nl;
         "ERROR: Could not get file size" +:+ nl;
         "ERROR: Could not create file mapping" +:+ nl;
         "ERROR: Could not map view of file" +:+ nl;
         "ERROR: Could not find .data section" +:+ nl;
         "ERROR: Could not find polymorphic section" +:+ nl].
Proof.
  unfold mutate_executable, die. intros H.
  repeat run_step H; simplify_eq; (split; [done|]); (split; [done|]);
    set_solver.
Qed.

Lemma mutate_executable_returned_inv e st st' :
  mutate_executable e st = Some (st', Returned) →
  CreateFileA_ok e = true ∧ GetFileSize_ok e = true ∧
  CreateFileMappingA_ok e = true ∧ MapViewOfFile_ok e = true ∧
  key st' = draw_key e (rand_calls st) ∧
  rand_calls st' = (rand_calls st + 16)%nat ∧
  length (file st') = length (file st).
Proof.
  unfold mutate_executable, die. intros H.
  repeat run_step H; try discriminate H. simplify_eq.
  cbn. repeat split; try done; [lia|].
  repeat match goal with
         | E : xor_crypt _ _ _ _ = Some _ |- _ =>
             apply xor_bytes_inv in E as (? & _)
         | E : encrypt_file_sections _ _ = Some _ |- _ =>
             apply pe_encrypt_loop_length in E
         | E : wrbytes _ _ _ = Some _ |- _ => apply wrbytes_length in E
         end.
  congruence.
Qed.

(** X10.  Every [die] of [mutate_executable] comes before the first
    write to the mapped view: when the function ends in [die], the exit
    status is [EXIT_FAILURE] and the file and the key are exactly as they
    were.  When it returns, the four calls that open and map the file had
    succeeded, the file has kept its size, sixteen values of [rand] were
    consumed and [key] holds the first eight, taken modulo 255. *)
Theorem mutate_executable_outcomes (e : env) (st st' : state)
    (o : outcome) :
  mutate_executable e st = Some (st', o) →
  match o with
  | Exited code msg =>
      st' = st ∧ code = EXIT_FAILURE ∧
      msg ∈ ["ERROR: Could not open executable file" +:+ nl;
             "ERROR: Could not get file size" +:+ nl;
             "ERROR: Could not create file mapping" +:+ nl;
             "ERROR: Could not map view of file" +:+ nl;
             "ERROR: Could not find .data section" +:+ nl;
             "ERROR: Could not find polymorphic section" +:+ nl]
  | Returned =>
      CreateFileA_ok e = true ∧ GetFileSize_ok e = true ∧
      CreateFileMappingA_ok e = true ∧ MapViewOfFile_ok e = true ∧
      key st' = draw_key e (rand_calls st) ∧
      rand_calls st' = (rand_calls st + 16)%nat ∧
      length (file st') = length (file st)
  end.
Proof.
  destruct o as [|code msg].
  - apply mutate_executable_returned_inv.
  - apply mutate_executable_exited_inv.
Qed.

Lemma mutate_executable_outcomes_witness :
  mutate_executable MoreExamples.pe_env_no_map
    (Examples.pe_state ORIG_KEY Examples.pe_image)
  = Some (Examples.pe_state ORIG_KEY Examples.pe_image,
          Exited 1 ("ERROR: Could not map view of file" +:+ nl)) ∧
  ∃ st', mutate_executable Examples.pe_env
           (Examples.pe_state ORIG_KEY Examples.pe_image)
         = Some (st', Returned) ∧
         length (file st') = 244%nat ∧ rand_calls st' = 16%nat.
Proof.
  eassert (mutate_executable MoreExamples.pe_env_no_map
             (Examples.pe_state ORIG_KEY Examples.pe_image)
           = Some (_, Exited _ _)) as Hdie by (vm_compute; reflexivity).
  eassert (mutate_executable Examples.pe_env
             (Examples.pe_state ORIG_KEY Examples.pe_image)
           = Some (_, Returned)) as Hrun by (vm_compute; reflexivity).
  pose proof (mutate_executable_outcomes _ _ _ _ Hdie) as (Hst & Hcode & _).
  pose proof (mutate_executable_outcomes _ _ _ _ Hrun)
    as (_ & _ & _ & _ & _ & Hrand & Hlen).
  split.
  - rewrite Hdie. reflexivity.
  - eexists. split; [exact Hrun|]. split; [exact Hlen | exact Hrand].
Defined.

(** X11.  A file that does not start with the DOS signature, or whose NT
    headers do not start with the NT signature, has no section for
    [find_section], whatever name is asked for; [mutate_executable] then
    ends with the message that the [.data] section could not be found,
    and changes nothing. *)
Theorem invalid_image_reported_as_missing_data (e : env) (st : state) :
  CreateFileA_ok e = true → GetFileSize_ok e = true →
  CreateFileMappingA_ok e = true → MapViewOfFile_ok e = true →
  (∃ magic, e_magic (file st) = Some magic ∧ magic ≠ IMAGE_DOS_SIGNATURE) ∨
  (∃ nt sig, e_magic (file st) = Some IMAGE_DOS_SIGNATURE ∧
             e_lfanew (file st) = Some nt ∧
             Signature (file st) nt = Some sig ∧ sig ≠ IMAGE_NT_SIGNATURE) →
  (∀ name, find_section (file st) name = Some None) ∧
  mutate_executable e st =
    Some (st, Exited EXIT_FAILURE
                ("ERROR: Could not find .data section" +:+ nl)).
Proof.
  intros H1 H2 H3 H4 Hbad.
  split; [intros name; by apply find_section_invalid|].
  unfold mutate_executable. rewrite H1, H2, H3, H4. cbn [negb].
  rewrite (find_section_invalid (file st) ".data") by done. reflexivity.
Qed.

Lemma invalid_image_reported_as_missing_data_witness :
  find_section MoreExamples.pe_bad_magic ".poly" = Some None ∧
  mutate_executable Examples.pe_env
    (Examples.pe_state ORIG_KEY MoreExamples.pe_bad_magic)
  = Some (Examples.pe_state ORIG_KEY MoreExamples.pe_bad_magic,
          Exited 1 ("ERROR: Could not find .data section" +:+ nl)).
Proof.
  destruct (invalid_image_reported_as_missing_data Examples.pe_env
              (Examples.pe_state ORIG_KEY MoreExamples.pe_bad_magic))
    as (Hnone & Hrun); try reflexivity.
  - left. exists 23118. split; [vm_compute; reflexivity | discriminate].
  - split; [apply Hnone | exact Hrun].
Defined.

End PeOutcomes.

(** ** The PE program: one complete pass, in closed form *)

Section PePass.

Import Pe PeMore.

Lemma xor_span_max key m base len :
  xor_span key m base (Z.max 0 len) = xor_span key m base len.
Proof.
  apply list_eq. intros p. rewrite !xor_span_lookup.
  destruct (m !! p); cbn; [|done]. f_equal.
  repeat case_decide; try done; lia.
Qed.

Lemma agree_below_xor_span_empty H key m base len :
  (0 < len → H ≤ base) → agree_below H m (xor_span key m base len).
Proof. intros Hb a Ha. apply rd8_xor_span_outside. lia. Qed.

Lemma wrbytes_bytes src : ∀ m a m',
  Forall byte_ok src → Forall byte_ok m →
  wrbytes src m a = Some m' → Forall byte_ok m'.
Proof.
  induction src as [|b src IH]; intros m a m' Hsrc Hm;
    unfold wrbytes; fold wrbytes.
  - by intros [= <-].
  - apply Forall_cons in Hsrc as [Hb Hsrc].
    destruct (wr8 m a b) as [m1|] eqn:Hw; cbn; [|done].
    apply wr8_Some in Hw as [_ ->].
    apply IH; [done|]. by apply Forall_insert.
Qed.

Lemma section_table_end_agree m m' H :
  Forall byte_ok m → section_table_end m = Some H → 64 ≤ H →
  agree_below H m m' → section_table_end m' = Some H.
Proof.
  intros Hm Hend H64 Hag.
  destruct (section_table_end_inv m H Hm Hend)
    as (nt & so & n & Hnt & Hso & Hn & Hso0 & Hn0 & ->).
  unfold SECTION_HEADER_SIZE in *.
  assert (e_lfanew m' = Some nt) as Hnt'.
  { rewrite <- Hnt. unfold e_lfanew. f_equal.
    apply (rdle_agree_below _ _ _ _ _ Hag). cbn. lia. }
  assert (SizeOfOptionalHeader m' nt = Some so) as Hso'.
  { rewrite <- Hso. unfold SizeOfOptionalHeader.
    apply (rdle_agree_below _ _ _ _ _ Hag). cbn. lia. }
  assert (NumberOfSections m' nt = Some n) as Hn'.
  { rewrite <- Hn. unfold NumberOfSections.
    apply (rdle_agree_below _ _ _ _ _ Hag). cbn. lia. }
  unfold section_table_end, IMAGE_FIRST_SECTION.
  rewrite Hnt'. cbn. rewrite Hso'. cbn. rewrite Hn'. done.
Qed.

(** The [.rdata] pass on a buffer that agrees with the image [m] below
    the section table: the transform under the file key over the [.rdata]
    range of [m]. *)
Lemma pe_rdata_pass_closed m m3 H fk roff rlen :
  Forall byte_ok m → section_table_end m = Some H → 64 ≤ H →
  length fk = 8%nat →
  agree_below H m m3 → length m3 = length m →
  rdata_range m = Some (roff, rlen) →
  (0 < rlen → 0 ≤ roff ∧ roff + rlen ≤ Z.of_nat (length m)) →
  encrypt_file_sections m3 fk = Some (xor_span fk m3 roff rlen).
Proof.
  intros Hm Hend H64 Hfk Hag Hlen Hr Hb.
  unfold encrypt_file_sections. cbn [encrypt_loop].
  rewrite (find_section_agree m m3 H) by done.
  unfold rdata_range in Hr.
  destruct (find_section m ".rdata") as [[rp|]|] eqn:Hf; cbn in Hr |- *;
    [| |done].
  - pose proof (find_section_range m H ".rdata" rp Hm Hend Hf) as Hrp.
    rewrite !(SizeOfRawData_agree m m3 H rp),
      (PointerToRawData_agree m m3 H rp) by done.
    destruct (SizeOfRawData m rp) as [rsize|]; cbn in Hr |- *; [|done].
    case_decide as Hpos.
    + destruct (PointerToRawData m rp) as [roff'|]; cbn in Hr |- *; [|done].
      injection Hr as -> <-. unfold xor_crypt_additional.
      rewrite xor_bytes_closed.
      * cbn. f_equal. unfold span. symmetry. apply xor_span_max.
      * done.
      * rewrite Hlen. unfold span in Hb. lia.
    + injection Hr as <- <-. by rewrite xor_span_empty.
  - injection Hr as <- <-. by rewrite xor_span_empty.
Qed.

End PePass.

Section PePassClosed.

Import Pe PeMore.

Lemma pe_pass_closed (e : env) (st : state) (koff poff plen roff rlen : Z) :
  CreateFileA_ok e = true → GetFileSize_ok e = true →
  CreateFileMappingA_ok e = true → MapViewOfFile_ok e = true →
  Forall byte_ok (file st) → well_laid_out (file st) →
  key_offset (file st) = Some koff →
  poly_range (file st) = Some (poff, plen) →
  rdata_range (file st) = Some (roff, rlen) →
  ∃ st' kold,
    mutate_executable e st = Some (st', Returned) ∧
    key st' = draw_key e (rand_calls st) ∧
    rand_calls st' = (rand_calls st + 16)%nat ∧
    length (file st') = length (file st) ∧
    Forall byte_ok (file st') ∧
    well_laid_out (file st') ∧
    key_offset (file st') = Some koff ∧
    poly_range (file st') = Some (poff, plen) ∧
    rdata_range (file st') = Some (roff, rlen) ∧
    rdbytes 8 (file st) koff = Some kold ∧
    rdbytes 8 (file st') koff = Some (draw_key e (rand_calls st)) ∧
    (∀ x, poff ≤ x < poff + plen →
       rd8 (file st') x =
       (λ d, xor_byte (xor_byte d (key_at kold (x - poff)))
               (key_at (draw_key e (rand_calls st)) (x - poff)))
         <$> rd8 (file st) x) ∧
    (∀ x, roff ≤ x < roff + rlen →
       rd8 (file st') x =
       (λ d, xor_byte d (key_at (draw_key e (rand_calls st + 8)) (x - roff)))
         <$> rd8 (file st) x) ∧
    (∀ x, ¬ (koff ≤ x < koff + 8) → ¬ (poff ≤ x < poff + plen) →
          ¬ (roff ≤ x < roff + rlen) → rd8 (file st') x = rd8 (file st) x) ∧
    poly_plaintext (file st') = poly_plaintext (file st) ∧
    is_Some (poly_plaintext (file st)).
Proof.
  intros Ho1 Ho2 Ho3 Ho4 Hm Hwf Hko Hpr Hrr.
  unfold mutate_executable. rewrite Ho1, Ho2, Ho3, Ho4. cbn [negb].
  destruct st as [k0 rc m]. cbn [file rand_calls] in *.
  pose proof Hwf as Hwf0. unfold well_laid_out in Hwf.
  destruct (section_table_end m) as [H|] eqn:Hend; [|done].
  destruct (find_section m ".data") as [[dp|]|] eqn:Hd; try done.
  destruct (find_section m CUSTOM_SECTION) as [[pp|]|] eqn:Hp; try done.
  destruct (find_section m ".rdata") as [r|] eqn:Hr; try done.
  destruct (PointerToRawData m dp) as [koff'|] eqn:Hkoff; try done.
  destruct (PointerToRawData m pp) as [poff'|] eqn:Hpoff; try done.
  destruct (SizeOfRawData m pp) as [psize|] eqn:Hpsize; try done.
  assert (koff' = koff) as ->.
  { unfold key_offset in Hko. rewrite Hd in Hko. cbn in Hko. congruence. }
  assert (poff' = poff ∧ plen = span psize) as [-> Hplen].
  { unfold poly_range in Hpr. rewrite Hp in Hpr. cbn in Hpr.
    rewrite Hpoff in Hpr. cbn in Hpr. rewrite Hpsize in Hpr. cbn in Hpr.
    by injection Hpr as -> ->. }
  destruct Hwf as (H64 & HkH & Hklen & HpH & Hplen' & Hkp & Hrd).
  rewrite <- Hplen in Hplen', Hkp.
  assert (0 < rlen →
          H ≤ roff ∧ roff + rlen ≤ Z.of_nat (length m) ∧
          (koff + 8 ≤ roff ∨ roff + rlen ≤ koff) ∧
          (poff + plen ≤ roff ∨ roff + rlen ≤ poff)) as Hrf.
  { unfold rdata_range in Hrr. rewrite Hr in Hrr. cbn in Hrr.
    destruct r as [rp|]; [|injection Hrr as <- <-; lia].
    destruct (PointerToRawData m rp) as [roff'|]; [|done].
    destruct (SizeOfRawData m rp) as [rsize|]; [|done]. cbn in Hrr.
    case_decide as Hpos; [|injection Hrr as <- <-; lia].
    cbn in Hrr. injection Hrr as -> <-. intros _.
    rewrite <- Hplen in Hrd. by apply Hrd. }
  pose proof (find_section_range m H ".data" dp Hm Hend Hd) as Hdp.
  pose proof (find_section_range m H _ pp Hm Hend Hp) as Hpp.
  destruct (rdbytes_in_bounds 8 m koff) as (kold & Hkold & Hkoldlen);
    [lia..|].
  remember (to_int psize) as L eqn:HL.
  assert (plen = Z.max 0 L) as HplenL by (subst L; exact Hplen).
  assert (0 < L → 0 ≤ poff ∧ poff + L ≤ Z.of_nat (length m)) as HLb by lia.
  remember (xor_span kold m poff plen) as m1 eqn:Hm1.
  assert (xor_bytes kold m poff L = Some m1) as Hx1.
  { rewrite xor_bytes_closed by done.
    subst m1. by rewrite HplenL, xor_span_max. }
  assert (length m1 = length m) as Hlen1
    by (subst m1; apply xor_span_length).
  remember (draw_key e rc) as knew eqn:Hknew.
  assert (length knew = 8%nat) as Hknewlen by (by subst knew).
  destruct (wrbytes_spec knew m1 koff) as (m2 & Hw & Hlen2 & Hout2 & Hrd2);
    [lia | rewrite Hlen1, Hknewlen; lia |].
  rewrite Hknewlen in Hout2, Hrd2.
  assert (agree_below H m m1) as Hag1
    by (subst m1; apply agree_below_xor_span; lia).
  assert (agree_below H m m2) as Hag2.
  { intros a Ha. rewrite Hout2 by lia. by apply Hag1. }
  remember (xor_span knew m2 poff plen) as m3 eqn:Hm3.
  assert (xor_bytes knew m2 poff L = Some m3) as Hx3.
  { rewrite xor_bytes_closed by first [done | by rewrite Hlen2, Hlen1].
    subst m3. by rewrite HplenL, xor_span_max. }
  assert (length m3 = length m) as Hlen3
    by (subst m3; rewrite xor_span_length; congruence).
  assert (agree_below H m m3) as Hag3.
  { eapply agree_below_trans; [exact Hag2|].
    subst m3. apply agree_below_xor_span. lia. }
  remember (draw_key e (rc + 8)) as fk eqn:Hfk.
  remember (xor_span fk m3 roff rlen) as m4 eqn:Hm4.
  assert (encrypt_file_sections m3 fk = Some m4) as Henc.
  { subst m4. apply (pe_rdata_pass_closed m m3 H); try done; [by subst fk|].
    intros Hpos. destruct (Hrf Hpos). lia. }
  assert (length m4 = length m) as Hlen4
    by (subst m4; rewrite xor_span_length; congruence).
  assert (agree_below H m m4) as Hag4.
  { eapply agree_below_trans; [exact Hag3|].
    subst m4. apply agree_below_xor_span_empty.
    intros Hpos. by destruct (Hrf Hpos). }
  assert (Forall byte_ok m1) as Hb1 by (subst m1; by apply xor_span_bytes).
  assert (Forall byte_ok knew) as Hbk.
  { subst knew. unfold draw_key. apply Forall_fmap, Forall_forall.
    intros i _. apply to_uchar_byte. }
  pose proof (wrbytes_bytes knew m1 koff m2 Hbk Hb1 Hw) as Hb2.
  assert (Forall byte_ok m4) as Hb4
    by (subst m4 m3; by do 2 apply xor_span_bytes).
  (* the bytes of the rewritten image, region by region *)
  assert (∀ x, koff ≤ x < koff + 8 → rd8 m4 x = rd8 m2 x) as Hkey4.
  { intros x Hx. subst m4 m3. rewrite !rd8_xor_span_outside; [done|lia|].
    intros Hin. assert (0 < rlen) as Hpos by lia. destruct (Hrf Hpos). lia. }
  assert (∀ x, poff ≤ x < poff + plen →
            rd8 m4 x =
            (λ d, xor_byte (xor_byte d (key_at kold (x - poff)))
                    (key_at knew (x - poff))) <$> rd8 m x) as Hpoly4.
  { intros x Hx. subst m4.
    rewrite rd8_xor_span_outside.
    2:{ intros Hin. assert (0 < rlen) as Hpos by lia.
        destruct (Hrf Hpos). lia. }
    subst m3. rewrite rd8_xor_span_inside by done.
    rewrite Hout2 by lia. subst m1. rewrite rd8_xor_span_inside by done.
    destruct (rd8 m x); done. }
  assert (∀ x, roff ≤ x < roff + rlen →
            rd8 m4 x = (λ d, xor_byte d (key_at fk (x - roff))) <$> rd8 m x)
    as Hrdata4.
  { intros x Hx. assert (0 < rlen) as Hpos by lia. destruct (Hrf Hpos).
    subst m4. rewrite rd8_xor_span_inside by done.
    subst m3. rewrite rd8_xor_span_outside by lia.
    rewrite Hout2 by lia. subst m1. by rewrite rd8_xor_span_outside by lia. }
  assert (∀ x, ¬ (koff ≤ x < koff + 8) → ¬ (poff ≤ x < poff + plen) →
               ¬ (roff ≤ x < roff + rlen) → rd8 m4 x = rd8 m x) as Hrest4.
  { intros x Hk Hpo Hrrange. subst m4. rewrite rd8_xor_span_outside by done.
    subst m3. rewrite rd8_xor_span_outside by done.
    rewrite Hout2 by done. subst m1. by rewrite rd8_xor_span_outside. }
  assert (rdbytes 8 m4 koff = Some knew) as Hkeynew.
  { rewrite <- Hrd2. apply rdbytes_agree. intros a Ha. apply Hkey4. lia. }
  (* the lookups on the rewritten image *)
  assert (section_table_end m4 = Some H) as Hend4
    by (by apply (section_table_end_agree m)).
  assert (∀ name, find_section m4 name = find_section m name) as Hfind4
    by (intros name; by apply (find_section_agree m m4 H)).
  assert (PointerToRawData m4 dp = Some koff) as Hkoff4
    by (by rewrite (PointerToRawData_agree m m4 H dp)).
  assert (PointerToRawData m4 pp = Some poff) as Hpoff4
    by (by rewrite (PointerToRawData_agree m m4 H pp)).
  assert (SizeOfRawData m4 pp = Some psize) as Hpsize4
    by (by rewrite (SizeOfRawData_agree m m4 H pp)).
  assert (rdata_range m4 = rdata_range m) as Hrr4.
  { unfold rdata_range. rewrite Hfind4, Hr. cbn.
    destruct r as [rp|]; [|done].
    pose proof (find_section_range m H ".rdata" rp Hm Hend Hr) as Hrp.
    by rewrite (SizeOfRawData_agree m m4 H rp),
      (PointerToRawData_agree m m4 H rp). }
  (* the run *)
  cbn. rewrite Hkoff. cbn. rewrite Hkold. cbn. rewrite Hpoff. cbn.
  rewrite Hpsize. cbn. unfold xor_crypt. cbn. rewrite <- HL, Hx1. cbn.
  rewrite <- Hknew, Hw. cbn.
  rewrite (SizeOfRawData_agree m m2 H pp), Hpsize by done. cbn.
  rewrite <- HL, Hx3. cbn. rewrite <- Hfk, Henc. cbn.
  eexists _, kold. split; [reflexivity|].
  cbn [file key rand_calls set_file set_key set_rand_calls].
  split; [done|]. split; [lia|]. split; [done|]. split; [done|].
  split.
  { unfold well_laid_out. rewrite Hend4, !Hfind4, Hd, Hp, Hr.
    rewrite Hkoff4, Hpoff4, Hpsize4, Hlen4.
    unfold well_laid_out in Hwf0.
    rewrite Hend, Hd, Hp, Hr, Hkoff, Hpoff, Hpsize in Hwf0.
    destruct Hwf0 as (? & ? & ? & ? & ? & ? & Hrd0).
    repeat (split; [done|]).
    destruct r as [rp|]; [|done].
    pose proof (find_section_range m H ".rdata" rp Hm Hend Hr) as Hrp.
    by rewrite (SizeOfRawData_agree m m4 H rp),
      (PointerToRawData_agree m m4 H rp). }
  split.
  { unfold key_offset. rewrite Hfind4, Hd. done. }
  split.
  { unfold poly_range. rewrite Hfind4, Hp. cbn. rewrite Hpoff4. cbn.
    rewrite Hpsize4. cbn. by rewrite Hplen. }
  split; [by rewrite Hrr4|].
  split; [done|]. split; [done|]. split; [done|]. split; [done|].
  split; [done|].
  (* the plaintext *)
  assert (poly_plaintext m = Some (raw_bytes m1 poff L)) as Hplain.
  { unfold poly_plaintext. rewrite Hd, Hp. cbn.
    rewrite Hkoff. cbn. rewrite Hkold. cbn. rewrite Hpoff. cbn.
    rewrite Hpsize. cbn. by rewrite <- HL, Hx1. }
  rewrite Hplain. split; [|by eexists].
  unfold poly_plaintext. rewrite !Hfind4, Hd, Hp. cbn.
  rewrite Hkoff4. cbn. rewrite Hkeynew. cbn. rewrite Hpoff4. cbn.
  rewrite Hpsize4. cbn. rewrite <- HL.
  rewrite xor_bytes_closed by first [done | by rewrite Hlen4].
  cbn. f_equal. apply raw_bytes_ext; [lia|]. intros x Hx.
  rewrite rd8_xor_span_inside by done.
  rewrite Hpoly4 by lia. subst m1. rewrite rd8_xor_span_inside by lia.
  destruct (rd8 m x) as [d|] eqn:Hdx; cbn; [|done]. f_equal.
  apply xor_byte_involutive. apply xor_byte_ok.
Qed.

End PePassClosed.

(** ** The PE program: what a pass writes, repeated runs, [main] *)

Section PeRuns.

Import Pe PeMore.


(** X12.  On a well laid out image, with the file opened and mapped, a
    pass of [mutate_executable] returns and writes three regions of the
    file and nothing else: the eight key bytes at the start of the [.data]
    raw data now hold the new key; each [.poly] raw byte went through the
    transform under the key found in the file and then under the new key;
    each [.rdata] raw byte went through the transform under a second key,
    drawn after the first and kept nowhere.  Every other byte, the headers
    included, is as it was, so the rewritten image is again well laid out,
    with the three regions where they were. *)
Theorem pe_mutation_writes_three_regions (e : env) (st : state)
    (koff poff plen roff rlen : Z) :
  CreateFileA_ok e = true → GetFileSize_ok e = true →
  CreateFileMappingA_ok e = true → MapViewOfFile_ok e = true →
  Forall byte_ok (file st) → well_laid_out (file st) →
  key_offset (file st) = Some koff →
  poly_range (file st) = Some (poff, plen) →
  rdata_range (file st) = Some (roff, rlen) →
  ∃ st' kold,
    mutate_executable e st = Some (st', Returned) ∧
    rdbytes 8 (file st) koff = Some kold ∧
    rdbytes 8 (file st') koff = Some (draw_key e (rand_calls st)) ∧
    (∀ x, poff ≤ x < poff + plen →
       rd8 (file st') x =
       (λ d, xor_byte (xor_byte d (key_at kold (x - poff)))
               (key_at (draw_key e (rand_calls st)) (x - poff)))
         <$> rd8 (file st) x) ∧
    (∀ x, roff ≤ x < roff + rlen →
       rd8 (file st') x =
       (λ d, xor_byte d (key_at (draw_key e (rand_calls st + 8)) (x - roff)))
         <$> rd8 (file st) x) ∧
    (∀ x, ¬ (koff ≤ x < koff + 8) → ¬ (poff ≤ x < poff + plen) →
          ¬ (roff ≤ x < roff + rlen) → rd8 (file st') x = rd8 (file st) x) ∧
    length (file st') = length (file st) ∧
    Forall byte_ok (file st') ∧
    well_laid_out (file st') ∧
    key_offset (file st') = Some koff ∧
    poly_range (file st') = Some (poff, plen) ∧
    rdata_range (file st') = Some (roff, rlen).
Proof.
  intros Ho1 Ho2 Ho3 Ho4 Hm Hwf Hko Hpr Hrr.
  destruct (pe_pass_closed e st koff poff plen roff rlen)
    as (st' & kold & Hrun & _ & _ & Hlen & Hb & Hwf' & Hko' & Hpr' & Hrr' &
        Hkold & Hknew & Hpoly & Hrdata & Hrest & _); try done.
  exists st', kold. repeat (split; [done|]). done.
Qed.

Lemma pe_mutation_writes_three_regions_witness :
  ∃ st',
    mutate_executable Examples.pe_env
      (Examples.pe_state ORIG_KEY Examples.pe_image) = Some (st', Returned) ∧
    rdbytes 8 (file st') 208 = Some (draw_key Examples.pe_env 0) ∧
    take 208 (file st') = take 208 Examples.pe_image ∧
    rd8 (file st') 216 = Some 1 ∧
    well_laid_out (file st').
Proof.
  destruct (pe_mutation_writes_three_regions Examples.pe_env
              (Examples.pe_state ORIG_KEY Examples.pe_image) 208 224 12 236 8)
    as (st' & kold & Hrun & _ & Hkey & _ & _ & Hrest & _ & _ & Hwf & _);
    try reflexivity.
  - exact bytes_pe_image.
  - vm_compute.
    repeat first [discriminate | split | left; discriminate
                 | right; discriminate | intros _].
  - exists st'. split; [exact Hrun|]. split; [exact Hkey|].
    split; [|split; [|exact Hwf]].
    + vm_compute in Hrun. injection Hrun as <-. vm_compute. reflexivity.
    + rewrite Hrest by lia. vm_compute. reflexivity.
Defined.





(** X14.  "XOR is symmetric, so encrypt/decrypt are the same": on an
    image whose [.rdata] raw data lies in the file after the section
    table, [encrypt_file_sections] run a second time with the same file
    key gives back the image; one run changes the [.rdata] raw bytes only,
    each to its transform under the file key. *)
Theorem pe_rdata_pass_twice (m fk : list Z) (roff rlen : Z) :
  Forall byte_ok m → length fk = 8%nat →
  rdata_in_file m → rdata_range m = Some (roff, rlen) →
  ∃ m1,
    encrypt_file_sections m fk = Some m1 ∧
    encrypt_file_sections m1 fk = Some m ∧
    length m1 = length m ∧
    (∀ x, ¬ (roff ≤ x < roff + rlen) → rd8 m1 x = rd8 m x) ∧
    (∀ x, roff ≤ x < roff + rlen →
       rd8 m1 x = (λ d, xor_byte d (key_at fk (x - roff))) <$> rd8 m x).
Proof.
  intros Hm Hfk Hin Hrr. unfold rdata_in_file in Hin.
  destruct (section_table_end m) as [H|] eqn:Hend; [|done].
  assert (64 ≤ H ∧ (0 < rlen → H ≤ roff ∧ roff + rlen ≤ Z.of_nat (length m)))
    as [H64 Hb].
  { unfold rdata_range in Hrr.
    destruct (find_section m ".rdata") as [[rp|]|]; [| |done]; cbn in Hrr.
    - destruct (PointerToRawData m rp) as [roff'|]; [|done].
      destruct (SizeOfRawData m rp) as [rsize|]; [|done]. cbn in Hrr.
      destruct Hin as [H64 Hin]. split; [done|].
      case_decide as Hpos; [|injection Hrr as <- <-; lia].
      cbn in Hrr. injection Hrr as -> <-. intros _. by apply Hin.
    - injection Hrr as <- <-. split; [done | lia]. }
  exists (xor_span fk m roff rlen).
  assert (agree_below H m (xor_span fk m roff rlen)) as Hag.
  { apply agree_below_xor_span_empty. intros Hpos. by destruct (Hb Hpos). }
  split; [|split; [|split; [|split]]].
  - apply (pe_rdata_pass_closed m m H);
      first [done | apply agree_below_refl
            | intros Hpos; destruct (Hb Hpos); lia].
  - rewrite (pe_rdata_pass_closed m _ H fk roff rlen);
      first [done | apply xor_span_length
            | by rewrite xor_span_involutive
            | intros Hpos; destruct (Hb Hpos); lia].
  - apply xor_span_length.
  - intros x Hx. by apply rd8_xor_span_outside.
  - intros x Hx. by apply rd8_xor_span_inside.
Qed.

Lemma pe_rdata_pass_twice_witness :
  ∃ m1,
    encrypt_file_sections Examples.pe_image Examples.key_mixed = Some m1 ∧
    encrypt_file_sections m1 Examples.key_mixed = Some Examples.pe_image ∧
    m1 ≠ Examples.pe_image.
Proof.
  destruct (pe_rdata_pass_twice Examples.pe_image Examples.key_mixed 236 8)
    as (m1 & H1 & H2 & _).
  - exact bytes_pe_image.
  - reflexivity.
  - vm_compute. split; [discriminate|]. intros _. split; discriminate.
  - vm_compute. reflexivity.
  - exists m1. split; [exact H1|]. split; [exact H2|].
    intros ->. vm_compute in H1. discriminate H1.
Defined.

(** X15.  [main] of the PE program ends with status 0 or [EXIT_FAILURE].
    A run that ends with [EXIT_FAILURE] has changed neither the file nor
    the key.  A run that ends with status 0 found its path, opened and
    mapped the file, and leaves a file of the same size and, in [key], the
    first key it drew. *)
Theorem pe_main_exit_status (e : main_env) (st st' : state) (status : Z)
    (err : string) :
  main e st = Some (st', status, err) →
  (status = 0 ∨ status = EXIT_FAILURE) ∧
  (status = EXIT_FAILURE → st' = st) ∧
  (status = 0 →
   calls_succeed e ∧ length (file st') = length (file st) ∧
   key st' = draw_key (base e) (rand_calls st) ∧ err = EmptyString) ∧
  (GetModuleFileNameA_ok e = false →
   status = EXIT_FAILURE ∧
   err = "ERROR: Could not get executable path" +:+ nl).
Proof.
  unfold main, die, calls_succeed, EXIT_FAILURE. intros Hrun.
  destruct (GetModuleFileNameA_ok e) eqn:Hg; cbn [negb] in Hrun.
  - destruct (mutate_executable (base e) st) as [[s [|code msg]]|] eqn:Hm;
      cbn in Hrun; [| |done]; injection Hrun as <- <- <-.
    + apply mutate_executable_returned_inv
        in Hm as (? & ? & ? & ? & ? & ? & ?).
      split; [by left|]. split; [done|]. split; [|done].
      intros _. done.
    + apply mutate_executable_exited_inv in Hm as (-> & -> & _).
      split; [by right|]. split; [done|]. split; done.
  - cbn in Hrun. injection Hrun as <- <- <-.
    split; [by right|]. split; [done|]. split; done.
Qed.

Lemma pe_main_exit_status_witness :
  main (MoreExamples.pe_main_env MoreExamples.pe_env_no_map)
    (Examples.pe_state ORIG_KEY Examples.pe_image)
  = Some (Examples.pe_state ORIG_KEY Examples.pe_image, 1,
          "ERROR: Could not map view of file" +:+ nl).
Proof.
  eassert (main (MoreExamples.pe_main_env MoreExamples.pe_env_no_map)
             (Examples.pe_state ORIG_KEY Examples.pe_image)
           = Some (_, 1, _)) as Hrun by (vm_compute; reflexivity).
  destruct (pe_main_exit_status _ _ _ _ _ Hrun) as (_ & Hsame & _).
  rewrite Hrun. rewrite (Hsame eq_refl). reflexivity.
Defined.

End PeRuns.

(** ** The classifier: the backup directory *)

(** The event is none of the events of a list written out. *)
Ltac not_among Hin :=
  repeat (apply elem_of_cons in Hin as [Hin|Hin]; [discriminate Hin|]);
  by apply elem_of_nil in Hin.

Section BackupDirectory.

Import Classifier.

(** X16.  [create_backup_directory] does nothing, and prints nothing,
    when [stat] finds something at [./sensitive_backups].  Otherwise it
    calls [mkdir] with mode 0700 (448) and prints that the directory was
    created, whether or not [mkdir] succeeded; when it did, a second call
    does nothing.  No other path is touched. *)
Theorem create_backup_directory_once (w : world) :
  (is_Some (stat w BACKUP_DIR) → create_backup_directory w = (w, [])) ∧
  (stat w BACKUP_DIR = None →
   snd (create_backup_directory w) = [CreatedBackupDir] ∧
   (mkdir_ok w BACKUP_DIR = false → fst (create_backup_directory w) = w) ∧
   (mkdir_ok w BACKUP_DIR = true →
    fs (fst (create_backup_directory w)) !! BACKUP_DIR
    = Some (Directory 448) ∧
    create_backup_directory (fst (create_backup_directory w))
    = (fst (create_backup_directory w), []))) ∧
  (∀ p, p ≠ BACKUP_DIR →
        fs (fst (create_backup_directory w)) !! p = fs w !! p).
Proof.
  unfold create_backup_directory. split; [|split].
  - intros [n Hn]. by rewrite Hn.
  - intros Hnone. rewrite Hnone. cbn [fst snd]. split; [done|].
    split; [by intros ->|]. intros ->. cbn [fs set_fs].
    rewrite lookup_insert_eq. split; [done|].
    unfold stat. cbn [fs set_fs]. unfold MAXSYMLINKS. cbn [resolve].
    rewrite lookup_insert_eq. cbn. by rewrite lookup_insert_eq.
  - intros p Hp. destruct (stat w BACKUP_DIR); cbn [fst]; [done|].
    destruct (mkdir_ok w BACKUP_DIR); cbn [fs set_fs]; [|done].
    by rewrite lookup_insert_ne.
Qed.

Lemma create_backup_directory_once_witness :
  create_backup_directory Examples.locked_world
  = (Examples.locked_world, [CreatedBackupDir]) ∧
  create_backup_directory MoreExamples2.unreadable_world
  = (MoreExamples2.unreadable_world, []).
Proof.
  destruct (create_backup_directory_once Examples.locked_world)
    as (_ & Hnew & _).
  destruct (create_backup_directory_once MoreExamples2.unreadable_world)
    as (Hold & _).
  split.
  - destruct Hnew as (Hout & Hsame & _); [vm_compute; reflexivity|].
    rewrite (surjective_pairing (create_backup_directory _)).
    rewrite Hout, Hsame; reflexivity.
  - apply Hold. eexists. vm_compute. reflexivity.
Defined.

End BackupDirectory.

(** ** The classifier: what the scan keeps, whatever the lengths *)

Section ScanInvariants.

Import Classifier ClassifierMore.

Lemma strtake_idem n : ∀ s, strtake n (strtake n s) = strtake n s.
Proof.
  induction n as [|n IH]; intros [|c s]; cbn; try done. by rewrite IH.
Qed.

Lemma strtake_short n s : (String.length (strtake n s) ≤ n)%nat.
Proof. rewrite strtake_length. lia. Qed.

Lemma scan_loop_inv w dir_path entries : ∀ files,
  ∃ added,
    scan_loop w dir_path entries files = files ++ added ∧
    (length files + length added ≤ Nat.max MAX_FILES (length files))%nat ∧
    Forall (scan_added w dir_path entries) added.
Proof.
  induction entries as [|d rest IH]; intros files.
  - exists []. cbn. rewrite app_nil_r. split; [done|]. split; [lia | done].
  - cbn [scan_loop].
    assert (∀ added, Forall (scan_added w dir_path rest) added →
                     Forall (scan_added w dir_path (d :: rest)) added) as Hmono.
    { intros added Hall. eapply Forall_impl; [exact Hall|].
      intros f (d' & c & Hin & H). exists d', c. split; [by right | done]. }
    case_decide as Hroom.
    2:{ exists []. rewrite app_nil_r. split; [done|]. split; [cbn; lia | done]. }
    case_decide as Hdot.
    { destruct (IH files) as (added & -> & Hlen & Hall). exists added. eauto. }
    destruct (stat w (full_path_of dir_path d)) as [st|] eqn:Hst.
    2:{ destruct (IH files) as (added & -> & Hlen & Hall). exists added. eauto. }
    destruct st as [content| | |]; cbn [S_ISREG];
      try (destruct (IH files) as (added & -> & Hlen & Hall);
           exists added; eauto; fail).
    destruct (IH (files ++ [new_record d (full_path_of dir_path d)]))
      as (added & -> & Hlen & Hall).
    exists (new_record d (full_path_of dir_path d) :: added).
    rewrite <- app_assoc. split; [done|].
    rewrite length_app in Hlen. cbn [length] in Hlen |- *.
    split; [lia|]. apply Forall_cons. split; [|by apply Hmono].
    exists d, content. split; [by left|].
    split; [tauto|]. split; [tauto|].
    unfold new_record, strncpy, full_path_of, snprintf, MAX_FILENAME_LEN in *.
    cbn [filename filepath is_sensitive reason Nat.pred Nat.sub Nat.mul] in *.
    change (Nat.pred (256 * 2)) with 511%nat in *.
    change (256 * 2 - 1)%nat with 511%nat.
    rewrite strtake_idem. done.
Qed.

End ScanInvariants.

Section ScanBounds.

Import Classifier ClassifierMore.

(** X17.  [scan_directory] appends to the records it is given and never
    rewrites one of them.  It never carries the array beyond [MAX_FILES]
    records, and adds nothing to an array that is already full.  Whatever
    the lengths of the directory path and of the entry names, each record
    it adds has a name of at most 255 and a path of at most 511
    characters -- the entry name and the path [dir/name], cut to fit --,
    is unflagged with an empty reason, stands for an entry other than [.]
    and [..], and carries a path on which [stat] reported a regular file.
    A directory that cannot be opened adds nothing. *)
Theorem scan_directory_appends_within_bounds (w : world) (dir_path : string)
    (files : list FileInfo) :
  ∃ added,
    fst (scan_directory w dir_path files) = files ++ added ∧
    ((length files ≤ MAX_FILES)%nat →
     (length (files ++ added) ≤ MAX_FILES)%nat) ∧
    ((MAX_FILES ≤ length files)%nat → added = []) ∧
    (listing w !! dir_path = None →
     added = [] ∧
     snd (scan_directory w dir_path files)
     = [Perror "Could not open directory"]) ∧
    Forall (λ f, (String.length (filename f) ≤ 255)%nat ∧
                 (String.length (filepath f) ≤ 511)%nat ∧
                 ∃ entries, listing w !! dir_path = Some entries ∧
                            scan_added w dir_path entries f) added.
Proof.
  unfold scan_directory.
  destruct (listing w !! dir_path) as [entries|] eqn:Hopen; cbn [fst snd].
  - destruct (scan_loop_inv w dir_path entries files)
      as (added & -> & Hlen & Hall).
    exists added. split; [done|]. rewrite length_app.
    split; [lia|]. split.
    { intros Hfull. apply nil_length_inv. lia. }
    split; [done|]. eapply Forall_impl; [exact Hall|].
    intros f Hf. pose proof Hf as (d & c & _ & _ & _ & -> & -> & _).
    split; [apply strtake_short|]. split; [apply strtake_short|]. eauto.
  - exists []. rewrite app_nil_r. repeat split; done.
Qed.

End ScanBounds.

(** ** The classifier: what a backup writes *)

Arguments Classifier.resolve : simpl never.

Section BackupFrames.

Import Classifier ClassifierMore.

Lemma fwrite_frame w dst buffer :
  (∀ p, p ≠ dst → fs (fwrite w dst buffer) !! p = fs w !! p) ∧
  (∀ p target, fs (fwrite w dst buffer) !! p = Some (Symlink target) →
               fs w !! p = Some (Symlink target)).
Proof.
  unfold fwrite. destruct (fs w !! dst) as [[content| | |]|] eqn:Hd;
    try done. cbn [fs set_fs]. split.
  - intros p Hp. by rewrite lookup_insert_ne.
  - intros p target. destruct (decide (p = dst)) as [->|Hne].
    + by rewrite lookup_insert_eq.
    + by rewrite lookup_insert_ne.
Qed.

Lemma copy_loop_frame fuel : ∀ w src dst pos,
  (∀ p, p ≠ dst → fs (copy_loop fuel w src dst pos) !! p = fs w !! p) ∧
  (∀ p target,
     fs (copy_loop fuel w src dst pos) !! p = Some (Symlink target) →
     fs w !! p = Some (Symlink target)).
Proof.
  induction fuel as [|fuel IH]; intros w src dst pos; [done|].
  cbn [copy_loop]. case_decide; [|done].
  match goal with
  | |- context [copy_loop fuel ?w1 src dst ?p1] =>
      destruct (IH w1 src dst p1) as [Hfr Hln]
  end.
  destruct (fwrite_frame w dst (take BUFFER_SIZE (file_bytes w src pos)))
    as [Hfr1 Hln1].
  split.
  - intros p Hp. by rewrite Hfr, Hfr1.
  - intros p target Hp. by apply Hln1, Hln.
Qed.

(** The three ways [create_backup] ends. *)
Lemma create_backup_inv w file w' out :
  create_backup w file = Some (w', out) →
  (out = [SourceOpenFailed] ∨ out = [BackupCreateFailed]) ∧ w' = tick w ∨
  ∃ name dst,
    c_str (MAX_FILENAME_LEN - 1) (filename file) = Some name ∧
    out = [BackedUp (backup_path_of (localtime w (time_calls w)) name)] ∧
    resolve MAXSYMLINKS (fs w)
      (backup_path_of (localtime w (time_calls w)) name) = Some dst ∧
    (∀ p, p ≠ dst → fs w' !! p = fs w !! p) ∧
    (∀ p target, fs w' !! p = Some (Symlink target) →
                 fs w !! p = Some (Symlink target)).
Proof.
  unfold create_backup.
  destruct (c_str _ (filename file)) as [name|]; cbn [mbind option_bind];
    [|done].
  destruct (c_str _ (filepath file)) as [path|]; cbn [mbind option_bind];
    [|done].
  destruct (fopen_rb (tick w) path) as [src|]; [|intros [= <- <-]; auto].
  unfold fopen_wb. cbn [fs tick creatable].
  destruct (resolve MAXSYMLINKS (fs w) _) as [dst|] eqn:Hdst;
    cbn [mbind option_bind]; [|intros [= <- <-]; auto].
  destruct (creatable w dst); [|intros [= <- <-]; auto].
  match goal with
  | |- context [copy_loop ?n ?w0 ?s ?d ?pos] =>
      destruct (copy_loop_frame n w0 s d pos) as [Hfr Hln];
      remember (copy_loop n w0 s d pos) as wc eqn:Hwc; clear Hwc
  end.
  intros [= <- <-]. right. exists name, dst. split; [done|]. split; [done|].
  split; [done|]. split.
  - intros p Hp. rewrite Hfr by done. cbn [fs set_fs tick].
    by rewrite lookup_insert_ne.
  - intros p target Hp. apply Hln in Hp. cbn [fs set_fs tick] in Hp.
    destruct (decide (p = dst)) as [->|Hne].
    + by rewrite lookup_insert_eq in Hp.
    + by rewrite lookup_insert_ne in Hp.
Qed.

Lemma create_backup_one_attempt w file w' out :
  create_backup w file = Some (w', out) →
  attempts out = 1%nat ∧ (successes out ≤ 1)%nat.
Proof.
  intros [[[->| ->] _]|(name & dst & _ & -> & _)]%create_backup_inv;
    vm_compute; lia.
Qed.

Lemma attempts_app a b : attempts (a ++ b) = (attempts a + attempts b)%nat.
Proof. unfold attempts. by rewrite filter_app, length_app. Qed.

Lemma successes_app a b :
  successes (a ++ b) = (successes a + successes b)%nat.
Proof. unfold successes. by rewrite filter_app, length_app. Qed.

Lemma backup_loop_count files : ∀ w n0 w' n out,
  backup_loop w files n0 = Some (w', n, out) →
  n = n0 + Z.of_nat (attempts out) ∧
  attempts out = length (filter (λ f, is_sensitive f ≠ 0) files) ∧
  (successes out ≤ attempts out)%nat ∧
  Forall (λ ev, ∀ k, ev ≠ Completed k ∧ ev ≠ Identified k) out.
Proof.
  induction files as [|f files IH]; intros w n0 w' n out.
  - intros [= <- <- <-]. cbn. repeat split; try lia. constructor.
  - cbn [backup_loop]. rewrite filter_cons. case_decide as Hflag.
    + destruct (c_str _ (filename f)) as [name|]; cbn; [|done].
      destruct (create_backup w f) as [[w1 evs]|] eqn:Hb; cbn; [|done].
      destruct (backup_loop w1 files (n0 + 1)) as [[[w2 n2] evs']|] eqn:Hl;
        cbn; [|done].
      intros [= <- <- <-].
      apply IH in Hl as (-> & Hatt & Hsucc & Hev).
      pose proof (create_backup_one_attempt _ _ _ _ Hb) as [Ha1 Hs1].
      change (SensitiveFile name (reason f) :: evs ++ evs')
        with ([SensitiveFile name (reason f)] ++ evs ++ evs').
      rewrite !attempts_app, !successes_app, Ha1. cbn [length].
      change (attempts [SensitiveFile name (reason f)]) with 0%nat.
      change (successes [SensitiveFile name (reason f)]) with 0%nat.
      split; [lia|]. split; [lia|]. split; [lia|].
      apply Forall_app. split; [by repeat constructor|].
      apply Forall_app. split; [|done].
      apply create_backup_inv
        in Hb as [[[->| ->] _]|(name' & dst & _ & -> & _)];
        by repeat constructor.
    + intros Hl. by apply IH in Hl.
Qed.

End BackupFrames.

Section BackupWrites.

Import Classifier ClassifierMore.

(** X18.  A call of [create_backup] that cannot open the source, or
    cannot create the backup file, leaves the file system as it was.  A
    call that succeeds changes the file system at one path only: the file
    that the backup path leads to. *)
Theorem create_backup_writes_one_path (w w' : world) (file : FileInfo)
    (out : list event) :
  create_backup w file = Some (w', out) →
  (out = [SourceOpenFailed] ∨ out = [BackupCreateFailed]) ∧ fs w' = fs w ∨
  ∃ name dst,
    c_str (MAX_FILENAME_LEN - 1) (filename file) = Some name ∧
    out = [BackedUp (backup_path_of (localtime w (time_calls w)) name)] ∧
    resolve MAXSYMLINKS (fs w)
      (backup_path_of (localtime w (time_calls w)) name) = Some dst ∧
    ∀ p, p ≠ dst → fs w' !! p = fs w !! p.
Proof.
  intros [[Hout ->]|(name & dst & Hn & Hout & Hdst & Hfr & _)]%create_backup_inv.
  - by left.
  - right. by exists name, dst.
Qed.

Lemma create_backup_writes_one_path_witness :
  fs <$> (fst <$> create_backup MoreExamples2.unreadable_world
                    (Classifier.scanned "docs" "Tax_2023.pdf"))
  = Some (fs MoreExamples2.unreadable_world).
Proof.
  assert (snd <$> create_backup MoreExamples2.unreadable_world
                    (Classifier.scanned "docs" "Tax_2023.pdf")
          = Some [SourceOpenFailed]) as Hout by (vm_compute; reflexivity).
  destruct (create_backup MoreExamples2.unreadable_world
              (Classifier.scanned "docs" "Tax_2023.pdf"))
    as [[w' out]|] eqn:Hrun; [|discriminate Hout].
  cbn in Hout. injection Hout as ->.
  destruct (create_backup_writes_one_path _ _ _ _ Hrun)
    as [[_ Hfs]|(name & dst & _ & Hout & _)].
  - cbn. by rewrite Hfs.
  - discriminate Hout.
Defined.

End BackupWrites.

Section MainCounts.

Import Classifier ClassifierMore.

Lemma classify_loop_short files : ∀ c r,
  classify_loop files c = Some r → Forall short_name files.
Proof.
  induction files as [|f files IH]; intros c r; [done|].
  cbn [classify_loop]. unfold classify_file, strncpy, c_str.
  case_decide as Hlen; cbn [mbind option_bind]; [|done].
  intros Hrun. apply Forall_cons. split.
  - unfold short_name. rewrite strtake_length in Hlen.
    unfold MAX_FILENAME_LEN in *. lia.
  - destruct (match_keyword _ sensitive_keywords); cbn in Hrun;
      destruct (classify_loop files _) as [r'|] eqn:Hr; try done;
      by eapply IH.
Qed.

Lemma scan_unflagged w dir_path :
  Forall (λ f, is_sensitive f = 0) (fst (scan_directory w dir_path [])).
Proof.
  unfold scan_directory.
  destruct (listing w !! dir_path) as [entries|]; cbn [fst]; [|done].
  destruct (scan_loop_inv w dir_path entries []) as (added & -> & _ & Hall).
  cbn [app]. eapply Forall_impl; [exact Hall|].
  by intros f (d & c & _ & _ & _ & _ & _ & ? & _).
Qed.

Lemma attempts_skip ev l :
  is_attempt ev = false → attempts (ev :: l) = attempts l.
Proof.
  intros H. unfold attempts. rewrite filter_cons_False; [done|].
  by rewrite H.
Qed.

Lemma successes_skip ev l :
  is_success ev = false → successes (ev :: l) = successes l.
Proof.
  intros H. unfold successes. rewrite filter_cons_False; [done|].
  by rewrite H.
Qed.

(** The two ways a run of [main] ends: before the backups, with nothing
    changed, or after the loop over the flagged records. *)
Lemma main_inv argv w status w' out :
  main argv w = Some (status, w', out) →
  status = 0 ∧
  (w' = w ∧ attempts out = 0%nat ∧ successes out = 0%nat ∧
   (∀ k, ¬ Completed k ∈ out) ∧ ¬ CreatedBackupDir ∈ out ∧
   (NoFiles ∈ out ∨ NoSensitive ∈ out) ∨
   ∃ files n evs,
     classify_files_with_llm (fst (scan_directory w (scan_dir_of argv) []))
     = Some (files, n) ∧ n ≠ 0 ∧
     backup_loop (fst (create_backup_directory w)) files 0
     = Some (w', n, evs) ∧
     attempts out = attempts evs ∧ successes out = successes evs ∧
     Identified n ∈ out ∧ ∀ k, Completed k ∈ out → k = n).
Proof.
  unfold main.
  pose proof (scan_unflagged w (scan_dir_of argv)) as Hfresh.
  assert (snd (scan_directory w (scan_dir_of argv) []) = [] ∨
          snd (scan_directory w (scan_dir_of argv) [])
          = [Perror "Could not open directory"]) as Herrs.
  { unfold scan_directory.
    destruct (listing w !! scan_dir_of argv); cbn [snd]; auto. }
  assert (snd (create_backup_directory w) = [] ∨
          snd (create_backup_directory w) = [CreatedBackupDir]) as Hdir.
  { unfold create_backup_directory.
    destruct (stat w BACKUP_DIR); cbn [snd]; auto. }
  destruct (scan_directory w (scan_dir_of argv) []) as [files errs].
  cbn [fst snd] in *.
  case_decide as Hcount.
  { intros [= <- <- <-]. split; [done|]. left. split; [done|].
    destruct Herrs as [-> | ->]; cbn [app];
      (split; [vm_compute; reflexivity|]);
      (split; [vm_compute; reflexivity|]);
      (split; [intros k Hin; not_among Hin|]);
      (split; [intros Hin; not_among Hin|]);
      rewrite !elem_of_cons; auto 10. }
  destruct (classify_files_with_llm files) as [[files' sc]|] eqn:Hcl;
    cbn [mbind option_bind]; [|done]. cbn beta iota.
  case_decide as Hsc.
  { intros [= <- <- <-]. split; [done|]. left. split; [done|].
    destruct Herrs as [-> | ->]; cbn [app];
      (split; [vm_compute; reflexivity|]);
      (split; [vm_compute; reflexivity|]);
      (split; [intros k Hin; not_among Hin|]);
      (split; [intros Hin; not_among Hin|]);
      rewrite !elem_of_cons; auto 10. }
  destruct (create_backup_directory w) as [w1 evs1]. cbn [fst snd] in *.
  destruct (backup_loop w1 files' 0) as [[[w2 b] evs2]|] eqn:Hloop;
    cbn [mbind option_bind]; [|done]. cbn beta iota.
  intros [= <- <- <-]. split; [done|]. right.
  (* the two counts are the number of flagged records *)
  pose proof (backup_loop_count _ _ _ _ _ _ Hloop)
    as (Hb & Hatt & Hsucc & Hnone).
  assert (b = sc) as ->.
  { unfold classify_files_with_llm in Hcl.
    pose proof (classify_loop_short _ _ _ Hcl) as Hshort.
    rewrite classify_loop_closed in Hcl by done.
    injection Hcl as <- <-. rewrite Hb, Hatt, flagged_count by done. lia. }
  exists files', sc, evs2. split; [done|]. split; [done|]. split; [done|].
  assert (∀ k, Completed k ∈ evs2 → k = sc) as Hc2.
  { intros k Hin. eapply Forall_forall in Hnone; [|exact Hin].
    by destruct (Hnone k). }
  destruct Herrs as [-> | ->]; destruct Hdir as [-> | ->]; cbn [app];
    rewrite !attempts_skip, !successes_skip by reflexivity;
    rewrite attempts_app, successes_app;
    (split; [vm_compute attempts at 2; lia|]);
    (split; [vm_compute successes at 2; lia|]);
    (split; [rewrite !elem_of_cons; auto 10|]);
    intros k Hin;
    repeat (apply elem_of_cons in Hin as [Hin|Hin]; [discriminate Hin|]);
    (apply elem_of_app in Hin as [Hin|Hin]; [by apply Hc2|]);
    apply list_elem_of_singleton in Hin; by injection Hin.
Qed.

End MainCounts.

Section MainReport.

Import Classifier ClassifierMore.

(** X19.  The number in the closing line "Backup completed: N files" is
    the number announced as identified, and it is the number of calls of
    [create_backup], not the number of backups written: a call that fails
    to open the source or to create the backup file is counted as well. *)
Theorem main_counts_attempts (argv : list string) (w w' : world)
    (status n : Z) (out : list event) :
  main argv w = Some (status, w', out) →
  Completed n ∈ out →
  Identified n ∈ out ∧ n = Z.of_nat (attempts out) ∧
  (successes out ≤ attempts out)%nat.
Proof.
  intros Hrun Hin.
  destruct (main_inv _ _ _ _ _ Hrun)
    as (_ & [(_ & _ & _ & Hnone & _)|
             (files & k & evs & _ & _ & Hloop & Ha & Hs & Hid & Hc)]).
  - by destruct (Hnone n).
  - apply Hc in Hin as ->.
    apply backup_loop_count in Hloop as (Hk & _ & Hle & _).
    rewrite Ha, Hs. split; [done|]. split; [lia | done].
Qed.

Lemma main_counts_attempts_witness :
  ∃ out,
    main ["llm_backup"; "docs"] Examples.locked_world
    = Some (0, tick Examples.locked_world, out) ∧
    Completed 1 ∈ out ∧ attempts out = 1%nat ∧ successes out = 0%nat.
Proof.
  eassert (main ["llm_backup"; "docs"] Examples.locked_world
           = Some (0, tick Examples.locked_world, _)) as Hrun
    by (vm_compute; reflexivity).
  eexists. split; [exact Hrun|].
  assert (Completed 1 ∈
            [Banner; Scanning "docs"; Found 3; Analyzing; Identified 1;
             CreatedBackupDir;
             SensitiveFile "Tax_2023.pdf" "Contains keyword: tax";
             BackupCreateFailed; Completed 1]) as Hin
    by (rewrite !elem_of_cons; auto 12).
  destruct (main_counts_attempts _ _ _ _ _ _ Hrun Hin) as (_ & Hn & _).
  split; [exact Hin|]. split; [lia | vm_compute; reflexivity].
Defined.

End MainReport.

Section OriginalsUntouched.

Import Classifier ClassifierMore.

Lemma strtake_app n : ∀ a b,
  (String.length a ≤ n)%nat →
  strtake n (a +:+ b) = a +:+ strtake (n - String.length a) b.
Proof.
  induction n as [|n IH]; intros [|c a] b Hlen; cbn in Hlen; try lia.
  - by rewrite app_nil_str.
  - by rewrite app_nil_str.
  - rewrite !app_cons_str. cbn. f_equal. apply IH. lia.
Qed.

Lemma backup_path_in_dir t name : in_backup_dir (backup_path_of t name) = true.
Proof.
  unfold in_backup_dir, backup_path_of, snprintf. apply prefix_occurs.
  rewrite <- (app_assoc_str BACKUP_DIR "/").
  rewrite strtake_app by (apply Nat.leb_le; vm_compute; reflexivity).
  eexists. reflexivity.
Qed.

Lemma resolve_in_backup_dir fuel f p :
  no_link_in_backup_dir f → in_backup_dir p = true →
  resolve fuel f p = Some p.
Proof.
  intros Hno Hin. rewrite resolve_unfold.
  destruct (f !! p) as [[| |target|]|] eqn:Hp; try done.
  apply Hno in Hp. congruence.
Qed.

Lemma create_backup_frame w file w' out :
  no_link_in_backup_dir (fs w) →
  create_backup w file = Some (w', out) →
  no_link_in_backup_dir (fs w') ∧
  ∀ p, in_backup_dir p = false → fs w' !! p = fs w !! p.
Proof.
  intros Hno [[_ ->]|(name & dst & _ & _ & Hdst & Hfr & Hln)]%create_backup_inv;
    [done|].
  rewrite resolve_in_backup_dir in Hdst
    by (try done; apply backup_path_in_dir).
  injection Hdst as <-. split.
  - intros p target Hp. apply Hln in Hp. by apply Hno in Hp.
  - intros p Hp. apply Hfr. intros ->.
    by rewrite backup_path_in_dir in Hp.
Qed.

Lemma backup_loop_frame files : ∀ w n0 w' n out,
  no_link_in_backup_dir (fs w) →
  backup_loop w files n0 = Some (w', n, out) →
  ∀ p, in_backup_dir p = false → fs w' !! p = fs w !! p.
Proof.
  induction files as [|f files IH]; intros w n0 w' n out Hno.
  - by intros [= <- <- <-].
  - cbn [backup_loop]. case_decide as Hflag; [|by apply IH].
    destruct (c_str _ (filename f)) as [name|]; cbn [mbind option_bind];
      [|done].
    destruct (create_backup w f) as [[w1 evs]|] eqn:Hb;
      cbn [mbind option_bind]; [|done]. cbn beta iota.
    destruct (backup_loop w1 files (n0 + 1)) as [[[w2 n2] evs']|] eqn:Hl;
      cbn [mbind option_bind]; [|done]. cbn beta iota.
    intros [= <- <- <-] p Hp.
    destruct (create_backup_frame _ _ _ _ Hno Hb) as [Hno1 Hfr1].
    rewrite (IH _ _ _ _ _ Hno1 Hl p Hp). by apply Hfr1.
Qed.

Lemma create_backup_directory_frame w :
  (no_link_in_backup_dir (fs w) →
   no_link_in_backup_dir (fs (fst (create_backup_directory w)))) ∧
  ∀ p, p ≠ BACKUP_DIR →
       fs (fst (create_backup_directory w)) !! p = fs w !! p.
Proof.
  unfold create_backup_directory.
  destruct (stat w BACKUP_DIR); cbn [fst]; [done|].
  destruct (mkdir_ok w BACKUP_DIR); cbn [fs set_fs]; [|done]. split.
  - intros Hno p target. destruct (decide (p = BACKUP_DIR)) as [->|Hne].
    + by rewrite lookup_insert_eq.
    + rewrite lookup_insert_ne by done. apply Hno.
  - intros p Hp. by rewrite lookup_insert_ne.
Qed.

(** X20.  "Original files remain unchanged": when no symbolic link lies
    in the backup directory, a run of [main] changes the file system
    nowhere but at [./sensitive_backups] itself and at paths inside it.
    Every file the scan found elsewhere is, after the run, what it was
    before. *)
Theorem main_writes_only_in_backup_dir (argv : list string) (w w' : world)
    (status : Z) (out : list event) :
  no_link_in_backup_dir (fs w) →
  main argv w = Some (status, w', out) →
  ∀ p, p ≠ BACKUP_DIR → in_backup_dir p = false → fs w' !! p = fs w !! p.
Proof.
  intros Hno Hrun p Hp Hout.
  destruct (main_inv _ _ _ _ _ Hrun)
    as (_ & [(-> & _)|(files & k & evs & _ & _ & Hloop & _)]); [done|].
  destruct (create_backup_directory_frame w) as [Hno1 Hfr1].
  rewrite (backup_loop_frame _ _ _ _ _ _ (Hno1 Hno) Hloop p Hout).
  by apply Hfr1.
Qed.

Lemma no_link_in_backup_dir_docs : no_link_in_backup_dir Examples.docs_fs.
Proof.
  intros p target Hp. unfold Examples.docs_fs in Hp.
  apply elem_of_list_to_map_2 in Hp.
  repeat (apply elem_of_cons in Hp as [Hp|Hp];
          [injection Hp as -> Hn; try discriminate Hn; reflexivity|]).
  by apply elem_of_nil in Hp.
Qed.

Lemma main_writes_only_in_backup_dir_witness :
  (λ r, r.2) <$> main ["llm_backup"; "docs"] Examples.docs_world
  = Some [Banner; Scanning "docs"; Found 3; Analyzing; Identified 1;
          CreatedBackupDir;
          SensitiveFile "Tax_2023.pdf" "Contains keyword: tax";
          BackedUp "./sensitive_backups/20261030_120509_Tax_2023.pdf";
          Completed 1] ∧
  (λ r, (fs r.1.2 !! "docs/Tax_2023.pdf",
         fs r.1.2 !! "/srv/bank/ledger.csv"))
    <$> main ["llm_backup"; "docs"] Examples.docs_world
  = Some (Some (Regular [37; 80; 68; 70]), Some (Regular [49; 44; 50])).
Proof.
  assert ((λ r, r.2) <$> main ["llm_backup"; "docs"] Examples.docs_world
          = Some [Banner; Scanning "docs"; Found 3; Analyzing; Identified 1;
                  CreatedBackupDir;
                  SensitiveFile "Tax_2023.pdf" "Contains keyword: tax";
                  BackedUp "./sensitive_backups/20261030_120509_Tax_2023.pdf";
                  Completed 1]) as Hout by (vm_compute; reflexivity).
  split; [exact Hout|].
  destruct (main ["llm_backup"; "docs"] Examples.docs_world)
    as [[[status w'] out]|] eqn:Hrun; [|discriminate Hout].
  pose proof (main_writes_only_in_backup_dir ["llm_backup"; "docs"]
                Examples.docs_world _ _ _
                no_link_in_backup_dir_docs Hrun) as Hsame.
  assert (fs w' !! "docs/Tax_2023.pdf" = Some (Regular [37; 80; 68; 70]))
    as H1.
  { etrans; [apply Hsame; [discriminate | vm_compute; reflexivity]|].
    vm_compute. reflexivity. }
  assert (fs w' !! "/srv/bank/ledger.csv" = Some (Regular [49; 44; 50]))
    as H2.
  { etrans; [apply Hsame; [discriminate | vm_compute; reflexivity]|].
    vm_compute. reflexivity. }
  exact (f_equal2 (λ a b, Some (a, b)) H1 H2).
Defined.

(** X21.  When no record of the scan has a keyword in its name, a run of
    [main] ends before [create_backup_directory]: nothing is created,
    nothing is written, and the last line says that no file was found or
    that none was identified. *)
Theorem main_without_hits_changes_nothing (argv : list string)
    (w w' : world) (status : Z) (out : list event) :
  main argv w = Some (status, w', out) →
  Forall (λ f, first_keyword (filename f) = None)
    (fst (scan_directory w (scan_dir_of argv) [])) →
  w' = w ∧ ¬ CreatedBackupDir ∈ out ∧ attempts out = 0%nat ∧
  (NoFiles ∈ out ∨ NoSensitive ∈ out).
Proof.
  intros Hrun Hnone.
  destruct (main_inv _ _ _ _ _ Hrun)
    as (_ & [(-> & Ha & _ & _ & Hdir & Hlast)|
             (files & k & evs & Hcl & Hk & _)]); [done|].
  exfalso. apply Hk. unfold classify_files_with_llm in Hcl.
  pose proof (classify_loop_short _ _ _ Hcl) as Hshort.
  rewrite classify_loop_closed in Hcl by done. injection Hcl as _ <-.
  assert (length (filter (λ f, is_Some (first_keyword (filename f)))
                    (fst (scan_directory w (scan_dir_of argv) []))) = 0%nat)
    as ->; [|done].
  clear -Hnone. induction Hnone as [|f l Hf _ IH]; [done|].
  rewrite filter_cons_False by (rewrite Hf; by intros [? ?]). exact IH.
Qed.

Lemma main_without_hits_changes_nothing_witness :
  main ["llm_backup"; "pics"] MoreExamples2.plain_world
  = Some (0, MoreExamples2.plain_world,
          [Banner; Scanning "pics"; Found 2; Analyzing; NoSensitive]).
Proof.
  assert ((λ r, r.2) <$> main ["llm_backup"; "pics"] MoreExamples2.plain_world
          = Some [Banner; Scanning "pics"; Found 2; Analyzing; NoSensitive])
    as Hout by (vm_compute; reflexivity).
  destruct (main ["llm_backup"; "pics"] MoreExamples2.plain_world)
    as [[[status w'] out]|] eqn:Hrun; [|discriminate Hout].
  cbn in Hout. injection Hout as ->.
  destruct (main_without_hits_changes_nothing
              ["llm_backup"; "pics"] MoreExamples2.plain_world _ _ _ Hrun)
    as (-> & _).
  - replace (fst (scan_directory MoreExamples2.plain_world
                    (scan_dir_of ["llm_backup"; "pics"]) []))
      with [scanned "pics" "holiday.jpg"; scanned "pics" "notes.txt"]
      by (vm_compute; reflexivity).
    repeat (apply Forall_cons; split; [vm_compute; reflexivity|]).
    constructor.
  - by destruct (main_inv _ _ _ _ _ Hrun) as [-> _].
Defined.

End OriginalsUntouched.

(** ** The classifier: longer names *)

Section KeywordMonotone.

Import Classifier.






End KeywordMonotone.
